(** * backupacker: a shallow embedding of [backup.py]

    The development follows the layout of the script: Python values and
    exceptions, the name sanitizer, path handling, blob naming, the archive
    builders, the tree partitioner, the content comparison, and the
    validation done by [main]. *)

From Stdlib Require Import NArith String Ascii.
From stdpp Require Import base numbers option list gmap.

Local Open Scope N_scope.
#[local] Set Warnings "-register-all".

(** ** Python values and exceptions *)

(** A Python [str] is a sequence of Unicode code points. *)
Definition char := N.
Definition str := list char.

Definition valid_char (c : char) : Prop := c <= 0x10FFFF.
Definition valid_str (s : str) : Prop := Forall valid_char s.

(** String literals of the script, as code points. *)
Definition lit (s : string) : str := map N_of_ascii (list_ascii_of_string s).

(** The exceptions the script can raise. *)
Inductive exn :=
| IndexError
| TypeError
| FileExistsError
| FileNotFoundError
| NotADirectoryError
| IsADirectoryError
| PermissionError
| OSError
| CalledProcessError
| ValueError (msg : string)
| OutOfFuel    (* not a Python exception: the loop bound of the model was reached *)
| Unmodelled.  (* not a Python exception: the run has left what the model describes *)

Inductive result (A : Type) :=
| Ok (a : A)
| Raise (e : exn).
Arguments Ok {A} a.
Arguments Raise {A} e.

#[global] Instance result_ret : MRet result := fun _ a => Ok a.
#[global] Instance result_bind : MBind result := fun _ _ f m =>
  match m with Ok a => f a | Raise e => Raise e end.

(** [ord(s)]: defined on strings of length one only. *)
Definition ord (s : str) : result char :=
  match s with
  | [c] => Ok c
  | _ => Raise TypeError
  end.

(** [x in s] on strings: [x] occurs in [s] as a contiguous substring. *)
Fixpoint str_prefix (x s : str) : bool :=
  match x, s with
  | [], _ => true
  | a :: x', b :: s' => (a =? b) && str_prefix x' s'
  | _ :: _, [] => false
  end.

Fixpoint str_in (x s : str) : bool :=
  str_prefix x s ||
  match s with
  | [] => false
  | _ :: s' => str_in x s'
  end.

(** ** hex() and str.upper() *)

Definition hex_digit (d : N) : char := if d <? 10 then 48 + d else 87 + d.

(** Digits of [n] in base 16, least significant first. *)
Fixpoint hex_rev (fuel : nat) (n : N) : str :=
  match fuel with
  | O => []
  | S f => hex_digit (n mod 16) :: (if n / 16 =? 0 then [] else hex_rev f (n / 16))
  end.

(** [hex(n)]: the prefix [0x], then the lower-case digits without leading
    zeros. One digit is produced per unit of fuel, and [n] has at most
    [log2 n + 1] of them. *)
Definition hex (n : N) : str :=
  lit "0x" ++ rev (hex_rev (S (N.to_nat (N.log2 n))) n).

(** [str.upper()] on the ASCII range (it is only applied to [hex] digits). *)
Definition upper_char (c : char) : char :=
  if (97 <=? c) && (c <=? 122) then c - 32 else c.
Definition upper (s : str) : str := map upper_char s.

(** ** The sanitizer *)

Definition DROPBOX_FORBIDDEN : gset char :=
  {[ 34; 42; 47; 58; 60; 62; 63; 92; 124 ]}.

Definition _encode (c : char) : str :=
  let in_hex := drop 2 (hex c) in
  let pq := (length in_hex / 2)%nat in
  repeat 37 pq ++ upper in_hex.

(** The test of the loop body: the character is escaped. *)
Definition must_escape (c : char) : bool :=
  bool_decide (c ∈ DROPBOX_FORBIDDEN) || (65535 <? c).

Definition escape_pass (name : str) : list str :=
  map (fun c => if must_escape c then _encode c else [c]) name.

Definition sanitize (name : str) : result str :=
  let final_chars := escape_pass name in
  match last final_chars with
  | None => Raise IndexError
  | Some l =>
      if str_in l (lit ". ") then
        c ← ord l;
        Ok (concat (<[pred (length final_chars) := _encode c]> final_chars))
      else Ok (concat final_chars)
  end.

(** ** Digits of the escapes *)

Definition upper_digit (d : N) : char := if d <? 10 then 48 + d else 55 + d.
Definition digit_val (c : char) : N := if c <? 58 then c - 48 else c - 55.
Definition is_upper_hex (c : char) : Prop := 48 <= c <= 57 ∨ 65 <= c <= 70.

(** Value of a string of upper-case digits, most significant first. *)
Definition unhex (s : str) : N := fold_left (fun acc c => 16 * acc + digit_val c) s 0.

(** The digits [hex(c)[2:]]. *)
Definition in_hex (c : char) : str := drop 2 (hex c).


(** ** The sanitizer, character by character

    [esc final c] is what [sanitize] emits for the character [c], [final]
    telling whether [c] is the last character of the name; [san] is the
    output for a whole name. They are related to [sanitize] by
    [sanitize_san] below. *)

Definition escaped (final : bool) (c : char) : bool :=
  must_escape c || (final && ((c =? 46) || (c =? 32))).

Definition esc (final : bool) (c : char) : str :=
  if escaped final c then _encode c else [c].

Definition is_nil {A} (l : list A) : bool :=
  match l with [] => true | _ => false end.

Fixpoint san (s : str) : str :=
  match s with
  | [] => []
  | c :: r => esc (is_nil r) c ++ san r
  end.

(** The three shapes of an escape: [%XX], [%%XXXXX] and [%%%XXXXXX]. *)
Definition escape_shape (k h : nat) : Prop :=
  (k = 1 ∧ h = 2)%nat ∨ (k = 2 ∧ h = 5)%nat ∨ (k = 3 ∧ h = 6)%nat.

(** Names without a [%] sign. *)
Definition percent_free (s : str) : Prop := Forall (fun c => c ≠ 37) s.

(** ** pathlib

    A path is its anchor and its components. [root] is [true] for an
    absolute path, and [dslash] tells that its root is [//]: pathlib keeps
    exactly two leading slashes apart from one. *)

Record Path := MkPath { root : bool; dslash : bool; parts : list str }.

(** A path whose root, if any, is the plain [/]. *)
Abbreviation mkPath r ps := (MkPath r false ps).

#[global] Instance Path_eq_dec : EqDecision Path.
Proof. solve_decision. Defined.

#[global] Instance Path_countable : Countable Path.
Proof.
  refine (inj_countable' (fun p => (root p, dslash p, parts p))
            (fun x => MkPath x.1.1 x.1.2 x.2) _).
  by intros [].
Defined.

Fixpoint split_slash (s : str) : list str :=
  match s with
  | [] => [[]]
  | c :: r =>
      if c =? 47 then [] :: split_slash r
      else match split_slash r with
           | w :: ws => (c :: w) :: ws
           | [] => [[c]]
           end
  end.

(** [pathlib.Path(s)]: empty components and [.] are dropped; the root is
    [//] when [s] starts with two slashes and no more. *)
Definition Path_of_str (s : str) : Path :=
  MkPath (match s with c :: _ => c =? 47 | [] => false end)
         (match s with
          | a :: b :: r =>
              (a =? 47) && (b =? 47) && negb (match r with c :: _ => c =? 47 | [] => false end)
          | _ => false
          end)
         (filter (fun w => w ≠ [] ∧ w ≠ lit ".") (split_slash s)).

(** [a / b] *)
Definition joinpath (a b : Path) : Path :=
  if root b then b else MkPath (root a) (dslash a) (parts a ++ parts b).
Infix "</>" := joinpath (at level 40, left associativity).

(** The child [name] of a directory, as [iterdir] and [os.path.join] give it. *)
Definition child (d : Path) (name : str) : Path :=
  MkPath (root d) (dslash d) (parts d ++ [name]).

(** The path [ps] below the directory [d]. *)
Definition extend (d : Path) (ps : list str) : Path :=
  MkPath (root d) (dslash d) (parts d ++ ps).

Fixpoint join_slash (ps : list str) : str :=
  match ps with
  | [] => []
  | [p] => p
  | p :: r => p ++ 47 :: join_slash r
  end.

(** [str(p)] *)
Definition Path_str (p : Path) : str :=
  if root p then
    if dslash p then 47 :: 47 :: join_slash (parts p) else 47 :: join_slash (parts p)
  else match parts p with
       | [] => lit "."
       | ps => join_slash ps
       end.

Fixpoint strip_prefix (pre l : list str) : option (list str) :=
  match pre, l with
  | [], _ => Some l
  | a :: pre', b :: l' => if decide (a = b) then strip_prefix pre' l' else None
  | _ :: _, [] => None
  end.

(** The two paths have the same anchor. *)
Definition same_anchor (p q : Path) : Prop := root p = root q ∧ dslash p = dslash q.

#[global] Instance same_anchor_dec (p q : Path) : Decision (same_anchor p q).
Proof. unfold same_anchor. apply _. Defined.

(** [p.relative_to(other)] *)
Definition relative_to (p other : Path) : result Path :=
  if bool_decide (same_anchor p other) then
    match strip_prefix (parts other) (parts p) with
    | Some r => Ok (mkPath false r)
    | None => Raise (ValueError "is not in the subpath of")
    end
  else Raise (ValueError "is not in the subpath of").

Fixpoint proper_prefixes (ps : list str) : list (list str) :=
  match ps with
  | [] => []
  | x :: r => [] :: map (cons x) (proper_prefixes r)
  end.

(** [p.parents], here from the anchor down. *)
Definition parents (p : Path) : list Path :=
  map (MkPath (root p) (dslash p)) (proper_prefixes (parts p)).

(** [directory.iterdir()], given the names in the directory. *)
Definition iterdir (directory : Path) (names : list str) : list Path :=
  map (child directory) names.

(** [sorted] on the children of one directory compares the names. *)
Fixpoint str_leb (a b : str) : bool :=
  match a, b with
  | [], _ => true
  | _ :: _, [] => false
  | x :: a', y :: b' => if x <? y then true else if y <? x then false else str_leb a' b'
  end.

Section Sorted.
Context {A : Type} (key : A → str).

Fixpoint insert_by (x : A) (l : list A) : list A :=
  match l with
  | [] => [x]
  | y :: r => if str_leb (key x) (key y) then x :: y :: r else y :: insert_by x r
  end.

Definition sorted_by (l : list A) : list A := foldr insert_by [] l.
End Sorted.

(** ** The file system read by the script *)

Definition bytes := list N.

(** A file carries what [os.access(path, os.R_OK)] answers for it, and its
    bytes; a directory carries whether [os.scandir] can list it, and its
    entries. *)
Inductive node :=
| File (readable : bool) (data : bytes)
| Directory (listable : bool) (entries : list (str * node)).

(** A directory that can be listed. *)
Abbreviation Dir es := (Directory true es).

(** The content of a directory, in [os.scandir] order. *)
Definition tree := list (str * node).

Fixpoint lookup_name (name : str) (t : tree) : option node :=
  match t with
  | [] => None
  | (n, x) :: r => if decide (n = name) then Some x else lookup_name name r
  end.

Fixpoint lookup_rel (ps : list str) (n : node) : option node :=
  match ps with
  | [] => Some n
  | p :: r =>
      match n with
      | Directory _ es =>
          match lookup_name p es with
          | Some x => lookup_rel r x
          | None => None
          end
      | File _ _ => None
      end
  end.

(** ** The build area *)

(** One [tar.add(fpath, arcname=...)]. *)
Record entry := mkEntry { arcname : str; source : Path; content : bytes }.

Inductive bnode :=
| Blob (entries : list entry)
| BDir (children : list (str * bnode)).

(** The content of a build directory, in order of creation. *)
Definition listing := list (str * bnode).

Definition names (bl : listing) : list str := map fst bl.

(** The name under which [p] is a direct child of [directory]. *)
Definition child_name (directory p : Path) : option str :=
  if bool_decide (same_anchor p directory) then
    match strip_prefix (parts directory) (parts p) with
    | Some [n] => Some n
    | _ => None
    end
  else None.

(** Exclusive creation of [p] in the build directory ([tarfile.open] in mode
    [x], [Path.mkdir]): the name it takes there. *)
Definition create (directory : Path) (bl : listing) (p : Path) : result str :=
  match child_name directory p with
  | None => Raise FileNotFoundError
  | Some n => if bool_decide (n ∈ names bl) then Raise FileExistsError else Ok n
  end.

(** ** Blob names *)

Fixpoint dec_rev (fuel : nat) (n : N) : str :=
  match fuel with
  | O => []
  | S f => (48 + n mod 10) :: (if n / 10 =? 0 then [] else dec_rev f (n / 10))
  end.

(** [str(n)] for a natural number. *)
Definition str_of_int (n : N) : str := rev (dec_rev (S (N.to_nat (N.log2 n))) n).

Fixpoint _get_name_loop (fuel : nat) (basename : str) (children : list Path)
    (fpath : Path) (num : N) : option Path :=
  match fuel with
  | O => None
  | S f =>
      if bool_decide (fpath ∈ children) then
        _get_name_loop f basename children
          (Path_of_str (basename ++ lit "-" ++ str_of_int num ++ lit ".tar.bz2"))
          (num + 1)
      else Some fpath
  end.

(** [names] are the names present in [directory]. The loop leaves a
    candidate behind at each turn, so it is given one turn more than there
    are names. *)
Definition _get_name (basename : str) (directory : Path) (names : list str)
    : option Path :=
  fpath ← _get_name_loop (S (length names)) basename (iterdir directory names)
             (Path_of_str (basename ++ lit ".tar.bz2")) 1;
  Some (directory </> fpath).

(** The candidates tried by [_get_name], in order. *)
Definition candidate (basename : str) (k : N) : Path :=
  if k =? 0 then Path_of_str (basename ++ lit ".tar.bz2")
  else Path_of_str (basename ++ lit "-" ++ str_of_int k ++ lit ".tar.bz2").

(** Value of a decimal numeral, least significant digit first. *)
Definition undec_rev (s : str) : N := fold_right (fun c acc => (c - 48) + 10 * acc) 0 s.

(** ** The archive builder

    A tar file under construction is the list of its entries; a loop that
    can raise returns what was written so far together with the exception. *)

(** The loop over [filenames] in [build_tree]. *)
Fixpoint add_files (rootdir : Path) (to_ignore : gset Path) (dirpath : Path)
    (es : tree) (tar : list entry) : list entry * option exn :=
  match es with
  | [] => (tar, None)
  | (fname, File readable data) :: r =>
      let fpath := child dirpath fname in
      if bool_decide (fpath ∈ to_ignore) then add_files rootdir to_ignore dirpath r tar
      else if negb readable then add_files rootdir to_ignore dirpath r tar
      else
        match relative_to fpath rootdir with
        | Raise e => (tar, Some e)
        | Ok relative_path =>
            add_files rootdir to_ignore dirpath r
              (tar ++ [mkEntry (Path_str relative_path) fpath data])
        end
  | (_, Directory _ _) :: r => add_files rootdir to_ignore dirpath r tar
  end.

(** The loop over [os.walk(dirpath)]: top-down, the files of a directory
    before its subdirectories; no descent below an ignored directory.
    [os.walk] passes over a directory that it cannot list. *)
Fixpoint walk (rootdir : Path) (to_ignore : gset Path) (dirpath : Path)
    (n : node) (tar : list entry) : list entry * option exn :=
  match n with
  | File _ _ => (tar, None)
  | Directory false _ => (tar, None)
  | Directory true es =>
      if bool_decide (dirpath ∈ to_ignore) then (tar, None)
      else
        match add_files rootdir to_ignore dirpath es tar with
        | (tar', Some e) => (tar', Some e)
        | (tar', None) =>
            (fix subdirs (l : tree) (tar : list entry) : list entry * option exn :=
               match l with
               | [] => (tar, None)
               | (d, sub) :: r =>
                   match sub with
                   | File _ _ => subdirs r tar
                   | Directory _ _ =>
                       match walk rootdir to_ignore (child dirpath d) sub tar with
                       | (tar', Some e) => (tar', Some e)
                       | (tar', None) => subdirs r tar'
                       end
                   end
               end) es tar'
        end
  end.

(** What [os.walk] finds at [rootdir / node], [fs] being the content of
    [rootdir]: nothing to walk when the path does not exist. *)
Definition subtree (fs : tree) (rel : Path) : node :=
  match lookup_rel (parts rel) (Dir fs) with
  | Some n => n
  | None => Dir []
  end.

(** [fs] is the content of [rootdir]. *)
Definition build_tree (fs : tree) (rootdir builddir node : Path)
    (to_ignore : gset Path) (bl : listing) : listing * option exn :=
  match sanitize (Path_str node) with
  | Raise e => (bl, Some e)
  | Ok sane_name =>
      match _get_name sane_name builddir (names bl) with
      | None => (bl, Some OutOfFuel)
      | Some fname =>
          match create builddir bl fname with
          | Raise e => (bl, Some e)
          | Ok f =>
              let '(tar, err) :=
                walk rootdir to_ignore (rootdir </> node) (subtree fs node) [] in
              (bl ++ [(f, Blob tar)], err)
          end
      end
  end.

(** The loop of [pack_files]; [os.access] holds of a readable file. The
    list only ever holds children that are not directories. *)
Fixpoint pack_add (fs : tree) (rootdir : Path) (all_files : list Path)
    (tar : list entry) : list entry :=
  match all_files with
  | [] => tar
  | fname :: r =>
      let fpath := rootdir </> fname in
      match lookup_rel (parts fname) (Dir fs) with
      | Some (File true data) =>
          pack_add fs rootdir r (tar ++ [mkEntry (Path_str fname) fpath data])
      | _ => pack_add fs rootdir r tar
      end
  end.

Definition pack_files (fs : tree) (rootdir builddir : Path) (all_files : list Path)
    (bl : listing) : listing * option exn :=
  match all_files with
  | [] => (bl, None)
  | _ =>
      match _get_name (lit "_packed_files") builddir (names bl) with
      | None => (bl, Some OutOfFuel)
      | Some tarfpath =>
          match create builddir bl tarfpath with
          | Raise e => (bl, Some e)
          | Ok f => (bl ++ [(f, Blob (pack_add fs rootdir all_files []))], None)
          end
      end
  end.

(** ** The tree partitioner *)

Definition group_match (group_levels : gmap Path Z) (node : Path) : bool :=
  bool_decide
    (set_Exists (fun group => group = node ∨ group ∈ parents node) (dom group_levels)).

Definition group_levels_sub (group_levels : gmap Path Z) : gmap Path Z :=
  (fun v => v - 1)%Z <$> filter (fun kv => (1 < kv.2)%Z) group_levels.

(** [explore] on one directory of the source, as a function of the other
    arguments: root, build directory (freshly made), levels, ignore set. *)
Definition explorer : Type :=
  Path → Path → gmap Path Z → gset Path → listing * option exn.

(** The loop over the sorted children. Each child comes with its node and
    with [explore] on it, for the recursive call. *)
Fixpoint explore_loop (fs : tree) (rootdir builddir : Path)
    (group_levels : gmap Path Z) (to_ignore : gset Path)
    (children : list (str * node * explorer))
    (all_files : list Path) (bl : listing) : listing * option exn :=
  match children with
  | [] => pack_files fs rootdir builddir all_files bl
  | (name, n, explore_n) :: rest =>
      let node := child rootdir name in
      if bool_decide (node ∈ to_ignore) then
        explore_loop fs rootdir builddir group_levels to_ignore rest all_files bl
      else
        match relative_to node rootdir with
        | Raise e => (bl, Some e)
        | Ok node_relative =>
            match n with
            | File _ _ =>
                explore_loop fs rootdir builddir group_levels to_ignore rest
                  (all_files ++ [node_relative]) bl
            | Directory _ _ =>
                if group_match group_levels node then
                  match sanitize (Path_str node_relative) with
                  | Raise e => (bl, Some e)
                  | Ok sane =>
                      let build_sub := builddir </> Path_of_str sane in
                      match create builddir bl build_sub with
                      | Raise e => (bl, Some e)
                      | Ok d =>
                          let '(sub, err) :=
                            explore_n node build_sub (group_levels_sub group_levels)
                              to_ignore in
                          let bl' := bl ++ [(d, BDir sub)] in
                          match err with
                          | Some e => (bl', Some e)
                          | None =>
                              explore_loop fs rootdir builddir group_levels to_ignore
                                rest all_files bl'
                          end
                      end
                  end
                else
                  match build_tree fs rootdir builddir node_relative to_ignore bl with
                  | (bl', Some e) => (bl', Some e)
                  | (bl', None) =>
                      explore_loop fs rootdir builddir group_levels to_ignore rest
                        all_files bl'
                  end
            end
        end
  end.

(** [explore] by recursion on the source tree. The children are paired with
    their own [explore] before they are sorted, which keeps the recursion
    structural. *)
Fixpoint explore_node (n : node) : explorer :=
  fun rootdir builddir group_levels to_ignore =>
    match n with
    | File _ _ => ([], Some NotADirectoryError)
    | Directory false _ => ([], Some PermissionError)
    | Directory true es =>
        explore_loop es rootdir builddir group_levels to_ignore
          (sorted_by (fun c => c.1.1)
             ((fix pair_up (l : tree) : list (str * node * explorer) :=
                 match l with
                 | [] => []
                 | (name, sub) :: r => (name, sub, explore_node sub) :: pair_up r
                 end) es))
          [] []
    end.

(** [explore(rootdir, builddir, group_levels, to_ignore)], [fs] being the
    content of [rootdir]. *)
Definition explore (fs : tree) (rootdir builddir : Path)
    (group_levels : gmap Path Z) (to_ignore : gset Path) : listing * option exn :=
  explore_node (Dir fs) rootdir builddir group_levels to_ignore.

(** ** Content comparison *)

(** [fh.read(size)] on the rest of a file: the bytes read, and the rest. *)
Definition read (size : nat) (fh : bytes) : bytes * bytes := (take size fh, drop size fh).

(** The loop of [compare_content], on what is left to read of both files.
    Each turn but the last consumes [chunk] bytes of the first file. *)
Fixpoint compare_loop (chunk : nat) (fuel : nat) (fh1 fh2 : bytes) : option bool :=
  match fuel with
  | O => None
  | S f =>
      let '(data1, fh1') := read chunk fh1 in
      let '(data2, fh2') := read chunk fh2 in
      if bool_decide (data1 ≠ data2) then Some false
      else if is_nil data1 then Some true
      else compare_loop chunk f fh1' fh2'
  end.

Definition CHUNK : nat := N.to_nat 65536.

(** [compare_content] on the contents of the two files. *)
Definition compare_content (content1 content2 : bytes) : option bool :=
  compare_loop CHUNK (S (length content1)) content1 content2.

Inductive status := equal | changed | new.

(** The status of one built file, from what is found at its path in the
    mirror ([None]: nothing there). *)
Definition blob_status (build_content : bytes) (sync : option node) : result status :=
  match sync with
  | None => Ok new
  | Some (Directory _ _) => Raise IsADirectoryError
  | Some (File false _) => Raise PermissionError
  | Some (File true sync_content) =>
      match compare_content build_content sync_content with
      | Some true => Ok equal
      | Some false => Ok changed
      | None => Raise OutOfFuel
      end
  end.

(** ** [main] *)

(** Lookup of an absolute path from the root directory of the machine;
    [stack] holds the directories above the current one, for [..]. *)
Fixpoint lookup_abs (stack : list node) (cur : node) (ps : list str) : option node :=
  match ps with
  | [] => Some cur
  | p :: r =>
      match cur with
      | File _ _ => None
      | Directory _ es =>
          if decide (p = lit "..") then
            match stack with
            | [] => lookup_abs [] cur r
            | up :: st => lookup_abs st up r
            end
          else
            match lookup_name p es with
            | Some x => lookup_abs (cur :: stack) x r
            | None => None
            end
      end
  end.

Definition fs_lookup (machine : node) (p : Path) : option node :=
  lookup_abs [] machine (parts p).

Definition path_exists (machine : node) (p : Path) : bool :=
  match fs_lookup machine p with Some _ => true | None => false end.

Definition path_is_dir (machine : node) (p : Path) : bool :=
  match fs_lookup machine p with Some (Directory _ _) => true | _ => false end.

(** [p.parts]: the anchor counts as a part. *)
Definition Path_parts (p : Path) : list str :=
  if root p then (if dslash p then lit "//" else lit "/") :: parts p else parts p.

(** A scalar of the YAML file. *)
Inductive yaml :=
| YInt (z : Z)
| YStr (s : str).

Record config := mkConfig {
  cfg_rootdir : str;
  cfg_builddir : str;
  cfg_syncdir : str;
  cfg_ignore_list : list str;
  cfg_group_levels : list (str * yaml)
}.

Record validated := mkValidated {
  v_rootdir : Path;
  v_builddir : Path;
  v_syncdir : Path;
  v_to_ignore : gset Path;
  v_group_levels : gmap Path Z
}.

(** The calls by which [main] changes the file system, in order. *)
Inductive effect :=
| Rmtree (p : Path)
| Makedirs (p : Path)
| Built (p : Path) (bl : listing)
| Rsync (src dst : Path).

Record run := mkRun {
  effects : list effect;
  all_stats : list (Path * nat * status);
  raised : option exn
}.

(** *** The file system as [main] changes it

    The build directory is removed, made again and filled; these changes
    are made at a place given by names from [/] down. *)

Fixpoint remove_name (name : str) (t : tree) : tree :=
  match t with
  | [] => []
  | (n, x) :: r => if decide (n = name) then r else (n, x) :: remove_name name r
  end.

Fixpoint replace_name (name : str) (new : node) (t : tree) : tree :=
  match t with
  | [] => []
  | (n, x) :: r =>
      if decide (n = name) then (n, new) :: r else (n, x) :: replace_name name new r
  end.

(** [shutil.rmtree] of the directory at [ps]. *)
Fixpoint rmtree_rel (ps : list str) (n : node) : node :=
  match ps with
  | [] => n
  | p :: r =>
      match n with
      | File _ _ => n
      | Directory l es =>
          match r with
          | [] => Directory l (remove_name p es)
          | _ :: _ =>
              match lookup_name p es with
              | Some x => Directory l (replace_name p (rmtree_rel r x) es)
              | None => n
              end
          end
      end
  end.

(** A chain of new directories. *)
Fixpoint empty_dirs (ps : list str) : node :=
  match ps with
  | [] => Dir []
  | p :: r => Dir [(p, empty_dirs r)]
  end.

(** [os.makedirs] of the path [ps]: the missing directories are made, the
    last one has to be new, and none can be made below a file. *)
Fixpoint makedirs_rel (ps : list str) (n : node) : result node :=
  match ps with
  | [] => Raise FileExistsError
  | p :: r =>
      match n with
      | File _ _ => Raise NotADirectoryError
      | Directory l es =>
          match lookup_name p es with
          | Some x => x' ← makedirs_rel r x; Ok (Directory l (replace_name p x' es))
          | None => Ok (Directory l (es ++ [(p, empty_dirs r)]))
          end
      end
  end.

(** The file system with [new] in the place of what is at [ps]. *)
Fixpoint write_rel (ps : list str) (new : node) (n : node) : node :=
  match ps with
  | [] => new
  | p :: r =>
      match n with
      | File _ _ => n
      | Directory l es =>
          match lookup_name p es with
          | Some x => Directory l (replace_name p (write_rel r new x) es)
          | None => n
          end
      end
  end.

(** The place of a path in the file system, [..] resolved: the names from
    [/] down to it. *)
Fixpoint locate (machine : node) (loc ps : list str) : option (list str) :=
  match ps with
  | [] => match lookup_rel loc machine with Some _ => Some loc | None => None end
  | p :: r =>
      match lookup_rel loc machine with
      | Some (Directory _ _) =>
          if decide (p = lit "..") then locate machine (removelast loc) r
          else locate machine (loc ++ [p]) r
      | _ => None
      end
  end.

(** The build directory lies below the root and [explore] comes to it: no
    path from the child of the root down to the build directory is
    ignored. [explore] then reads what it writes. *)
Definition exposed (machine : node) (rootdir builddir : Path) (to_ignore : gset Path)
    : bool :=
  match locate machine [] (parts rootdir), locate machine [] (parts builddir) with
  | Some rloc, Some bloc =>
      match strip_prefix rloc bloc with
      | Some ps =>
          negb (is_nil ps) &&
          forallb (fun k => negb (bool_decide (extend rootdir (take k ps) ∈ to_ignore)))
            (seq 1 (length ps))
      | None => false
      end
  | _, _ => false
  end.

(** Every directory of the tree can be listed. *)
Fixpoint listable_all (n : node) : bool :=
  match n with
  | File _ _ => true
  | Directory l es =>
      l && (fix go (t : tree) : bool :=
              match t with
              | [] => true
              | (_, x) :: r => listable_all x && go r
              end) es
  end.

(** Lines 231 to 234: the old build directory is removed, and a new one
    made. [rmtree] has to list what it removes, and [rmtree] of [/] ends on
    [rmdir('/')]. *)
Definition prepare (machine : node) (builddir : Path) : list effect * result node :=
  match fs_lookup machine builddir with
  | None => ([Makedirs builddir], makedirs_rel (parts builddir) machine)
  | Some (File _ _) => ([Rmtree builddir], Raise NotADirectoryError)
  | Some (Directory l es) =>
      if negb (listable_all (Directory l es)) then
        ([Rmtree builddir], Raise PermissionError)
      else
        match parts builddir with
        | [] => ([Rmtree builddir], Raise OSError)
        | ps => ([Rmtree builddir; Makedirs builddir],
                 makedirs_rel ps (rmtree_rel ps machine))
        end
  end.

(** The status of one file of the build area: both files are opened when
    something is at the path in the mirror. *)
Definition file_status (readable : bool) (data : bytes) (sync : option node)
    : result status :=
  match sync with
  | None => Ok new
  | Some _ => if readable then blob_status data sync else Raise PermissionError
  end.

(** The loop over the files of one directory of the build area. *)
Fixpoint stat_files (machine : node) (builddir dirpath sync_dirpath : Path)
    (es : tree) : result (list (Path * nat * status)) :=
  match es with
  | [] => Ok []
  | (fname, File readable data) :: r =>
      let build_fpath := child dirpath fname in
      let sync_fpath := child sync_dirpath fname in
      st ← file_status readable data (fs_lookup machine sync_fpath);
      rel ← relative_to build_fpath builddir;
      rest ← stat_files machine builddir dirpath sync_dirpath r;
      Ok ((rel, length data, st) :: rest)
  | (_, Directory _ _) :: r => stat_files machine builddir dirpath sync_dirpath r
  end.

(** The loop over [os.walk(builddir)], on the directory [n] found at
    [dirpath]: its files in the order of the file system, then its
    subdirectories in that order. *)
Fixpoint stat_walk (machine : node) (builddir syncdir dirpath : Path) (n : node)
    : result (list (Path * nat * status)) :=
  match n with
  | File _ _ => Ok []
  | Directory false _ => Ok []
  | Directory true es =>
      rel ← relative_to dirpath builddir;
      here ← stat_files machine builddir dirpath (syncdir </> rel) es;
      below ←
        (fix subdirs (l : tree) : result (list (Path * nat * status)) :=
           match l with
           | [] => Ok []
           | (d, sub) :: r =>
               match sub with
               | File _ _ => subdirs r
               | Directory _ _ =>
                   x ← stat_walk machine builddir syncdir (child dirpath d) sub;
                   y ← subdirs r;
                   Ok (x ++ y)
               end
           end) es;
      Ok (here ++ below)
  end.

(** Lines 238 to 255. *)
Definition stats (machine : node) (builddir syncdir : Path)
    : result (list (Path * nat * status)) :=
  match fs_lookup machine builddir with
  | Some n => stat_walk machine builddir syncdir builddir n
  | None => Ok []
  end.

(** The names that [builddir.iterdir()] goes through. *)
Definition top_names (machine : node) (builddir : Path) : result (list str) :=
  match fs_lookup machine builddir with
  | Some (Directory true es) => Ok (map fst es)
  | Some (Directory false _) => Raise PermissionError
  | Some (File _ _) => Raise NotADirectoryError
  | None => Raise FileNotFoundError
  end.

Section Main.
(** [int] on a string and the bytes that [tarfile] writes for the entries
    of a blob are left abstract, and so are two answers of the machine: the
    order in which a directory lists the entries created in it, and the
    outcome of one [rsync] command. *)
Variable int_of_str : str → result Z.
Variable tar_bz2 : list entry → bytes.
Variable scandir : tree → tree.
Variable run_rsync : Path → Path → option exn.

Definition int (value : yaml) : result Z :=
  match value with
  | YInt z => Ok z
  | YStr s => int_of_str s
  end.

(** The loop over [config['ignore_list']]. *)
Fixpoint load_ignore (machine : node) (rootdir : Path) (ignore_list : list str)
    (to_ignore : gset Path) : result (gset Path) :=
  match ignore_list with
  | [] => Ok to_ignore
  | node_str :: r =>
      let node_relative := Path_of_str node_str in
      let node := rootdir </> node_relative in
      if root node_relative then
        Raise (ValueError "Bad config: to-ignore nodes must be relative")
      else if negb (path_exists machine node) then
        Raise (ValueError "Bad config: to-ignore node does not exist")
      else load_ignore machine rootdir r ({[ node ]} ∪ to_ignore)
  end.

(** The loop over [config['group_levels'].items()]. *)
Fixpoint load_group_levels (machine : node) (rootdir : Path)
    (items : list (str * yaml)) (group_levels : gmap Path Z)
    : result (gmap Path Z) :=
  match items with
  | [] => Ok group_levels
  | (dirpath_str, value) :: r =>
      let dirpath_relative := Path_of_str dirpath_str in
      let dirpath := rootdir </> dirpath_relative in
      if negb (path_exists machine dirpath) then
        Raise (ValueError "Bad config: group level node does not exist")
      else if negb (path_is_dir machine dirpath) then
        Raise (ValueError "Bad config: group level nodes must be directories")
      else if (1 <? length (Path_parts dirpath_relative))%nat then
        Raise (ValueError "Bad config: group level can be defined for base dirs only")
      else
        match int value with
        | Raise _ => Raise (ValueError "Bad config: group level must be a number")
        | Ok value =>
            load_group_levels machine rootdir r (<[ dirpath := value ]> group_levels)
        end
  end.

(** Build and sync directories under the root must be under something
    ignored. *)
Fixpoint check_nesting (rootdir : Path) (to_ignore : gset Path)
    (dirs : list (Path * string)) : result unit :=
  match dirs with
  | [] => Ok ()
  | (checkdir, name) :: r =>
      if bool_decide (rootdir ∈ parents checkdir)
         && negb (bool_decide
                    (set_Exists (fun ignored => ignored ∈ parents checkdir) to_ignore))
      then Raise (ValueError "dir is under root dir and not under something ignored")
      else check_nesting rootdir to_ignore r
  end.

(** Lines 167 to 228 of [main]: everything up to "Config validated ok". *)
Definition validate (machine : node) (cfg : config) : result validated :=
  let rootdir := Path_of_str (cfg_rootdir cfg) in
  if negb (root rootdir) then Raise (ValueError "Bad config! rootdir must be absolute")
  else
  let builddir := Path_of_str (cfg_builddir cfg) in
  if negb (root builddir) then Raise (ValueError "Bad config! builddir must be absolute")
  else
  let syncdir := Path_of_str (cfg_syncdir cfg) in
  if negb (root syncdir) then Raise (ValueError "Bad config! syncdir must be absolute")
  else
  to_ignore ← load_ignore machine rootdir (cfg_ignore_list cfg) ∅;
  group_levels ← load_group_levels machine rootdir (cfg_group_levels cfg) ∅;
  _ ← check_nesting rootdir to_ignore [(builddir, "build"%string); (syncdir, "sync"%string)];
  Ok (mkValidated rootdir builddir syncdir to_ignore group_levels).

(** What a build directory is on the disk once [explore] has made it. *)
Fixpoint realise (b : bnode) : node :=
  match b with
  | Blob es => File true (tar_bz2 es)
  | BDir bl =>
      Dir (scandir
             ((fix go (l : listing) : tree :=
                 match l with
                 | [] => []
                 | (name, x) :: r => (name, realise x) :: go r
                 end) bl))
  end.

(** Lines 230 to 235: the calls made, and then the file system and the
    build directory that [explore] leaves. [explore] is given the content of
    the root as it is when it starts; two cases in which this is not what
    the script goes through are left out: a build directory written with
    [..], and a build directory that [explore] reads while it fills it. *)
Definition build (machine : node) (v : validated)
    : list effect * result (node * listing) :=
  let rootdir := v_rootdir v in
  let builddir := v_builddir v in
  if bool_decide (lit ".." ∈ parts builddir) then ([], Raise Unmodelled)
  else
    match prepare machine builddir with
    | (calls, Raise e) => (calls, Raise e)
    | (calls, Ok made) =>
        if exposed made rootdir builddir (v_to_ignore v) then (calls, Raise Unmodelled)
        else
          match fs_lookup made rootdir with
          | None => (calls, Raise FileNotFoundError)
          | Some (File _ _) => (calls, Raise NotADirectoryError)
          | Some (Directory false _) => (calls, Raise PermissionError)
          | Some (Directory true fs) =>
              let '(bl, err) :=
                explore fs rootdir builddir (v_group_levels v) (v_to_ignore v) in
              (calls ++ [Built builddir bl],
               match err with
               | Some e => Raise e
               | None => Ok (write_rel (parts builddir) (realise (BDir bl)) made, bl)
               end)
          end
    end.

(** The loop over [builddir.iterdir()]: it stops at the first command that
    fails. *)
Fixpoint rsync_all (nodes : list Path) (syncdir : Path) : list effect * option exn :=
  match nodes with
  | [] => ([], None)
  | node :: r =>
      match run_rsync node syncdir with
      | Some e => ([Rsync node syncdir], Some e)
      | None =>
          let '(calls, err) := rsync_all r syncdir in
          (Rsync node syncdir :: calls, err)
      end
  end.

Definition main (machine : node) (cfg : config) : run :=
  match validate machine cfg with
  | Raise e => mkRun [] [] (Some e)
  | Ok v =>
      match build machine v with
      | (calls, Raise e) => mkRun calls [] (Some e)
      | (calls, Ok (built, _)) =>
          match stats built (v_builddir v) (v_syncdir v) with
          | Raise e => mkRun calls [] (Some e)
          | Ok all_stats =>
              match top_names built (v_builddir v) with
              | Raise e => mkRun calls all_stats (Some e)
              | Ok ns =>
                  let '(synced, err) :=
                    rsync_all (iterdir (v_builddir v) ns) (v_syncdir v) in
                  mkRun (calls ++ synced) all_stats err
              end
          end
      end
  end.
End Main.

(** ** Vocabulary of the statements *)

(** [p] is [q] or one of its ancestors. *)
Definition under (p q : Path) : Prop := same_anchor p q ∧ parts p `prefix_of` parts q.

(** All entries of all the blobs in a build directory. *)
Fixpoint bnode_entries (b : bnode) : list entry :=
  match b with
  | Blob es => es
  | BDir bl =>
      (fix go (l : listing) : list entry :=
         match l with
         | [] => []
         | (_, x) :: r => bnode_entries x ++ go r
         end) bl
  end.

Definition listing_entries (bl : listing) : list entry := bnode_entries (BDir bl).

(** The entry is named by the path of its file relative to [d]. *)
Definition entry_relative (d : Path) (e : entry) : Prop :=
  ∃ rel, relative_to (source e) d = Ok rel ∧ arcname e = Path_str rel.

(** The build directory [bl] mirrors the source directory [d]: its blobs
    name their entries relative to [d], and each subdirectory carries the
    sanitized name of a child of [d] and mirrors that child. *)
Inductive mirrors : Path → listing → Prop :=
| mirrors_nil d : mirrors d []
| mirrors_blob d f es bl :
    Forall (entry_relative d) es → mirrors d bl → mirrors d ((f, Blob es) :: bl)
| mirrors_dir d name sane sub bl :
    sanitize name = Ok sane → mirrors (child d name) sub → mirrors d bl →
    mirrors d ((sane, BDir sub) :: bl).

(** A build directory made for the source directory [d]: [Q d] holds of the
    entries of its blobs, and each subdirectory was made for a child [name]
    of [d], with [R d name] of the subdirectory's own name. *)
Inductive built (Q : Path → entry → Prop) (R : Path → str → str → Prop)
  : Path → listing → Prop :=
| built_nil d : built Q R d []
| built_blob d f es bl :
    Forall (Q d) es → built Q R d bl → built Q R d ((f, Blob es) :: bl)
| built_dir d name bname sub bl :
    R d name bname → built Q R (child d name) sub → built Q R d bl →
    built Q R d ((bname, BDir sub) :: bl).

(** No ignored path lies between [d] and the file of the entry: an ignored
    path that is the file or above it is [d] or above [d]. *)
Definition clear_of (ign : gset Path) (d : Path) (e : entry) : Prop :=
  ∀ p, p ∈ ign → under p (source e) → under p d.

(** The relative path of a child of the explored directory. *)
Definition rel1 (name : str) : Path := mkPath false [name].

(** The children of a directory, each with [explore] on it. *)
Definition with_explorers (es : tree) : list (str * node * explorer) :=
  map (fun c => (c.1, c.2, explore_node c.2)) es.

(** The descent of [walk] into the subdirectories of a directory. *)
Fixpoint walk_subdirs (rootdir : Path) (to_ignore : gset Path) (dirpath : Path)
    (l : tree) (tar : list entry) : list entry * option exn :=
  match l with
  | [] => (tar, None)
  | (d, sub) :: r =>
      match sub with
      | File _ _ => walk_subdirs rootdir to_ignore dirpath r tar
      | Directory _ _ =>
          match walk rootdir to_ignore (child dirpath d) sub tar with
          | (tar', Some e) => (tar', Some e)
          | (tar', None) => walk_subdirs rootdir to_ignore dirpath r tar'
          end
      end
  end.

(** What a successful run of the loop has done for each child directory. *)
Definition child_done (fs : tree) (rootdir builddir : Path) (gl : gmap Path Z)
    (ign : gset Path) (bl : listing) (name : str) (ex : explorer) : Prop :=
  ∃ sane, sanitize name = Ok sane ∧
    if group_match gl (child rootdir name)
    then ∃ sub, (sane, BDir sub) ∈ bl ∧
           ex (child rootdir name) (child builddir sane) (group_levels_sub gl) ign
           = (sub, None)
    else ∃ f, (f, Blob (walk rootdir ign (child rootdir name)
                          (subtree fs (rel1 name)) []).1) ∈ bl ∧
              (root builddir = true → f = sane ++ lit ".tar.bz2").


(** ** Sample inputs *)

(** The scenario of the specification: [/data] with [projects/a],
    [projects/b], [other] and a loose file. *)
Definition data_fs : tree :=
  [ (lit "projects",
      Dir [ (lit "b", Dir [ (lit "y.txt", File true [2]) ]);
            (lit "a", Dir [ (lit "x.txt", File true [1]) ]) ]);
    (lit "other", Dir [ (lit "z.txt", File true [3]) ]);
    (lit "secrets", Dir [ (lit "key", File true [5]) ]);
    (lit "notes.txt", File true [4]) ].

Definition data_root : Path := mkPath true [lit "data"].
Definition build_root : Path := mkPath true [lit "build"].
Definition sync_root : Path := mkPath true [lit "sync"].

(** Two sibling directories whose names sanitize alike. *)
Definition clash_fs : tree :=
  [ (lit "a:", Dir [ (lit "x.txt", File true [1]) ]);
    (lit "a%3A", Dir [ (lit "y.txt", File true [2]) ]) ].

(** A machine holding [/data], and configurations for it. *)
Definition machine0 : node := Dir [ (lit "data", Dir data_fs) ].

Definition config0 (ignore_list : list str) (group_levels : list (str * yaml)) : config :=
  mkConfig (lit "/data") (lit "/build") (lit "/sync") ignore_list group_levels.

Definition no_int : str → result Z := fun _ => Raise (ValueError "invalid literal for int()").
Definition raw_tar : list entry → bytes := fun es => concat (map content es).

(** A file system that lists a directory in order of creation, one that
    lists the newest entry first, and [rsync] commands that succeed. *)
Definition creation_order : tree → tree := fun t => t.
Definition newest_first : tree → tree := fun t => rev t.
Definition rsync_ok : Path → Path → option exn := fun _ _ => None.

(** What [explore] builds on the scenario, with [projects] grouped at
    level 1. *)
Definition entry_x : entry :=
  mkEntry (lit "a/x.txt") (mkPath true [lit "data"; lit "projects"; lit "a"; lit "x.txt"]) [1].
Definition entry_y : entry :=
  mkEntry (lit "b/y.txt") (mkPath true [lit "data"; lit "projects"; lit "b"; lit "y.txt"]) [2].
Definition entry_z : entry :=
  mkEntry (lit "other/z.txt") (mkPath true [lit "data"; lit "other"; lit "z.txt"]) [3].
Definition entry_key : entry :=
  mkEntry (lit "secrets/key") (mkPath true [lit "data"; lit "secrets"; lit "key"]) [5].
Definition entry_notes : entry :=
  mkEntry (lit "notes.txt") (mkPath true [lit "data"; lit "notes.txt"]) [4].

Definition projects_levels : gmap Path Z := {[ child data_root (lit "projects") := 1%Z ]}.

Definition data_build : listing :=
  [ (lit "other.tar.bz2", Blob [entry_z]);
    (lit "projects",
      BDir [ (lit "a.tar.bz2", Blob [entry_x]); (lit "b.tar.bz2", Blob [entry_y]) ]);
    (lit "secrets.tar.bz2", Blob [entry_key]);
    (lit "_packed_files.tar.bz2", Blob [entry_notes]) ].

Definition secrets_path : Path := child data_root (lit "secrets").

Definition projects_kids : tree :=
  [ (lit "b", Dir [ (lit "y.txt", File true [2]) ]);
    (lit "a", Dir [ (lit "x.txt", File true [1]) ]) ].

(** ** Further vocabulary *)

(** The file name of the [k]-th candidate of [_get_name]. *)
Definition candidate_name (basename : str) (k : N) : str :=
  if k =? 0 then basename ++ lit ".tar.bz2"
  else basename ++ lit "-" ++ str_of_int k ++ lit ".tar.bz2".

(** The current directory, [Path('.')]. *)
Definition cwd : Path := mkPath false [].

(** [n'] sits at the relative path [ps] below [n], and is come to through
    directories that can be listed. *)
Inductive at_path : node → list str → node → Prop :=
| at_here n : at_path n [] n
| at_below es p x ps n' :
    (p, x) ∈ es → at_path x ps n' → at_path (Dir es) (p :: ps) n'.

(** The entry that [build_tree] writes for the file at [ps] below [dirpath]. *)
Definition archived (rootdir dirpath : Path) (n : node) (e : entry) : Prop :=
  ∃ ps data rel,
    ps ≠ [] ∧ at_path n ps (File true data) ∧
    source e = extend dirpath ps ∧ content e = data ∧
    relative_to (source e) rootdir = Ok rel ∧ arcname e = Path_str rel.

(** The entry that [pack_files] writes for the child [n] of [rootdir], when
    it is a readable file. *)
Definition loose_entry (fs : tree) (rootdir : Path) (n : str) : option entry :=
  match lookup_name n fs with
  | Some (File true data) => Some (mkEntry n (child rootdir n) data)
  | _ => None
  end.

(** The names that [explore] gives in the build area. *)
Definition blob_name (f : str) : Prop :=
  ∃ basename k,
    (basename = lit "_packed_files" ∨ ∃ name, sanitize name = Ok basename) ∧
    f = candidate_name basename k.

Definition dir_name (d : str) : Prop := ∃ name, sanitize name = Ok d.

(** A build directory grown one exclusive creation at a time. *)
Inductive wf_listing : listing → Prop :=
| wf_empty : wf_listing []
| wf_add_blob bl f es :
    wf_listing bl → f ∉ names bl → blob_name f → wf_listing (bl ++ [(f, Blob es)])
| wf_add_dir bl d sub :
    wf_listing bl → d ∉ names bl → dir_name d → wf_listing sub →
    wf_listing (bl ++ [(d, BDir sub)]).

(** The exceptions of the model of [explore]: those that a creation in the
    build area can raise, and the one of a directory that cannot be
    listed. *)
Definition creation_exn (err : option exn) : Prop :=
  err = None ∨ err = Some FileExistsError ∨ err = Some IndexError ∨
  err = Some PermissionError.

(** [P] holds of a build directory and of all the directories below it. *)
Inductive all_levels (P : listing → Prop) : listing → Prop :=
| all_levels_intro bl :
    P bl → (∀ d sub, (d, BDir sub) ∈ bl → all_levels P sub) → all_levels P bl.

(** A name that the storage backend accepts. *)
Definition dropbox_safe (f : str) : Prop :=
  f ≠ [] ∧ Forall (fun c => (c ∉ DROPBOX_FORBIDDEN) ∧ c <= 65535) f ∧
  last f ≠ Some 46 ∧ last f ≠ Some 32.

(** A source tree in which the names in each directory are distinct. *)
Inductive distinct_tree : node → Prop :=
| distinct_file rd dt : distinct_tree (File rd dt)
| distinct_dir l es :
    NoDup (map fst es) → (∀ n x, (n, x) ∈ es → distinct_tree x) →
    distinct_tree (Directory l es).

(** How deep directories nest in a build directory: 0 when it holds blobs
    only. *)
Fixpoint bnode_depth (b : bnode) : nat :=
  match b with
  | Blob _ => 0%nat
  | BDir bl =>
      S ((fix go (l : listing) : nat :=
            match l with
            | [] => 0%nat
            | (_, x) :: r => (bnode_depth x `max` go r)%nat
            end) bl)
  end.

Definition listing_depth (bl : listing) : nat := pred (bnode_depth (BDir bl)).

(** The blobs of a build directory, each with its path from the top: the
    blobs of the directory in order of creation, then those of its
    subdirectories. *)
Fixpoint bnode_blobs (here : list str) (b : bnode) : list (list str * list entry) :=
  match b with
  | Blob _ => []
  | BDir bl =>
      (fix files (l : listing) : list (list str * list entry) :=
         match l with
         | [] => []
         | (f, x) :: r =>
             match x with
             | Blob es => (here ++ [f], es) :: files r
             | BDir _ => files r
             end
         end) bl
      ++
      (fix dirs (l : listing) : list (list str * list entry) :=
         match l with
         | [] => []
         | (d, x) :: r =>
             match x with
             | Blob _ => dirs r
             | BDir _ => bnode_blobs (here ++ [d]) x ++ dirs r
             end
         end) bl
  end.

Definition listing_blobs (bl : listing) : list (list str * list entry) :=
  bnode_blobs [] (BDir bl).

(** The blobs and the subdirectories of one build directory, as
    [bnode_blobs] lists them. *)
Fixpoint blobs_here (here : list str) (l : listing) : list (list str * list entry) :=
  match l with
  | [] => []
  | (f, x) :: r =>
      match x with
      | Blob es => (here ++ [f], es) :: blobs_here here r
      | BDir _ => blobs_here here r
      end
  end.

Fixpoint blobs_below (here : list str) (l : listing) : list (list str * list entry) :=
  match l with
  | [] => []
  | (d, x) :: r =>
      match x with
      | Blob _ => blobs_below here r
      | BDir _ => bnode_blobs (here ++ [d]) x ++ blobs_below here r
      end
  end.

(** The files below a directory of the file system, each with its path from
    that directory, in the order of [os.walk]: the files of a directory,
    then its subdirectories. *)
Fixpoint node_files (here : list str) (n : node) : list (list str * bool * bytes) :=
  match n with
  | File _ _ => []
  | Directory false _ => []
  | Directory true es =>
      (fix files (l : tree) : list (list str * bool * bytes) :=
         match l with
         | [] => []
         | (f, x) :: r =>
             match x with
             | File readable data => (here ++ [f], readable, data) :: files r
             | Directory _ _ => files r
             end
         end) es
      ++
      (fix dirs (l : tree) : list (list str * bool * bytes) :=
         match l with
         | [] => []
         | (d, x) :: r =>
             match x with
             | File _ _ => dirs r
             | Directory _ _ => node_files (here ++ [d]) x ++ dirs r
             end
         end) es
  end.

Fixpoint files_here (here : list str) (l : tree) : list (list str * bool * bytes) :=
  match l with
  | [] => []
  | (f, x) :: r =>
      match x with
      | File readable data => (here ++ [f], readable, data) :: files_here here r
      | Directory _ _ => files_here here r
      end
  end.

Fixpoint files_below (here : list str) (l : tree) : list (list str * bool * bytes) :=
  match l with
  | [] => []
  | (d, x) :: r =>
      match x with
      | File _ _ => files_below here r
      | Directory _ _ => node_files (here ++ [d]) x ++ files_below here r
      end
  end.

(** The line of the report for one file of the build area: its path
    relative to the build directory, its size, its status against the
    mirror. *)
Definition stat_line (machine : node) (syncdir : Path) (f : list str * bool * bytes)
    : result (Path * nat * status) :=
  st ← file_status f.1.2 f.2 (fs_lookup machine (extend syncdir f.1.1));
  Ok (mkPath false f.1.1, length f.2, st).

(** The descent of [stat_walk] into the subdirectories. *)
Fixpoint stat_subdirs (machine : node) (builddir syncdir dirpath : Path) (l : tree)
    : result (list (Path * nat * status)) :=
  match l with
  | [] => Ok []
  | (d, sub) :: r =>
      match sub with
      | File _ _ => stat_subdirs machine builddir syncdir dirpath r
      | Directory _ _ =>
          x ← stat_walk machine builddir syncdir (child dirpath d) sub;
          y ← stat_subdirs machine builddir syncdir dirpath r;
          Ok (x ++ y)
      end
  end.

(** The entries of a build directory as [realise] puts them on the disk,
    in order of creation. *)
Definition realise_all (tar_bz2 : list entry → bytes) (scandir : tree → tree)
    (bl : listing) : tree :=
  map (fun c => (c.1, realise tar_bz2 scandir c.2)) bl.

(** The file system lists what is in a directory, in an order of its own. *)
Definition lists_all (scandir : tree → tree) : Prop := ∀ t, scandir t ≡ₚ t.

(** A blob as a file of the build area: readable, with the bytes of its
    tar. *)
Definition on_disk (tar_bz2 : list entry → bytes) (blob : list str * list entry)
    : list str * bool * bytes :=
  (blob.1, true, tar_bz2 blob.2).

(** Two places of which neither is the other or above it. *)
Definition apart (ps qs : list str) : Prop := ¬ ps `prefix_of` qs ∧ ¬ qs `prefix_of` ps.

(** What is found at the path of a blob in the mirror. *)
Definition mirror_of (machine : node) (syncdir : Path) (blob : list str * list entry)
    : option node :=
  fs_lookup machine (extend syncdir blob.1).

(** The same machine with a mirror of the scenario's build area in [/sync],
    each blob stored as [raw_tar] writes it. *)
Definition machine1 : node :=
  Dir [ (lit "data", Dir data_fs);
        (lit "sync",
          Dir [ (lit "other.tar.bz2", File true [3]);
                (lit "projects",
                  Dir [ (lit "a.tar.bz2", File true [1]);
                        (lit "b.tar.bz2", File true [2]) ]);
                (lit "secrets.tar.bz2", File true [5]);
                (lit "_packed_files.tar.bz2", File true [4]) ]) ].

(** The same, with a directory where the mirror should hold a blob. *)
Definition machine_dir : node :=
  Dir [ (lit "data", Dir data_fs);
        (lit "sync", Dir [ (lit "other.tar.bz2", Dir []) ]) ].

Definition config1 : config := config0 [] [ (lit "projects", YInt 1) ].

Definition validated1 : validated :=
  mkValidated data_root build_root sync_root ∅ projects_levels.

(** The file system that the build leaves on that machine, when directories
    list their newest entry first. *)
Definition built1 : node :=
  match build raw_tar newest_first machine1 validated1 with
  | (_, Ok (built, _)) => built
  | (_, Raise _) => machine1
  end.

(** The file system that the build leaves on the machine without mirror,
    when directories list in order of creation. *)
Definition built0 : node :=
  match build raw_tar creation_order machine0 validated1 with
  | (_, Ok (built, _)) => built
  | (_, Raise _) => machine0
  end.
(** * Properties *)

(** ** The sanitizer on sample names *)

Example sanitize_slash : sanitize (lit "a/b") = Ok (lit "a%2Fb").
Proof. vm_compute. reflexivity. Qed.

Example sanitize_dot : sanitize (lit "a.") = Ok (lit "a%2E").
Proof. vm_compute. reflexivity. Qed.

Example sanitize_astral : sanitize [0x1F600] = Ok (lit "%%1F600").
Proof. vm_compute. reflexivity. Qed.

Example sanitize_empty : sanitize [] = Raise IndexError.
Proof. vm_compute. reflexivity. Qed.

(** ** Digits *)

Lemma upper_hex_digit d : d < 16 → upper_char (hex_digit d) = upper_digit d.
Proof.
  intros Hd. unfold upper_char, hex_digit, upper_digit.
  destruct (N.ltb_spec d 10).
  - replace ((97 <=? 48 + d) && (48 + d <=? 122)) with false; [done|].
    symmetry. apply andb_false_iff. left. apply N.leb_gt. lia.
  - replace ((97 <=? 87 + d) && (87 + d <=? 122)) with true; [lia|].
    symmetry. apply andb_true_iff. split; apply N.leb_le; lia.
Qed.

Lemma upper_digit_val d : d < 16 → digit_val (upper_digit d) = d.
Proof.
  intros Hd. unfold digit_val, upper_digit.
  destruct (N.ltb_spec d 10).
  - destruct (N.ltb_spec (48 + d) 58); lia.
  - destruct (N.ltb_spec (55 + d) 58); lia.
Qed.

Lemma upper_digit_hex d : d < 16 → is_upper_hex (upper_digit d).
Proof.
  intros Hd. unfold is_upper_hex, upper_digit.
  destruct (N.ltb_spec d 10); lia.
Qed.

Lemma mod16_lt n : n mod 16 < 16.
Proof. apply N.mod_lt. lia. Qed.

Lemma hex_rev_upper f n :
  Forall is_upper_hex (upper (hex_rev f n)).
Proof.
  revert n. induction f as [|f IH]; intros n; simpl; [constructor|].
  constructor.
  - rewrite upper_hex_digit by apply mod16_lt. apply upper_digit_hex, mod16_lt.
  - destruct (n / 16 =? 0); [constructor | apply IH].
Qed.

Lemma hex_rev_value f n :
  n < 16 ^ N.of_nat f →
  fold_right (fun c acc => 16 * acc + digit_val c) 0 (upper (hex_rev f n)) = n.
Proof.
  revert n. induction f as [|f IH]; intros n Hn.
  - simpl in *. lia.
  - cbn [hex_rev upper map fold_right].
    rewrite upper_hex_digit, upper_digit_val by apply mod16_lt.
    pose proof (N.div_mod n 16 ltac:(lia)) as Hdm.
    destruct (N.eqb_spec (n / 16) 0) as [Hz|Hz].
    + simpl. lia.
    + fold (upper (hex_rev f (n / 16))). rewrite IH; [lia|].
      apply N.Div0.div_lt_upper_bound.
      rewrite Nat2N.inj_succ, N.pow_succ_r' in Hn. lia.
Qed.

Lemma hex_rev_length_ge k f n :
  (k < f)%nat → 16 ^ N.of_nat k <= n → (k < length (hex_rev f n))%nat.
Proof.
  revert f n. induction k as [|k IH]; intros f n Hf Hn.
  - destruct f; [lia|]. simpl. lia.
  - destruct f as [|f]; [lia|]. simpl.
    rewrite Nat2N.inj_succ, N.pow_succ_r' in Hn.
    assert (16 ^ N.of_nat k <= n / 16) as Hq.
    { apply N.div_le_lower_bound; lia. }
    assert (0 < 16 ^ N.of_nat k) by (apply N.neq_0_lt_0, N.pow_nonzero; lia).
    destruct (N.eqb_spec (n / 16) 0); [lia|].
    specialize (IH f (n / 16)). simpl. lia.
Qed.

Lemma hex_rev_length_le k f n :
  n < 16 ^ N.of_nat (S k) → (length (hex_rev f n) <= S k)%nat.
Proof.
  revert f n. induction k as [|k IH]; intros f n Hn.
  - destruct f; simpl; [lia|].
    replace (n / 16) with 0; [simpl; lia|].
    symmetry. apply N.div_small. simpl in Hn. lia.
  - destruct f as [|f]; simpl; [lia|].
    destruct (N.eqb_spec (n / 16) 0); [simpl; lia|].
    assert (n / 16 < 16 ^ N.of_nat (S k)) as Hq.
    { apply N.Div0.div_lt_upper_bound.
      rewrite (Nat2N.inj_succ (S k)), N.pow_succ_r' in Hn. lia. }
    specialize (IH f (n / 16) Hq). simpl. lia.
Qed.

Lemma hex_fuel_enough n : n < 16 ^ N.of_nat (S (N.to_nat (N.log2 n))).
Proof.
  rewrite Nat2N.inj_succ, N2Nat.id.
  destruct (N.eq_dec n 0) as [->|Hn]; [simpl; lia|].
  apply N.lt_le_trans with (2 ^ N.succ (N.log2 n)).
  - apply N.log2_spec. lia.
  - apply N.pow_le_mono_l. lia.
Qed.

Lemma hex_fuel_above k n :
  16 ^ N.of_nat k <= n → (k < S (N.to_nat (N.log2 n)))%nat.
Proof.
  intros Hn.
  assert (N.of_nat k <= N.log2 n); [|lia].
  apply N.log2_le_mono in Hn.
  replace 16 with (2 ^ 4) in Hn by reflexivity.
  rewrite <- N.pow_mul_r, N.log2_pow2 in Hn; lia.
Qed.

Lemma in_hex_eq c : in_hex c = rev (hex_rev (S (N.to_nat (N.log2 c))) c).
Proof. reflexivity. Qed.

Lemma in_hex_length_ge k c :
  16 ^ N.of_nat k <= c → (k < length (in_hex c))%nat.
Proof.
  intros Hc. rewrite in_hex_eq, length_rev.
  apply hex_rev_length_ge; [by apply hex_fuel_above | done].
Qed.

Lemma in_hex_length_le k c :
  c < 16 ^ N.of_nat (S k) → (length (in_hex c) <= S k)%nat.
Proof. intros Hc. rewrite in_hex_eq, length_rev. by apply hex_rev_length_le. Qed.

Lemma in_hex_upper c : Forall is_upper_hex (upper (in_hex c)).
Proof.
  rewrite in_hex_eq. unfold upper. rewrite map_rev.
  apply Forall_rev, hex_rev_upper.
Qed.

Lemma unhex_in_hex c : unhex (upper (in_hex c)) = c.
Proof.
  rewrite in_hex_eq. unfold upper, unhex. rewrite map_rev.
  rewrite <- fold_left_rev_right, rev_involutive.
  apply (hex_rev_value _ c), hex_fuel_enough.
Qed.

Lemma encode_eq c :
  _encode c = repeat 37 (length (in_hex c) / 2) ++ upper (in_hex c).
Proof. reflexivity. Qed.

(** ** Shape of the escapes *)

Lemma must_escape_spec c :
  must_escape c = true ↔
  (c = 34 ∨ c = 42 ∨ c = 47 ∨ c = 58 ∨ c = 60 ∨ c = 62 ∨ c = 63 ∨ c = 92 ∨ c = 124)
  ∨ 65535 < c.
Proof.
  unfold must_escape, DROPBOX_FORBIDDEN.
  rewrite orb_true_iff, bool_decide_eq_true, N.ltb_lt.
  rewrite !elem_of_union, !elem_of_singleton. tauto.
Qed.

Lemma in_hex_length_forbidden c :
  c ∈ DROPBOX_FORBIDDEN ∨ c = 46 ∨ c = 32 → length (in_hex c) = 2%nat.
Proof.
  unfold DROPBOX_FORBIDDEN. rewrite !elem_of_union, !elem_of_singleton.
  intros Hc. repeat destruct Hc as [Hc|Hc]; subst c; reflexivity.
Qed.

Lemma in_hex_length_astral c :
  65535 < c → valid_char c → length (in_hex c) = 5%nat ∨ length (in_hex c) = 6%nat.
Proof.
  unfold valid_char. intros Hlo Hhi.
  pose proof (in_hex_length_ge 4 c) as H4.
  pose proof (in_hex_length_le 5 c) as H6.
  change (16 ^ N.of_nat 4) with 65536 in H4.
  change (16 ^ N.of_nat 6) with 16777216 in H6.
  lia.
Qed.

Lemma in_hex_length_big c : 65535 < c → (5 <= length (in_hex c))%nat.
Proof.
  intros Hlo. pose proof (in_hex_length_ge 4 c) as H4.
  change (16 ^ N.of_nat 4) with 65536 in H4. lia.
Qed.

(** Number of [%] signs in front of [h] digits. *)
Lemma encode_length c :
  length (_encode c) = (length (in_hex c) / 2 + length (in_hex c))%nat.
Proof. rewrite encode_eq, length_app, repeat_length. unfold upper. by rewrite length_map. Qed.

Lemma encode_length_escape c : must_escape c = true → (3 <= length (_encode c))%nat.
Proof.
  rewrite encode_length. intros [H|H]%must_escape_spec.
  - rewrite in_hex_length_forbidden; [simpl; lia|].
    left. unfold DROPBOX_FORBIDDEN. rewrite !elem_of_union, !elem_of_singleton. tauto.
  - apply in_hex_length_big in H.
    pose proof (Nat.div_mod (length (in_hex c)) 2). lia.
Qed.

Lemma str_prefix_length x s : str_prefix x s = true → (length x <= length s)%nat.
Proof.
  revert s. induction x as [|a x IH]; intros [|b s]; simpl; try lia; try done.
  intros [_ H]%andb_true_iff. apply IH in H. lia.
Qed.

Lemma str_in_length x s : str_in x s = true → (length x <= length s)%nat.
Proof.
  induction s as [|b s IH]; simpl.
  - rewrite orb_false_r. apply str_prefix_length.
  - intros [H|H]%orb_true_iff.
    + apply str_prefix_length in H. simpl in H. lia.
    + apply IH in H. lia.
Qed.

Lemma str_in_dot_space c : str_in [c] (lit ". ") = (c =? 46) || (c =? 32).
Proof.
  change (lit ". ") with [46; 32]. simpl.
  rewrite !andb_true_r, !orb_false_r. reflexivity.
Qed.

(** ** [sanitize] in terms of [esc] *)

Lemma escape_pass_app s1 s2 : escape_pass (s1 ++ s2) = escape_pass s1 ++ escape_pass s2.
Proof. apply map_app. Qed.

Lemma escape_pass_length s : length (escape_pass s) = length s.
Proof. apply length_map. Qed.

Lemma concat_snoc {A} (l : list (list A)) (x : list A) :
  concat (l ++ [x]) = concat l ++ x.
Proof. rewrite concat_app. simpl. by rewrite app_nil_r. Qed.

Lemma sanitize_snoc s c :
  sanitize (s ++ [c]) = Ok (concat (escape_pass s) ++ esc true c).
Proof.
  unfold sanitize. rewrite escape_pass_app. cbn [escape_pass map].
  rewrite last_snoc, length_app, Nat.add_1_r. cbn [pred length].
  unfold esc, escaped.
  destruct (must_escape c) eqn:Hesc; cbn [orb].
  - destruct (str_in (_encode c) (lit ". ")) eqn:Hin.
    + apply str_in_length in Hin. apply encode_length_escape in Hesc.
      change (length (lit ". ")) with 2%nat in Hin. lia.
    + by rewrite (concat_snoc (A:=char)).
  - rewrite str_in_dot_space. cbn [andb].
    destruct ((c =? 46) || (c =? 32)).
    + cbn [ord mbind result_bind].
      rewrite insert_app_r_alt by lia.
      rewrite Nat.sub_diag. cbn [insert list_insert]. by rewrite (concat_snoc (A:=char)).
    + by rewrite (concat_snoc (A:=char)).
Qed.

Lemma san_snoc s c : san (s ++ [c]) = concat (escape_pass s) ++ esc true c.
Proof.
  induction s as [|a s IH]; simpl.
  - by rewrite app_nil_r.
  - rewrite IH, <- app_assoc. f_equal.
    unfold esc, escaped. destruct s; simpl; by rewrite orb_false_r.
Qed.

Lemma sanitize_san s : s ≠ [] → sanitize s = Ok (san s).
Proof.
  intros Hs. destruct (exists_last Hs) as (s' & c & ->).
  by rewrite sanitize_snoc, san_snoc.
Qed.

Lemma sanitize_ok s t : sanitize s = Ok t → s ≠ [] ∧ t = san s.
Proof.
  destruct s as [|c s]; [done|].
  rewrite sanitize_san by done. intros [= <-]. done.
Qed.

(** ** What an escape looks like *)

Lemma escaped_spec final c :
  escaped final c = true ↔
  (c ∈ DROPBOX_FORBIDDEN ∨ 65535 < c) ∨ (final = true ∧ (c = 46 ∨ c = 32)).
Proof.
  unfold escaped, must_escape.
  rewrite !orb_true_iff, andb_true_iff, orb_true_iff, bool_decide_eq_true.
  rewrite N.ltb_lt, !N.eqb_eq. tauto.
Qed.

Lemma in_hex_nonempty c : in_hex c ≠ [].
Proof.
  rewrite in_hex_eq. cbn [hex_rev]. intros H.
  apply (f_equal length) in H. rewrite length_rev in H. simpl in H. lia.
Qed.

Lemma upper_hex_not_percent c : is_upper_hex c → c ≠ 37.
Proof. unfold is_upper_hex. lia. Qed.

Lemma upper_hex_not_escaped c : is_upper_hex c → must_escape c = false.
Proof.
  intros Hc. apply not_true_is_false. rewrite must_escape_spec.
  unfold is_upper_hex in Hc. lia.
Qed.

Lemma encode_shape final c :
  valid_char c → escaped final c = true →
  escape_shape (length (in_hex c) / 2) (length (in_hex c)).
Proof.
  intros Hv [[H|H]|[_ H]]%escaped_spec.
  - rewrite in_hex_length_forbidden by tauto. left. done.
  - destruct (in_hex_length_astral c H Hv) as [-> | ->]; [right; left|right; right]; done.
  - rewrite in_hex_length_forbidden by tauto. left. done.
Qed.

Lemma percent_run_unique k1 k2 (h1 h2 t1 t2 : str) :
  h1 ≠ [] → h2 ≠ [] → Forall is_upper_hex h1 → Forall is_upper_hex h2 →
  repeat 37 k1 ++ h1 ++ t1 = repeat 37 k2 ++ h2 ++ t2 → k1 = k2.
Proof.
  intros N1 N2 F1 F2. revert k2.
  induction k1 as [|k1 IH]; intros [|k2] Heq; simpl in Heq.
  - done.
  - destruct h1 as [|a h1]; [done|]. simpl in Heq. injection Heq as -> _.
    inversion F1 as [|?? Ha _]. by apply upper_hex_not_percent in Ha.
  - destruct h2 as [|a h2]; [done|]. simpl in Heq. injection Heq as <- _.
    inversion F2 as [|?? Ha _]. by apply upper_hex_not_percent in Ha.
  - injection Heq as Heq. f_equal. by apply IH.
Qed.

Lemma escape_shape_fun k h1 h2 : escape_shape k h1 → escape_shape k h2 → h1 = h2.
Proof. unfold escape_shape. lia. Qed.

(** Escapes form a prefix code: what follows does not matter. *)
Lemma encode_prefix_code f1 f2 c1 c2 (t1 t2 : str) :
  valid_char c1 → valid_char c2 →
  escaped f1 c1 = true → escaped f2 c2 = true →
  _encode c1 ++ t1 = _encode c2 ++ t2 → c1 = c2 ∧ t1 = t2.
Proof.
  intros V1 V2 E1 E2 Heq. rewrite !encode_eq, <- !app_assoc in Heq.
  pose proof (encode_shape _ _ V1 E1) as S1.
  pose proof (encode_shape _ _ V2 E2) as S2.
  assert (upper (in_hex c1) ≠ []) as N1.
  { unfold upper. intros H%fmap_nil_inv. by apply in_hex_nonempty in H. }
  assert (upper (in_hex c2) ≠ []) as N2.
  { unfold upper. intros H%fmap_nil_inv. by apply in_hex_nonempty in H. }
  pose proof (percent_run_unique _ _ _ _ _ _ N1 N2 (in_hex_upper c1) (in_hex_upper c2) Heq) as Hk.
  rewrite Hk in Heq, S1. apply app_inv_head in Heq.
  pose proof (escape_shape_fun _ _ _ S1 S2) as Hlen.
  apply app_inj_1 in Heq as [Hh Ht]; [|unfold upper; by rewrite !length_map].
  split; [|done].
  rewrite <- (unhex_in_hex c1), <- (unhex_in_hex c2). by f_equal.
Qed.

Lemma esc_head final c t :
  valid_char c → escaped final c = true → ∃ r, _encode c ++ t = 37 :: r.
Proof.
  intros Hv He. pose proof (encode_shape _ _ Hv He) as Hs.
  rewrite encode_eq. destruct Hs as [[-> _]|[[-> _]|[-> _]]]; simpl; eauto.
Qed.

Lemma esc_nonempty final c : esc final c ≠ [].
Proof.
  unfold esc. destruct (escaped final c); [|done].
  rewrite encode_eq. intros [_ H]%app_eq_nil.
  unfold upper in H. apply fmap_nil_inv in H. by apply in_hex_nonempty in H.
Qed.

Lemma san_nonempty s : s ≠ [] → san s ≠ [].
Proof.
  destruct s as [|c r]; [done|]. simpl. intros _ [H _]%app_eq_nil.
  by apply esc_nonempty in H.
Qed.

(** One step of decoding: the first piece determines the first character. *)
Lemma esc_prefix_code f1 f2 c1 c2 (t1 t2 : str) :
  valid_char c1 → valid_char c2 → c1 ≠ 37 → c2 ≠ 37 →
  esc f1 c1 ++ t1 = esc f2 c2 ++ t2 →
  c1 = c2 ∧ t1 = t2.
Proof.
  intros V1 V2 P1 P2. unfold esc.
  destruct (escaped f1 c1) eqn:E1, (escaped f2 c2) eqn:E2; intros Heq.
  - by apply (encode_prefix_code f1 f2).
  - destruct (esc_head f1 c1 t1 V1 E1) as [r Hr]. rewrite Hr in Heq.
    simpl in Heq. injection Heq as Heq _. done.
  - destruct (esc_head f2 c2 t2 V2 E2) as [r Hr]. rewrite Hr in Heq.
    simpl in Heq. injection Heq as Heq _. done.
  - simpl in Heq. by injection Heq as -> ->.
Qed.

Lemma san_injective s1 s2 :
  valid_str s1 → valid_str s2 → percent_free s1 → percent_free s2 →
  san s1 = san s2 → s1 = s2.
Proof.
  revert s2. induction s1 as [|c1 r1 IH]; intros [|c2 r2] V1 V2 P1 P2 Heq.
  - done.
  - symmetry in Heq. by apply san_nonempty in Heq.
  - by apply san_nonempty in Heq.
  - inversion V1; inversion V2; inversion P1; inversion P2; subst.
    cbn [san] in Heq. apply esc_prefix_code in Heq as [-> Heq]; [|done..].
    f_equal. by apply IH.
Qed.

(** ** Characters of a sanitized name *)

Lemma encode_chars c : Forall (fun x => x = 37 ∨ is_upper_hex x) (_encode c).
Proof.
  rewrite encode_eq. apply Forall_app. split.
  - apply Forall_forall. intros x Hx%list_elem_of_In%repeat_spec. by left.
  - eapply Forall_impl; [apply in_hex_upper|]. intros x Hx. by right.
Qed.

Lemma percent_not_escaped : must_escape 37 = false.
Proof. reflexivity. Qed.

Lemma esc_chars final c : Forall (fun x => must_escape x = false) (esc final c).
Proof.
  unfold esc. destruct (escaped final c) eqn:He.
  - eapply Forall_impl; [apply encode_chars|].
    intros x [->|Hx]; [reflexivity | by apply upper_hex_not_escaped].
  - constructor; [|constructor].
    unfold escaped in He. by apply orb_false_iff in He as [He _].
Qed.

Lemma san_chars s : Forall (fun x => must_escape x = false) (san s).
Proof.
  induction s as [|c r IH]; simpl; [constructor|].
  apply Forall_app. split; [apply esc_chars | done].
Qed.

Lemma encode_last c : ∃ x, last (_encode c) = Some x ∧ is_upper_hex x.
Proof.
  rewrite encode_eq.
  pose proof (in_hex_upper c) as Hf.
  destruct (exists_last (l:=upper (in_hex c))) as (h & x & Hx).
  { unfold upper. intros H%fmap_nil_inv. by apply in_hex_nonempty in H. }
  rewrite Hx in Hf |- *. exists x. rewrite app_assoc, last_snoc. split; [done|].
  apply Forall_app in Hf as [_ Hf]. by inversion Hf.
Qed.

Lemma esc_final_last c :
  ∃ x, last (esc true c) = Some x ∧ x ≠ 46 ∧ x ≠ 32.
Proof.
  unfold esc. destruct (escaped true c) eqn:He.
  - destruct (encode_last c) as (x & Hx & Hh). exists x. split; [done|].
    unfold is_upper_hex in Hh. lia.
  - exists c. split; [done|].
    unfold escaped in He. apply orb_false_iff in He as [_ He]. cbn [andb] in He.
    apply orb_false_iff in He as [H1%N.eqb_neq H2%N.eqb_neq]. done.
Qed.

Lemma last_app_nonempty {A} (l1 l2 : list A) : l2 ≠ [] → last (l1 ++ l2) = last l2.
Proof.
  intros H. destruct (exists_last H) as (l & x & ->).
  by rewrite app_assoc, !last_snoc.
Qed.

Lemma san_last s c :
  ∃ x, last (san (s ++ [c])) = Some x ∧ x ≠ 46 ∧ x ≠ 32.
Proof.
  rewrite san_snoc, last_app_nonempty by apply esc_nonempty.
  apply esc_final_last.
Qed.

(** A name without characters to escape is a fixed point of [sanitize]. *)
Lemma escape_pass_id s :
  Forall (fun x => must_escape x = false) s → concat (escape_pass s) = s.
Proof.
  induction 1 as [|c r Hc _ IH]; [done|].
  cbn [escape_pass map concat]. rewrite Hc. simpl. f_equal. apply IH.
Qed.

Lemma sanitize_fixed s c :
  Forall (fun x => must_escape x = false) (s ++ [c]) → c ≠ 46 → c ≠ 32 →
  sanitize (s ++ [c]) = Ok (s ++ [c]).
Proof.
  intros [Hs Hc]%Forall_app H1 H2. inversion Hc as [|?? Hc' _]; subst.
  rewrite sanitize_snoc, escape_pass_id by done.
  unfold esc, escaped. rewrite Hc'.
  apply N.eqb_neq in H1, H2. by rewrite H1, H2.
Qed.

(** ** The claims on the sanitizer *)

(** C5, as stated, fails on a name ending in a dot: the dot is neither
    forbidden nor outside the basic plane, and yet [sanitize] replaces it, so
    the output is not the per-character pass alone. *)
Lemma sanitize_changes_final_dot :
  must_escape 46 = false ∧
  sanitize (lit "a.") = Ok (lit "a%2E") ∧
  sanitize (lit "a.") ≠ Ok (concat (escape_pass (lit "a."))).
Proof. vm_compute. repeat split; discriminate. Qed.

(** C5 (amended): on every non-empty name [sanitize] returns [san name],
    the concatenation of one piece per character; the piece of a character
    is its escape when the character is forbidden, or above 0xFFFF, or is a
    final dot or space, and the character itself otherwise. An escape is
    [h/2] percent signs followed by the [h] upper-case hex digits of the
    code point. No character of the output is forbidden or above 0xFFFF. *)
Theorem sanitize_escapes (name : str) :
  name ≠ [] →
  ∃ t, sanitize name = Ok t ∧ t = san name ∧
    Forall (fun x => (x ∉ DROPBOX_FORBIDDEN) ∧ x <= 65535) t ∧
    ∀ final c,
      Forall is_upper_hex (upper (in_hex c)) ∧ unhex (upper (in_hex c)) = c ∧
      esc final c =
        if decide ((c ∈ DROPBOX_FORBIDDEN ∨ 65535 < c)
                   ∨ (final = true ∧ (c = 46 ∨ c = 32)))
        then repeat 37 (length (in_hex c) / 2) ++ upper (in_hex c)
        else [c].
Proof.
  intros Hne. exists (san name). split; [by apply sanitize_san|]. split; [done|].
  split.
  - eapply Forall_impl; [apply san_chars|]. intros x Hx. cbn beta in Hx.
    unfold must_escape in Hx. apply orb_false_iff in Hx as [H1 H2].
    apply bool_decide_eq_false in H1. apply N.ltb_ge in H2. done.
  - intros final c. split; [apply in_hex_upper|]. split; [apply unhex_in_hex|].
    unfold esc. destruct (escaped final c) eqn:He.
    + apply escaped_spec in He. by rewrite decide_True.
    + rewrite decide_False; [done|]. rewrite <- escaped_spec. congruence.
Qed.

Lemma sanitize_escapes_witness :
  ∃ t, sanitize (lit "a/b.") = Ok t ∧ t = san (lit "a/b.") ∧
    Forall (fun x => (x ∉ DROPBOX_FORBIDDEN) ∧ x <= 65535) t ∧
    ∀ final c,
      Forall is_upper_hex (upper (in_hex c)) ∧ unhex (upper (in_hex c)) = c ∧
      esc final c =
        if decide ((c ∈ DROPBOX_FORBIDDEN ∨ 65535 < c)
                   ∨ (final = true ∧ (c = 46 ∨ c = 32)))
        then repeat 37 (length (in_hex c) / 2) ++ upper (in_hex c)
        else [c].
Proof. apply (sanitize_escapes (lit "a/b.")). discriminate. Defined.

(** C7, as stated, fails: a slash and its own escape have the same
    sanitized name. *)
Lemma sanitize_not_injective :
  lit "/" ≠ lit "%2F" ∧ sanitize (lit "/") = sanitize (lit "%2F").
Proof. split; [discriminate | vm_compute; reflexivity]. Qed.

(** C7 (amended): [sanitize] is injective on names of valid code points
    that contain no percent sign. *)
Theorem sanitize_injective_percent_free (s1 s2 : str) (t : str) :
  valid_str s1 → valid_str s2 → percent_free s1 → percent_free s2 →
  sanitize s1 = Ok t → sanitize s2 = Ok t → s1 = s2.
Proof.
  intros V1 V2 P1 P2 [_ ->]%sanitize_ok [_ H]%sanitize_ok.
  by apply san_injective.
Qed.

Lemma sanitize_injective_percent_free_witness : lit "a:b" = lit "a:b".
Proof.
  apply (sanitize_injective_percent_free (lit "a:b") (lit "a:b") (lit "a%3Ab")).
  - repeat constructor; unfold valid_char; vm_compute; discriminate.
  - repeat constructor; unfold valid_char; vm_compute; discriminate.
  - repeat constructor; discriminate.
  - repeat constructor; discriminate.
  - vm_compute; reflexivity.
  - vm_compute; reflexivity.
Defined.

(** C9: a sanitized name never ends in a dot or a space; when the name left
    by the per-character pass ends in a dot or a space, the result is that
    name with its final character replaced by its escape. *)
Theorem sanitize_trailing (name t : str) :
  sanitize name = Ok t →
  (last t ≠ Some 46 ∧ last t ≠ Some 32) ∧
  (∀ c, last (concat (escape_pass name)) = Some c → c = 46 ∨ c = 32 →
        t = removelast (concat (escape_pass name)) ++ _encode c) ∧
  _encode 46 = lit "%2E" ∧ _encode 32 = lit "%20".
Proof.
  intros [Hne ->]%sanitize_ok.
  destruct (exists_last Hne) as (s & c0 & ->).
  split; [|split; [|split; reflexivity]].
  - destruct (san_last s c0) as (x & -> & H1 & H2). split; congruence.
  - intros c Hlast Hc. rewrite san_snoc.
    rewrite escape_pass_app in Hlast. cbn [escape_pass map] in Hlast.
    rewrite (concat_snoc (A:=char)) in Hlast.
    destruct (must_escape c0) eqn:He.
    + rewrite last_app_nonempty in Hlast.
      * destruct (encode_last c0) as (x & Hx & Hh). rewrite Hx in Hlast.
        injection Hlast as ->. unfold is_upper_hex in Hh. lia.
      * intros H. pose proof (encode_length_escape c0 He) as Hl.
        rewrite H in Hl. simpl in Hl. lia.
    + rewrite last_snoc in Hlast. injection Hlast as ->.
      rewrite escape_pass_app. cbn [escape_pass map]. rewrite He.
      rewrite (concat_snoc (A:=char)), removelast_last. f_equal. unfold esc.
      replace (escaped true c) with true; [done|].
      symmetry. apply escaped_spec. tauto.
Qed.

Lemma sanitize_trailing_witness :
  (last (lit "a%2E") ≠ Some 46 ∧ last (lit "a%2E") ≠ Some 32) ∧
  (∀ c, last (concat (escape_pass (lit "a."))) = Some c → c = 46 ∨ c = 32 →
        lit "a%2E" = removelast (concat (escape_pass (lit "a."))) ++ _encode c) ∧
  _encode 46 = lit "%2E" ∧ _encode 32 = lit "%20".
Proof. apply (sanitize_trailing (lit "a.") (lit "a%2E")). vm_compute; reflexivity. Defined.

(** C10: sanitizing a sanitized name changes nothing. *)
Theorem sanitize_idempotent (s : str) :
  s ≠ [] → ∃ t, sanitize s = Ok t ∧ sanitize t = Ok t.
Proof.
  intros Hne. exists (san s). split; [by apply sanitize_san|].
  destruct (exists_last Hne) as (s' & c & ->).
  destruct (san_last s' c) as (x & Hx & H1 & H2).
  pose proof (san_chars (s' ++ [c])) as Hch.
  destruct (exists_last (san_nonempty (s' ++ [c]) Hne)) as (u & y & Hu).
  rewrite Hu in Hx, Hch |- *. rewrite last_snoc in Hx. injection Hx as ->.
  by apply sanitize_fixed.
Qed.

Lemma sanitize_idempotent_witness :
  ∃ t, sanitize (lit "a/b. ") = Ok t ∧ sanitize t = Ok t.
Proof. apply (sanitize_idempotent (lit "a/b. ")). discriminate. Defined.


(** ** Content comparison *)

Lemma take_nil_inv {A} (n : nat) (l : list A) : (0 < n)%nat → take n l = [] → l = [].
Proof. destruct n; [lia|]. by destruct l. Qed.

Lemma compare_loop_correct chunk fuel fh1 fh2 :
  (0 < chunk)%nat → (length fh1 < fuel)%nat →
  compare_loop chunk fuel fh1 fh2 = Some (bool_decide (fh1 = fh2)).
Proof.
  intros Hc. revert fh1 fh2.
  induction fuel as [|fuel IH]; intros fh1 fh2 Hlen; [lia|].
  cbn [compare_loop read].
  destruct (decide (take chunk fh1 = take chunk fh2)) as [Ht|Ht].
  - rewrite bool_decide_eq_false_2 by tauto.
    destruct (take chunk fh1) as [|b data1] eqn:H1; cbn [is_nil].
    + apply take_nil_inv in H1; [|done]. symmetry in Ht.
      apply take_nil_inv in Ht; [|done]. subst. by rewrite bool_decide_eq_true_2.
    + rewrite IH.
      * f_equal. apply bool_decide_ext. split; [|by intros ->].
        intros Hd. rewrite <- (take_drop chunk fh1), <- (take_drop chunk fh2).
        by rewrite H1, <- Ht, Hd.
      * rewrite length_drop. destruct fh1; [by rewrite take_nil in H1|].
        simpl in *. lia.
  - rewrite bool_decide_eq_true_2 by done.
    rewrite bool_decide_eq_false_2; [done|]. by intros ->.
Qed.

Lemma CHUNK_pos : (0 < CHUNK)%nat.
Proof. unfold CHUNK. lia. Qed.

Lemma compare_content_correct c1 c2 :
  compare_content c1 c2 = Some (bool_decide (c1 = c2)).
Proof. apply compare_loop_correct; [apply CHUNK_pos | lia]. Qed.

(** ** Blob names *)

Lemma split_slash_no_slash s : Forall (fun c => c ≠ 47) s → split_slash s = [s].
Proof.
  induction 1 as [|c r Hc _ IH]; [done|].
  cbn [split_slash]. apply N.eqb_neq in Hc. by rewrite Hc, IH.
Qed.

Lemma Path_of_str_name s :
  Forall (fun c => c ≠ 47) s → s ≠ [] → s ≠ lit "." →
  Path_of_str s = mkPath false [s].
Proof.
  intros Hs Hne Hdot. unfold Path_of_str. rewrite split_slash_no_slash by done.
  f_equal.
  - destruct s as [|c r]; [done|]. inversion Hs; subst. by apply N.eqb_neq.
  - destruct s as [|a [|b r]]; [done..|]. inversion Hs; subst.
    replace (a =? 47) with false; [done|]. symmetry. by apply N.eqb_neq.
  - rewrite filter_cons_True by done. done.
Qed.

Lemma Path_of_str_anchor s :
  root (Path_of_str s) = false → dslash (Path_of_str s) = false.
Proof. destruct s as [|a [|b r]]; cbn; try done. by intros ->. Qed.

Lemma joinpath_name d s : d </> rel1 s = child d s.
Proof. reflexivity. Qed.

Lemma blob_name_path basename :
  Forall (fun c => c ≠ 47) basename →
  Path_of_str (basename ++ lit ".tar.bz2") = mkPath false [basename ++ lit ".tar.bz2"].
Proof.
  intros Hb. apply Path_of_str_name.
  - apply Forall_app. split; [done|]. repeat constructor; discriminate.
  - intros [_ H]%app_eq_nil. discriminate.
  - intros H. apply (f_equal length) in H. rewrite length_app in H.
    change (length (lit ".tar.bz2")) with 8%nat in H.
    change (length (lit ".")) with 1%nat in H. lia.
Qed.

Lemma relative_not_in_absolute_dir directory names f :
  root directory = true → mkPath false f ∉ iterdir directory names.
Proof.
  intros Hr Hin. unfold iterdir in Hin.
  apply list_elem_of_fmap in Hin as (n & Heq & _).
  unfold child in Heq. rewrite Hr in Heq. discriminate.
Qed.

(** In an absolute directory the loop of [_get_name] never runs: the
    candidate is a relative path, [iterdir] yields absolute ones. *)
Lemma get_name_absolute basename directory names :
  root directory = true → Forall (fun c => c ≠ 47) basename →
  _get_name basename directory names
    = Some (child directory (basename ++ lit ".tar.bz2")).
Proof.
  intros Hr Hb. unfold _get_name. cbn [_get_name_loop].
  rewrite blob_name_path by done.
  rewrite bool_decide_eq_false_2 by by apply relative_not_in_absolute_dir.
  reflexivity.
Qed.

(** ** The loop of [_get_name] ends *)

Lemma dec_rev_value f n : n < 10 ^ N.of_nat f → undec_rev (dec_rev f n) = n.
Proof.
  revert n. induction f as [|f IH]; intros n Hn.
  - simpl in *. lia.
  - cbn [dec_rev undec_rev fold_right].
    rewrite (N.add_comm 48), N.add_sub.
    pose proof (N.div_mod n 10 ltac:(lia)) as Hdm.
    destruct (N.eqb_spec (n / 10) 0) as [Hz|Hz].
    + simpl. lia.
    + fold (undec_rev (dec_rev f (n / 10))). rewrite IH; [lia|].
      apply N.Div0.div_lt_upper_bound.
      rewrite Nat2N.inj_succ, N.pow_succ_r' in Hn. lia.
Qed.

Lemma dec_fuel_enough n : n < 10 ^ N.of_nat (S (N.to_nat (N.log2 n))).
Proof.
  rewrite Nat2N.inj_succ, N2Nat.id.
  destruct (N.eq_dec n 0) as [->|Hn]; [simpl; lia|].
  apply N.lt_le_trans with (2 ^ N.succ (N.log2 n)).
  - apply N.log2_spec. lia.
  - apply N.pow_le_mono_l. lia.
Qed.

Lemma str_of_int_inj a b : str_of_int a = str_of_int b → a = b.
Proof.
  unfold str_of_int. intros H%(f_equal (@rev char)).
  rewrite !rev_involutive in H. apply (f_equal undec_rev) in H.
  by rewrite !dec_rev_value in H by apply dec_fuel_enough.
Qed.

Lemma split_slash_nonempty s : split_slash s ≠ [].
Proof.
  destruct s as [|c r]; [done|]. cbn [split_slash].
  destruct (c =? 47); [done|]. by destruct (split_slash r).
Qed.

(** A suffix without slash extends the last component. *)
Lemma split_slash_app (b s : str) :
  Forall (fun c => c ≠ 47) s →
  ∃ init lastb, split_slash b = init ++ [lastb] ∧
                split_slash (b ++ s) = init ++ [lastb ++ s].
Proof.
  intros Hs. induction b as [|c r (init & lastb & Hr & Hrs)].
  - exists [], []. split; [done|]. cbn [app]. by apply split_slash_no_slash.
  - cbn [app split_slash]. destruct (c =? 47).
    + exists ([] :: init), lastb. by rewrite Hr, Hrs.
    + rewrite Hr, Hrs. destruct init as [|w ws]; cbn [app].
      * by exists [], (c :: lastb).
      * by exists ((c :: w) :: ws), lastb.
Qed.

Lemma Path_of_str_suffix_inj (b s1 s2 : str) :
  Forall (fun c => c ≠ 47) s1 → Forall (fun c => c ≠ 47) s2 →
  (1 < length s1)%nat → (1 < length s2)%nat →
  Path_of_str (b ++ s1) = Path_of_str (b ++ s2) → s1 = s2.
Proof.
  intros H1 H2 L1 L2 Heq. apply (f_equal parts) in Heq.
  unfold Path_of_str in Heq. cbn [parts] in Heq.
  destruct (split_slash_app b s1 H1) as (init & lastb & Hb & E1).
  destruct (split_slash_app b s2 H2) as (init' & lastb' & Hb' & E2).
  rewrite Hb in Hb'. apply app_inj_tail in Hb' as [<- <-].
  rewrite E1, E2, !filter_app in Heq.
  assert (∀ s, (1 < length s)%nat →
               filter (fun w => w ≠ [] ∧ w ≠ lit ".") [lastb ++ s] = [lastb ++ s]) as Hkeep.
  { intros s Hl. rewrite filter_cons_True; [done|]. split.
    - intros [_ ->]%app_eq_nil. simpl in Hl. lia.
    - intros H%(f_equal length). rewrite length_app in H.
      change (length (lit ".")) with 1%nat in H. lia. }
  rewrite !Hkeep in Heq by done.
  apply app_inj_tail in Heq as [_ Heq]. by apply app_inv_head in Heq.
Qed.

Lemma str_of_int_digits n : Forall (fun c => c ≠ 47) (str_of_int n).
Proof.
  unfold str_of_int. apply Forall_rev.
  generalize (S (N.to_nat (N.log2 n))). revert n.
  intros n f. revert n. induction f as [|f IH]; intros n; cbn [dec_rev]; [constructor|].
  constructor; [generalize (n mod 10); intros; lia|].
  destruct (n / 10 =? 0); [constructor | apply IH].
Qed.

Lemma candidate_inj basename j k : candidate basename j = candidate basename k → j = k.
Proof.
  assert (∀ n, Forall (fun c => c ≠ 47) (lit "-" ++ str_of_int n ++ lit ".tar.bz2")) as Hnum.
  { intros n. apply Forall_app. split; [repeat constructor; discriminate|].
    apply Forall_app. split; [apply str_of_int_digits|].
    repeat constructor; discriminate. }
  assert (Forall (fun c => c ≠ 47) (lit ".tar.bz2")) as Hplain
    by (repeat constructor; discriminate).
  assert (∀ n, (1 < length (lit "-" ++ str_of_int n ++ lit ".tar.bz2"))%nat) as Lnum.
  { intros n. rewrite !length_app. change (length (lit ".tar.bz2")) with 8%nat. lia. }
  unfold candidate.
  destruct (N.eqb_spec j 0) as [->|Hj], (N.eqb_spec k 0) as [->|Hk]; intros Heq.
  - done.
  - apply Path_of_str_suffix_inj in Heq; [|done..| |apply Lnum].
    + apply (f_equal head) in Heq. discriminate Heq.
    + change (length (lit ".tar.bz2")) with 8%nat. lia.
  - apply Path_of_str_suffix_inj in Heq; [|done..|apply Lnum|].
    + apply (f_equal head) in Heq. discriminate Heq.
    + change (length (lit ".tar.bz2")) with 8%nat. lia.
  - apply Path_of_str_suffix_inj in Heq; [|done..].
    apply app_inv_head, app_inv_tail in Heq. by apply str_of_int_inj.
Qed.

Lemma get_name_loop_total basename children fuel num :
  (length children < fuel + N.to_nat num)%nat →
  (∀ k, k < num → candidate basename k ∈ children) →
  ∃ p, _get_name_loop fuel basename children (candidate basename num) (num + 1)
       = Some p.
Proof.
  revert num. induction fuel as [|fuel IH]; intros num Hlen Htried.
  - exfalso.
    pose (tried := map (fun i => candidate basename (N.of_nat i)) (seq 0 (N.to_nat num))).
    assert (NoDup tried) as Hnd.
    { apply NoDup_fmap_2_strong; [|apply NoDup_seq].
      intros i j _ _ H%candidate_inj. lia. }
    assert (tried ⊆ children) as Hsub.
    { intros p (i & -> & Hi%elem_of_seq)%list_elem_of_fmap. apply Htried. lia. }
    pose proof (submseteq_length _ _ (NoDup_submseteq _ _ Hnd Hsub)) as Hle.
    unfold tried in Hle. rewrite length_map, length_seq in Hle. lia.
  - cbn [_get_name_loop].
    destruct (decide (candidate basename num ∈ children)) as [Hin|Hin].
    + rewrite bool_decide_eq_true_2 by done.
      replace (Path_of_str (basename ++ lit "-" ++ str_of_int (num + 1) ++ lit ".tar.bz2"))
        with (candidate basename (num + 1)).
      * apply IH; [lia|]. intros k Hk.
        destruct (N.eq_dec k num) as [->|Hne]; [done|]. apply Htried. lia.
      * unfold candidate. destruct (N.eqb_spec (num + 1) 0); [lia|done].
    + rewrite bool_decide_eq_false_2 by done. eauto.
Qed.

(** [_get_name] always returns: the bound on the loop is never reached. *)
Lemma get_name_total basename directory names :
  ∃ p, _get_name basename directory names = Some p.
Proof.
  unfold _get_name.
  destruct (get_name_loop_total basename (iterdir directory names)
              (S (length names)) 0) as [p Hp].
  - unfold iterdir. rewrite length_map. lia.
  - intros k Hk. lia.
  - change (candidate basename 0) with (Path_of_str (basename ++ lit ".tar.bz2")) in Hp.
    change (0 + 1) with 1 in Hp. rewrite Hp. cbn. eauto.
Qed.

(** C2 on two sibling directories whose names sanitize alike: the first
    blob is written, the name given for the second is the occupied one, and
    the exclusive creation raises. *)
Theorem same_name_aborts :
  sanitize (lit "a:") = Ok (lit "a%3A") ∧
  sanitize (lit "a%3A") = Ok (lit "a%3A") ∧
  _get_name (lit "a%3A") (mkPath true [lit "build"]) [lit "a%3A.tar.bz2"]
    = Some (mkPath true [lit "build"; lit "a%3A.tar.bz2"]) ∧
  explore clash_fs (mkPath true [lit "data"]) (mkPath true [lit "build"]) ∅ ∅
    = ([ (lit "a%3A.tar.bz2",
          Blob [ mkEntry (lit "a%3A/y.txt")
                   (mkPath true [lit "data"; lit "a%3A"; lit "y.txt"]) [2] ]) ],
       Some FileExistsError).
Proof. vm_compute. repeat split; reflexivity. Qed.

(** ** Validation of the configuration *)

Section Validation.
Variable int_of_str : str → result Z.
Variable machine : node.
Variable rootdir : Path.

Lemma load_ignore_sound l acc S :
  load_ignore machine rootdir l acc = Ok S →
  ∀ p, p ∈ S →
    p ∈ acc ∨
    ∃ s, s ∈ l ∧ root (Path_of_str s) = false ∧
         path_exists machine p = true ∧ p = rootdir </> Path_of_str s.
Proof.
  revert acc. induction l as [|s l IH]; intros acc Hload p Hp.
  - injection Hload as <-. by left.
  - cbn [load_ignore] in Hload.
    destruct (root (Path_of_str s)) eqn:Hr; [done|].
    destruct (path_exists machine (rootdir </> Path_of_str s)) eqn:He; [|done].
    cbn [negb] in Hload.
    destruct (IH _ Hload p Hp) as [Hin|(s' & Hs' & H)].
    + apply elem_of_union in Hin as [->%elem_of_singleton|Hin]; [|by left].
      right. exists s. split; [left|done].
    + right. exists s'. split; [by right|done].
Qed.

Lemma load_ignore_absolute l acc s :
  s ∈ l → root (Path_of_str s) = true →
  ∃ msg, load_ignore machine rootdir l acc = Raise (ValueError msg).
Proof.
  revert acc. induction l as [|s' l IH]; intros acc Hin Hr.
  - by apply elem_of_nil in Hin.
  - cbn [load_ignore].
    destruct (root (Path_of_str s')) eqn:Hr'; [eauto|].
    destruct (path_exists machine (rootdir </> Path_of_str s')); cbn [negb]; [|eauto].
    apply elem_of_cons in Hin as [->|Hin]; [congruence|]. by apply IH.
Qed.
End Validation.

Lemma validate_ok int_of_str machine cfg v :
  validate int_of_str machine cfg = Ok v →
  v_rootdir v = Path_of_str (cfg_rootdir cfg) ∧
  root (v_rootdir v) = true ∧ root (v_builddir v) = true ∧
  load_ignore machine (v_rootdir v) (cfg_ignore_list cfg) ∅ = Ok (v_to_ignore v).
Proof.
  unfold validate.
  destruct (root (Path_of_str (cfg_rootdir cfg))) eqn:H1; [|done].
  destruct (root (Path_of_str (cfg_builddir cfg))) eqn:H2; [|done].
  destruct (root (Path_of_str (cfg_syncdir cfg))) eqn:H3; [|done].
  cbn [negb].
  destruct (load_ignore _ _ _ _) as [ign|] eqn:Hign; [|done].
  cbn [mbind result_bind].
  destruct (load_group_levels _ _ _ _ _) as [gl|]; [|done].
  destruct (check_nesting _ _ _) as [[]|]; [|done].
  intros [= <-]. done.
Qed.

Lemma joinpath_root_relative a b : root b = false → root (a </> b) = root a.
Proof. unfold joinpath. by intros ->. Qed.



(** ** Paths *)

Lemma strip_prefix_app pre l : strip_prefix pre (pre ++ l) = Some l.
Proof. induction pre as [|a pre IH]; [done|]. simpl. by rewrite decide_True. Qed.

Lemma relative_to_child d name : relative_to (child d name) d = Ok (rel1 name).
Proof.
  unfold relative_to, child. cbn [root parts].
  by rewrite bool_decide_eq_true_2, strip_prefix_app.
Qed.

Lemma child_name_child d name : child_name d (child d name) = Some name.
Proof.
  unfold child_name, child. cbn [root parts].
  by rewrite bool_decide_eq_true_2, strip_prefix_app.
Qed.

Lemma prefix_snoc_cases {A} (p l : list A) x :
  p `prefix_of` l ++ [x] → p = l ++ [x] ∨ p `prefix_of` l.
Proof.
  intros [k Hk]. destruct k as [|y k _] using rev_ind.
  - left. by rewrite app_nil_r in Hk.
  - right. rewrite app_assoc in Hk. apply app_inj_tail in Hk as [-> _].
    by exists k.
Qed.

Lemma under_child p d name : under p (child d name) → p = child d name ∨ under p d.
Proof.
  intros [[Hr Hd] Hp]. cbn [child root dslash parts] in *.
  apply prefix_snoc_cases in Hp as [Hp|Hp].
  - left. destruct p. unfold child. cbn in *. by subst.
  - by right.
Qed.

(** ** Names made by the sanitizer *)

Lemma sanitize_path_name s t : sanitize s = Ok t → Path_of_str t = rel1 t.
Proof.
  intros [Hne ->]%sanitize_ok. apply Path_of_str_name.
  - eapply Forall_impl; [apply san_chars|]. intros x Hx ->. done.
  - by apply san_nonempty.
  - destruct (exists_last Hne) as (s' & c & ->).
    destruct (san_last s' c) as (x & Hx & H1 & _). intros Heq.
    rewrite Heq in Hx. by injection Hx as <-.
Qed.

Lemma sanitize_no_slash s t : sanitize s = Ok t → Forall (fun c => c ≠ 47) t.
Proof.
  intros [_ ->]%sanitize_ok.
  eapply Forall_impl; [apply san_chars|]. intros x Hx ->. done.
Qed.

Lemma create_child d bl name :
  create d bl (child d name)
  = if bool_decide (name ∈ names bl) then Raise FileExistsError else Ok name.
Proof. unfold create. by rewrite child_name_child. Qed.

(** ** Unfolding the recursions *)

Lemma node_ind' (P : node → Prop) :
  (∀ r d, P (File r d)) →
  (∀ es, P (Directory false es)) →
  (∀ es, Forall (fun c => P c.2) es → P (Dir es)) →
  ∀ n, P n.
Proof.
  intros HF HU HD. fix IH 1. intros [r d|[] es]; [apply HF| |apply HU].
  apply HD. induction es as [|[name n] es IHes]; constructor; [apply IH | apply IHes].
Qed.

Lemma walk_unlistable rootdir ign dirpath es tar :
  walk rootdir ign dirpath (Directory false es) tar = (tar, None).
Proof. reflexivity. Qed.

Lemma explore_node_unlistable es rootdir builddir gl ign :
  explore_node (Directory false es) rootdir builddir gl ign = ([], Some PermissionError).
Proof. reflexivity. Qed.

Lemma walk_Dir rootdir ign dirpath es tar :
  walk rootdir ign dirpath (Dir es) tar =
  if bool_decide (dirpath ∈ ign) then (tar, None)
  else match add_files rootdir ign dirpath es tar with
       | (tar', Some e) => (tar', Some e)
       | (tar', None) => walk_subdirs rootdir ign dirpath es tar'
       end.
Proof.
  cbn [walk]. destruct (bool_decide (dirpath ∈ ign)); [done|].
  destruct (add_files rootdir ign dirpath es tar) as [tar' [e|]]; [done|].
  clear tar. revert tar'.
  induction es as [|[d sub] r IH]; intros tar; [done|].
  cbn [walk_subdirs]. destruct sub as [rd dt|l kids]; [apply IH|].
  destruct (walk rootdir ign (child dirpath d) (Directory l kids) tar) as [tar' [e|]];
    [done|].
  apply IH.
Qed.

Lemma explore_node_Dir es rootdir builddir gl ign :
  explore_node (Dir es) rootdir builddir gl ign =
  explore_loop es rootdir builddir gl ign
    (sorted_by (fun c => c.1.1) (with_explorers es)) [] [].
Proof.
  cbn [explore_node]. do 2 f_equal.
  induction es as [|[name sub] r IH]; [done|].
  cbn [with_explorers map fst snd]. f_equal. apply IH.
Qed.

Lemma listing_entries_cons name b bl :
  listing_entries ((name, b) :: bl) = bnode_entries b ++ listing_entries bl.
Proof. reflexivity. Qed.

Lemma insert_by_perm {A} (key : A → str) x l : insert_by key x l ≡ₚ x :: l.
Proof.
  induction l as [|y r IH]; [done|]. cbn [insert_by].
  destruct (str_leb (key x) (key y)); [done|].
  rewrite IH. apply Permutation_swap.
Qed.

Lemma sorted_by_perm {A} (key : A → str) l : sorted_by key l ≡ₚ l.
Proof.
  induction l as [|x r IH]; [done|]. cbn [sorted_by foldr].
  rewrite insert_by_perm. by constructor.
Qed.

(** ** What the builders write *)

Lemma add_files_entries rootdir ign dirpath es tar e :
  e ∈ (add_files rootdir ign dirpath es tar).1 →
  e ∈ tar ∨
  ∃ fname data rel,
    (child dirpath fname ∉ ign) ∧
    relative_to (child dirpath fname) rootdir = Ok rel ∧
    e = mkEntry (Path_str rel) (child dirpath fname) data.
Proof.
  revert tar. induction es as [|[fname [rd data|l kids]] r IH]; intros tar He.
  - by left.
  - cbn [add_files] in He.
    destruct (decide (child dirpath fname ∈ ign)) as [Hi|Hi].
    { rewrite bool_decide_eq_true_2 in He by done. by apply IH. }
    rewrite bool_decide_eq_false_2 in He by done.
    destruct rd; cbn [negb] in He; [|by apply IH].
    destruct (relative_to (child dirpath fname) rootdir) as [rel|] eqn:Hrel;
      [|by left].
    apply IH in He as [He|He]; [|by right].
    apply elem_of_app in He as [He|He]; [by left|].
    apply list_elem_of_singleton in He as ->. right. eauto 6.
  - cbn [add_files] in He. by apply IH.
Qed.

Section Walk.
Variable W : Path → entry → Prop.
Variable rootdir : Path.
Variable ign : gset Path.
Hypothesis W_file : ∀ dirpath fname data rel,
  dirpath ∉ ign → child dirpath fname ∉ ign →
  relative_to (child dirpath fname) rootdir = Ok rel →
  W dirpath (mkEntry (Path_str rel) (child dirpath fname) data).
Hypothesis W_up : ∀ dirpath d e, dirpath ∉ ign → W (child dirpath d) e → W dirpath e.

Lemma walk_entries n :
  ∀ dirpath tar e,
    e ∈ (walk rootdir ign dirpath n tar).1 → e ∈ tar ∨ W dirpath e.
Proof.
  induction n as [rd dt|es|es IH] using node_ind'; intros dirpath tar e He.
  - by left.
  - by left.
  - rewrite walk_Dir in He.
    destruct (decide (dirpath ∈ ign)) as [Hi|Hi].
    { rewrite bool_decide_eq_true_2 in He by done. by left. }
    rewrite bool_decide_eq_false_2 in He by done.
    assert (∀ x, x ∈ (add_files rootdir ign dirpath es tar).1 → x ∈ tar ∨ W dirpath x)
      as Hfiles.
    { intros x [Hx|(fname & data & rel & Hf & Hrel & ->)]%add_files_entries;
        [by left|]. right. by apply W_file. }
    destruct (add_files rootdir ign dirpath es tar) as [tar' [ex|]];
      [by apply Hfiles|].
    cbn [fst] in Hfiles.
    revert tar' Hfiles He.
    induction IH as [|[d sub] r Hsub _ IHr]; intros tar1 Htar He.
    + by apply Htar.
    + cbn [walk_subdirs] in He. destruct sub as [rd dt|l kids]; [by eapply IHr|].
      cbn [snd] in Hsub.
      assert (∀ x, x ∈ (walk rootdir ign (child dirpath d) (Directory l kids) tar1).1 →
                   x ∈ tar ∨ W dirpath x) as Hstep.
      { intros x [Hx|Hx]%Hsub; [by apply Htar|]. right. by eapply W_up. }
      destruct (walk rootdir ign (child dirpath d) (Directory l kids) tar1)
        as [tar2 [ex|]].
      * by apply Hstep.
      * by eapply IHr.
Qed.
End Walk.

Lemma pack_add_entries fs rootdir names tar e :
  e ∈ pack_add fs rootdir (map rel1 names) tar →
  e ∈ tar ∨ ∃ n data, n ∈ names ∧ e = mkEntry n (child rootdir n) data.
Proof.
  revert tar. induction names as [|n r IH]; intros tar He; [by left|].
  cbn [map pack_add] in He.
  destruct (lookup_rel (parts (rel1 n)) (Dir fs)) as [[[|] data|l kids]|].
  - apply IH in He as [He|(n' & data' & Hn' & ->)].
    + apply elem_of_app in He as [He|He]; [by left|].
      apply list_elem_of_singleton in He as ->.
      right. exists n, data. split; [left|done].
    + right. exists n', data'. split; [by right|done].
  - apply IH in He as [He|(n' & data' & Hn' & ->)]; [by left|].
    right. exists n', data'. split; [by right|done].
  - apply IH in He as [He|(n' & data' & Hn' & ->)]; [by left|].
    right. exists n', data'. split; [by right|done].
  - apply IH in He as [He|(n' & data' & Hn' & ->)]; [by left|].
    right. exists n', data'. split; [by right|done].
Qed.

(** [build_tree] and [pack_files] leave the build directory as it was or add
    one blob to it. *)
Lemma build_tree_shape fs rootdir builddir node ign bl :
  (build_tree fs rootdir builddir node ign bl).1 = bl ∨
  ∃ f top,
    (build_tree fs rootdir builddir node ign bl).1
    = bl ++ [(f, Blob (walk rootdir ign (rootdir </> node) top []).1)].
Proof.
  unfold build_tree.
  destruct (sanitize (Path_str node)) as [sane|]; [|by left].
  destruct (_get_name sane builddir (names bl)) as [fname|]; [|by left].
  destruct (create builddir bl fname) as [f|]; [|by left].
  right. exists f, (subtree fs node).
  by destruct (walk rootdir ign (rootdir </> node) _ []) as [tar err].
Qed.

Lemma pack_files_shape fs rootdir builddir all_files bl :
  (pack_files fs rootdir builddir all_files bl).1 = bl ∨
  ∃ f, (pack_files fs rootdir builddir all_files bl).1
       = bl ++ [(f, Blob (pack_add fs rootdir all_files []))].
Proof.
  unfold pack_files. destruct all_files as [|a r]; [by left|].
  destruct (_get_name _ builddir (names bl)) as [p|]; [|by left].
  destruct (create builddir bl p) as [f|]; [|by left].
  right. by exists f.
Qed.

(** ** The induction over [explore] *)

Section Built.
Variable Q : Path → entry → Prop.
Variable R : Path → str → str → Prop.
Variable ign : gset Path.
Hypothesis Q_walk : ∀ rootdir name top e,
  child rootdir name ∉ ign →
  e ∈ (walk rootdir ign (child rootdir name) top []).1 → Q rootdir e.
Hypothesis Q_pack : ∀ rootdir n data,
  child rootdir n ∉ ign → Q rootdir (mkEntry n (child rootdir n) data).
Hypothesis R_sane : ∀ d name sane,
  child d name ∉ ign → sanitize name = Ok sane → R d name sane.

Lemma built_app d bl bl' : built Q R d bl → built Q R d bl' → built Q R d (bl ++ bl').
Proof. induction 1; intros; cbn [app]; [done| |]; econstructor; eauto. Qed.

Lemma explore_loop_built fs rootdir builddir gl children :
  Forall (fun c => ∀ r b g, built Q R r ((c.2 : explorer) r b g ign).1) children →
  ∀ ns bl,
    Forall (fun n => child rootdir n ∉ ign) ns → built Q R rootdir bl →
    built Q R rootdir
      (explore_loop fs rootdir builddir gl ign children (map rel1 ns) bl).1.
Proof.
  induction 1 as [|[[name n] ex] rest Hex _ IH]; intros ns bl Hnames Hbl.
  - cbn [explore_loop].
    destruct (pack_files_shape fs rootdir builddir (map rel1 ns) bl)
      as [->|[f ->]]; [done|].
    apply built_app; [done|]. constructor; [|constructor].
    apply Forall_forall. intros e [He|(n & data & Hn & ->)]%pack_add_entries.
    + by apply elem_of_nil in He.
    + apply Q_pack. by eapply Forall_forall in Hnames.
  - cbn [explore_loop snd] in *.
    destruct (decide (child rootdir name ∈ ign)) as [Hi|Hi].
    { rewrite bool_decide_eq_true_2 by done. by apply IH. }
    rewrite bool_decide_eq_false_2 by done.
    rewrite relative_to_child.
    destruct n as [rd dt|l kids].
    { replace (map rel1 ns ++ [rel1 name]) with (map rel1 (ns ++ [name]))
        by by rewrite map_app.
      apply IH; [|done]. apply Forall_app. split; [done|]. by constructor. }
    destruct (group_match gl (child rootdir name)).
    + change (Path_str (rel1 name)) with name.
      destruct (sanitize name) as [sane|] eqn:Hsane; [|done].
      rewrite (sanitize_path_name _ _ Hsane), joinpath_name, create_child.
      destruct (bool_decide (sane ∈ names bl)); [done|].
      pose proof (Hex (child rootdir name) (child builddir sane) (group_levels_sub gl))
        as Hsub.
      destruct (ex (child rootdir name) (child builddir sane) (group_levels_sub gl) ign)
        as [sub err].
      assert (built Q R rootdir (bl ++ [(sane, BDir sub)])) as Hbl'.
      { apply built_app; [done|]. econstructor; [by apply R_sane|done|constructor]. }
      destruct err; [done|]. by apply IH.
    + assert (built Q R rootdir (build_tree fs rootdir builddir (rel1 name) ign bl).1)
        as Hbl'.
      { destruct (build_tree_shape fs rootdir builddir (rel1 name) ign bl)
          as [->|(f & top & ->)]; [done|].
        apply built_app; [done|]. constructor; [|constructor].
        apply Forall_forall. intros e He. by eapply Q_walk. }
      destruct (build_tree fs rootdir builddir (rel1 name) ign bl) as [bl' [e|]];
        [done|]. by apply IH.
Qed.

Lemma explore_node_built n :
  ∀ rootdir builddir gl, built Q R rootdir (explore_node n rootdir builddir gl ign).1.
Proof.
  induction n as [rd dt|es|es IH] using node_ind'; intros rootdir builddir gl.
  - constructor.
  - constructor.
  - rewrite explore_node_Dir.
    apply (explore_loop_built es rootdir builddir gl _) with (ns := []);
      [|constructor|constructor].
    rewrite sorted_by_perm. unfold with_explorers.
    apply Forall_fmap. eapply Forall_impl; [exact IH|].
    intros [name sub] Hsub r b g. apply Hsub.
Qed.
End Built.

(** ** Entry names *)

Lemma built_mirrors d bl :
  built entry_relative (fun _ name sane => sanitize name = Ok sane) d bl → mirrors d bl.
Proof. induction 1; econstructor; eauto. Qed.

(** C1, as stated, fails below a grouped directory: the blob of
    [projects/a] names its file [a/x.txt], not [projects/a/x.txt]. *)
Lemma grouped_entry_not_root_relative :
  explore data_fs data_root build_root projects_levels ∅ = (data_build, None) ∧
  relative_to (source entry_x) data_root
    = Ok (mkPath false [lit "projects"; lit "a"; lit "x.txt"]) ∧
  arcname entry_x ≠ Path_str (mkPath false [lit "projects"; lit "a"; lit "x.txt"]).
Proof.
  split; [vm_compute; reflexivity|]. split; [vm_compute; reflexivity|].
  vm_compute. discriminate.
Qed.

(** C1 (amended): the build directory mirrors the explored directory. The
    entries of a blob are named by the path of their file relative to the
    directory whose [explore] wrote the blob: the source root for the blobs
    at the top of the build area, and the grouped directory itself for the
    blobs in the subdirectory made for it. *)
Theorem entry_names_relative fs rootdir builddir group_levels to_ignore :
  mirrors rootdir (explore fs rootdir builddir group_levels to_ignore).1.
Proof.
  apply built_mirrors, explore_node_built.
  - intros r name top e _ He.
    apply (walk_entries (fun _ e => entry_relative r e)) in He as [He|He]; [|done| |].
    + by apply elem_of_nil in He.
    + intros dirpath fname data rel _ _ Hrel. by exists rel.
    + done.
  - intros r n data _. exists (rel1 n). split; [apply relative_to_child|done].
  - done.
Qed.

(** ** The ignore set *)

Lemma listing_entries_app bl bl' :
  listing_entries (bl ++ bl') = listing_entries bl ++ listing_entries bl'.
Proof.
  induction bl as [|[name b] bl IH]; [done|].
  cbn [app]. by rewrite !listing_entries_cons, IH, app_assoc.
Qed.

Section Ignore.
Variable ign : gset Path.

Lemma under_child_clear p d name :
  p ∈ ign → child d name ∉ ign → under p (child d name) → under p d.
Proof. intros Hp Hc [->|H]%under_child; done. Qed.

Lemma built_clear d bl :
  built (clear_of ign) (fun d name _ => child d name ∉ ign) d bl →
  Forall (clear_of ign d) (listing_entries bl).
Proof.
  induction 1 as [d|d f es bl Hes _ IH|d name bname sub bl Hname _ IHsub _ IH].
  - constructor.
  - rewrite listing_entries_cons. apply Forall_app. split; done.
  - rewrite listing_entries_cons. apply Forall_app. split; [|done].
    change (bnode_entries (BDir sub)) with (listing_entries sub).
    eapply Forall_impl; [exact IHsub|].
    intros e He p Hp Hu. eapply under_child_clear; eauto.
Qed.

Lemma explore_clear fs rootdir builddir gl :
  Forall (clear_of ign rootdir) (listing_entries (explore fs rootdir builddir gl ign).1).
Proof.
  apply built_clear, explore_node_built.
  - intros r name top e Hname He.
    apply (walk_entries (fun d e => (d ∉ ign) ∧ clear_of ign d e)) in He
      as [He|[_ He]].
    + by apply elem_of_nil in He.
    + intros p Hp Hu. eapply under_child_clear; eauto.
    + intros dirpath fname data rel Hd Hf _. split; [done|].
      intros p Hp Hu. cbn [source] in Hu. eapply under_child_clear; eauto.
    + intros dirpath d e' Hd [Hc He']. split; [done|].
      intros p Hp Hu. eapply under_child_clear; eauto.
  - intros r n data Hn p Hp Hu. cbn [source] in Hu. eapply under_child_clear; eauto.
  - done.
Qed.
End Ignore.

(** C3, as stated, fails when the ignore list names the root itself: the
    entry [.] is accepted, the ignore set then holds the source root, and
    everything below the root is archived all the same. *)
Lemma ignored_root_is_archived :
  validate no_int machine0 (config0 [lit "."] [])
    = Ok (mkValidated data_root build_root sync_root {[ data_root ]} ∅) ∧
  listing_entries (explore data_fs data_root build_root ∅ {[ data_root ]}).1
    = [entry_z;
       mkEntry (lit "projects/b/y.txt") (source entry_y) [2];
       mkEntry (lit "projects/a/x.txt") (source entry_x) [1];
       entry_key; entry_notes] ∧
  under data_root (source entry_notes).
Proof.
  split; [vm_compute; reflexivity|]. split; [vm_compute; reflexivity|].
  split; [done|]. exists [lit "notes.txt"]. reflexivity.
Qed.

(** An ignore entry written through [..] is accepted as well; the path it
    puts in the ignore set is not the path of any child that [explore] or
    [os.walk] comes to, and the directory it names is archived. *)
Lemma dotdot_ignore_entry_excludes_nothing :
  validate no_int machine0 (config0 [lit "other/../secrets"] [])
    = Ok (mkValidated data_root build_root sync_root
            {[ extend data_root [lit "other"; lit ".."; lit "secrets"] ]} ∅) ∧
  fs_lookup machine0 (extend data_root [lit "other"; lit ".."; lit "secrets"])
    = fs_lookup machine0 secrets_path ∧
  entry_key ∈ listing_entries
    (explore data_fs data_root build_root ∅
       {[ extend data_root [lit "other"; lit ".."; lit "secrets"] ]}).1.
Proof.
  split; [vm_compute; reflexivity|]. split; [vm_compute; reflexivity|].
  apply list_elem_of_In. vm_compute. tauto.
Qed.

(** C3 (amended): a path of the ignore set, unless it is the explored root
    or above it, keeps out of every blob the file at that path and the
    files at the paths that extend it, whatever else the ignore set holds.
    Paths are compared as the script compares them, component by
    component. *)
Theorem ignored_paths_not_archived fs rootdir builddir group_levels to_ignore e p :
  p ∈ to_ignore → ¬ under p rootdir →
  e ∈ listing_entries (explore fs rootdir builddir group_levels to_ignore).1 →
  ¬ under p (source e).
Proof.
  intros Hp Hroot He Hu.
  pose proof (explore_clear to_ignore fs rootdir builddir group_levels) as Hclear.
  rewrite Forall_forall in Hclear. apply Hroot. by apply (Hclear e He p).
Qed.

Lemma ignored_paths_not_archived_witness : ¬ under secrets_path (source entry_notes).
Proof.
  apply (ignored_paths_not_archived data_fs data_root build_root projects_levels
           {[ data_root; secrets_path ]} entry_notes secrets_path).
  - apply elem_of_union. right. by apply elem_of_singleton.
  - intros [_ [k Hk]]. discriminate Hk.
  - assert (listing_entries
              (explore data_fs data_root build_root projects_levels
                 {[ data_root; secrets_path ]}).1
            = [entry_z; entry_x; entry_y; entry_notes]) as ->
      by (vm_compute; reflexivity).
    apply list_elem_of_In. simpl. tauto.
Defined.

(** ** Grouping *)

Lemma proper_prefixes_spec (xs l : list str) :
  xs ∈ proper_prefixes l ↔ xs `prefix_of` l ∧ xs ≠ l.
Proof.
  revert xs. induction l as [|a l IH]; intros xs; cbn [proper_prefixes].
  - split; [by intros ?%elem_of_nil|]. intros [[k Hk] Hne].
    symmetry in Hk. apply app_eq_nil in Hk as [-> _]. done.
  - rewrite elem_of_cons, list_elem_of_fmap. split.
    + intros [->|(ys & -> & [Hp Hne]%IH)].
      * split; [apply prefix_nil|done].
      * split; [by apply prefix_cons|]. intros [= ->]. done.
    + intros [Hp Hne]. destruct xs as [|b xs]; [by left|]. right.
      destruct Hp as [k Hk]. injection Hk as <- Hl.
      exists xs. split; [done|]. apply IH. split; [by exists k|].
      intros ->. done.
Qed.

Lemma under_parents group node :
  group = node ∨ group ∈ parents node ↔ under group node.
Proof.
  unfold under, parents. rewrite list_elem_of_fmap. split.
  - intros [->|(xs & -> & [Hp _]%proper_prefixes_spec)]; [done|].
    split; [done|]. done.
  - intros [[Hr Hd] Hp]. destruct (decide (parts group = parts node)) as [He|He].
    + left. destruct group, node. cbn in *. by subst.
    + right. exists (parts group). split.
      * destruct group. cbn in *. by subst.
      * by apply proper_prefixes_spec.
Qed.

Lemma group_match_spec gl node :
  group_match gl node = true ↔
  ∃ group budget, gl !! group = Some budget ∧ under group node.
Proof.
  unfold group_match. rewrite bool_decide_eq_true. unfold set_Exists. split.
  - intros (group & [budget Hb]%elem_of_dom & Hm%under_parents). eauto.
  - intros (group & budget & Hb & Hm). exists group. split.
    + apply elem_of_dom. eauto.
    + by apply under_parents.
Qed.

Lemma group_levels_sub_spec gl group budget :
  group_levels_sub gl !! group = Some budget ↔
  (0 < budget)%Z ∧ gl !! group = Some (budget + 1)%Z.
Proof.
  unfold group_levels_sub. rewrite lookup_fmap, fmap_Some. split.
  - intros (v & [Hv Hpos]%map_lookup_filter_Some & ->). cbn in Hpos.
    split; [lia|]. rewrite Hv. f_equal. lia.
  - intros [Hpos Hv]. exists (budget + 1)%Z. split; [|lia].
    apply map_lookup_filter_Some. split; [done|]. cbn. lia.
Qed.

Lemma build_tree_ok fs rootdir builddir name ign bl bl' :
  build_tree fs rootdir builddir (rel1 name) ign bl = (bl', None) →
  ∃ sane f,
    sanitize name = Ok sane ∧
    bl' = bl ++ [(f, Blob (walk rootdir ign (child rootdir name)
                             (subtree fs (rel1 name)) []).1)] ∧
    (root builddir = true → f = sane ++ lit ".tar.bz2").
Proof.
  unfold build_tree. change (Path_str (rel1 name)) with name.
  destruct (sanitize name) as [sane|] eqn:Hsane; [|done].
  destruct (_get_name sane builddir (names bl)) as [fname|] eqn:Hname; [|done].
  destruct (create builddir bl fname) as [f|] eqn:Hcreate; [|done].
  rewrite joinpath_name.
  destruct (walk rootdir ign (child rootdir name) _ []) as [tar err].
  intros [= <- ->]. exists sane, f. split; [done|]. split; [done|].
  intros Hr. rewrite get_name_absolute in Hname
    by eauto using sanitize_no_slash.
  injection Hname as <-. rewrite create_child in Hcreate.
  destruct (bool_decide _) in Hcreate; [done|]. by injection Hcreate as <-.
Qed.

Lemma build_tree_grows fs rootdir builddir node ign bl x :
  x ∈ bl → x ∈ (build_tree fs rootdir builddir node ign bl).1.
Proof.
  intros Hx. destruct (build_tree_shape fs rootdir builddir node ign bl)
    as [->|(f & top & ->)]; [done|]. apply elem_of_app. by left.
Qed.

Lemma pack_files_grows fs rootdir builddir all_files bl x :
  x ∈ bl → x ∈ (pack_files fs rootdir builddir all_files bl).1.
Proof.
  intros Hx. destruct (pack_files_shape fs rootdir builddir all_files bl)
    as [->|(f & ->)]; [done|]. apply elem_of_app. by left.
Qed.

Lemma child_done_grows fs rootdir builddir gl ign bl bl' name ex :
  (∀ x, x ∈ bl → x ∈ bl') →
  child_done fs rootdir builddir gl ign bl name ex →
  child_done fs rootdir builddir gl ign bl' name ex.
Proof.
  intros Hsub (sane & Hsane & H). exists sane. split; [done|].
  destruct (group_match gl (child rootdir name)).
  - destruct H as (sub & Hin & Hex). eauto.
  - destruct H as (f & Hin & Hf). eauto.
Qed.

Lemma explore_loop_ok fs rootdir builddir gl ign children :
  ∀ all_files bl bl',
    explore_loop fs rootdir builddir gl ign children all_files bl = (bl', None) →
    (∀ x, x ∈ bl → x ∈ bl') ∧
    ∀ name l kids ex,
      (name, Directory l kids, ex) ∈ children → child rootdir name ∉ ign →
      child_done fs rootdir builddir gl ign bl' name ex.
Proof.
  induction children as [|[[name0 n0] ex0] rest IH]; intros all_files bl bl' Hrun.
  - cbn [explore_loop] in Hrun. split.
    + intros x Hx. replace bl' with (pack_files fs rootdir builddir all_files bl).1
        by by rewrite Hrun.
      by apply pack_files_grows.
    + intros name l kids ex Hin. by apply elem_of_nil in Hin.
  - cbn [explore_loop] in Hrun.
    destruct (decide (child rootdir name0 ∈ ign)) as [Hi|Hi].
    { rewrite bool_decide_eq_true_2 in Hrun by done.
      destruct (IH _ _ _ Hrun) as [Hgrow Hrest]. split; [done|].
      intros name l kids ex [[= -> <- ->]|Hin]%elem_of_cons Hname; [done|].
      by apply Hrest with l kids. }
    rewrite bool_decide_eq_false_2, relative_to_child in Hrun by done.
    destruct n0 as [rd dt|l0 kids0].
    { destruct (IH _ _ _ Hrun) as [Hgrow Hrest]. split; [done|].
      intros name l kids ex [[=]|Hin]%elem_of_cons Hname.
      by apply Hrest with l kids. }
    destruct (group_match gl (child rootdir name0)) eqn:Hmatch.
    + change (Path_str (rel1 name0)) with name0 in Hrun.
      destruct (sanitize name0) as [sane|] eqn:Hsane; [|done].
      rewrite (sanitize_path_name _ _ Hsane), joinpath_name, create_child in Hrun.
      destruct (bool_decide (sane ∈ names bl)); [done|].
      destruct (ex0 (child rootdir name0) (child builddir sane) (group_levels_sub gl) ign)
        as [sub err] eqn:Hex.
      destruct err; [done|].
      destruct (IH _ _ _ Hrun) as [Hgrow Hrest]. split.
      * intros x Hx. apply Hgrow, elem_of_app. by left.
      * intros name l kids ex [[= -> -> -> ->]|Hin]%elem_of_cons Hname;
          [|by apply Hrest with l kids].
        exists sane. split; [done|]. rewrite Hmatch. exists sub. split; [|done].
        apply Hgrow, elem_of_app. right. apply list_elem_of_singleton. done.
    + destruct (build_tree fs rootdir builddir (rel1 name0) ign bl) as [bl1 err] eqn:Hbt.
      destruct err; [done|].
      destruct (IH _ _ _ Hrun) as [Hgrow Hrest].
      destruct (build_tree_ok _ _ _ _ _ _ _ Hbt) as (sane & f & Hsane & -> & Hf). split.
      * intros x Hx. apply Hgrow, elem_of_app. by left.
      * intros name l kids ex [[= -> -> -> ->]|Hin]%elem_of_cons Hname;
          [|by apply Hrest with l kids].
        exists sane. split; [done|]. rewrite Hmatch. exists f. split; [|done].
        apply Hgrow, elem_of_app. right. apply list_elem_of_singleton. done.
Qed.

Lemma lookup_name_NoDup fs name n :
  NoDup (map fst fs) → (name, n) ∈ fs → lookup_name name fs = Some n.
Proof.
  induction fs as [|[a x] fs IH]; intros Hnd Hin; [by apply elem_of_nil in Hin|].
  cbn [lookup_name]. cbn [map fst] in Hnd. apply NoDup_cons in Hnd as [Ha Hnd].
  apply elem_of_cons in Hin as [[= -> ->]|Hin]; [by rewrite decide_True|].
  rewrite decide_False; [by apply IH|]. intros ->.
  apply Ha, list_elem_of_fmap. by exists (name, n).
Qed.

(** C4, as stated, fails for a budget that is not positive: the level 0 is
    accepted when the configuration is loaded, and [projects] is grouped
    all the same, where the claim has it archived as one leaf blob. *)
Lemma zero_budget_groups :
  validate no_int machine0 (config0 [] [ (lit "projects", YInt 0) ])
    = Ok (mkValidated data_root build_root sync_root ∅
            {[ child data_root (lit "projects") := 0%Z ]}) ∧
  explore data_fs data_root build_root {[ child data_root (lit "projects") := 0%Z ]} ∅
    = (data_build, None) ∧
  data_build !! 1%nat
    = Some (lit "projects",
            BDir [ (lit "a.tar.bz2", Blob [entry_x]); (lit "b.tar.bz2", Blob [entry_y]) ]).
Proof.
  split; [vm_compute; reflexivity|]. split; [vm_compute; reflexivity|]. reflexivity.
Qed.

(** C4 (amended): after a run of [explore] without exception, every child
    directory that is not ignored has got, when a key of [group_levels] is
    the directory or one of its ancestors, whatever the budget of the key,
    a subdirectory of the build area under its sanitized name, filled by
    [explore] on that child with the levels decremented (the child can then
    be listed, or [explore] would have raised); and otherwise one blob
    holding the walk of its whole subtree. The decremented levels are the
    entries whose budget stays positive, each less one: a budget is
    exhausted when its key is dropped. A key applies to the paths under it
    only. *)
Theorem explore_grouping fs rootdir builddir group_levels to_ignore bl name l kids :
  explore fs rootdir builddir group_levels to_ignore = (bl, None) →
  NoDup (map fst fs) →
  (name, Directory l kids) ∈ fs →
  child rootdir name ∉ to_ignore →
  (∃ sane, sanitize name = Ok sane ∧
     if group_match group_levels (child rootdir name)
     then l = true ∧
          ∃ sub, (sane, BDir sub) ∈ bl ∧
            explore kids (child rootdir name) (child builddir sane)
              (group_levels_sub group_levels) to_ignore = (sub, None)
     else ∃ f, (f, Blob (walk rootdir to_ignore (child rootdir name)
                           (Directory l kids) []).1) ∈ bl ∧
               (root builddir = true → f = sane ++ lit ".tar.bz2")) ∧
  (group_match group_levels (child rootdir name) = true ↔
     ∃ group budget,
       group_levels !! group = Some budget ∧ under group (child rootdir name)) ∧
  (∀ group budget,
     group_levels_sub group_levels !! group = Some budget ↔
     (0 < budget)%Z ∧ group_levels !! group = Some (budget + 1)%Z).
Proof.
  intros Hrun Hnd Hin Hname.
  split; [|split; [apply group_match_spec | apply group_levels_sub_spec]].
  unfold explore in Hrun. rewrite explore_node_Dir in Hrun.
  apply explore_loop_ok in Hrun as [_ Hdone].
  specialize (Hdone name l kids (explore_node (Directory l kids))).
  assert (subtree fs (rel1 name) = Directory l kids) as Htop.
  { unfold subtree. cbn [rel1 parts lookup_rel].
    by rewrite (lookup_name_NoDup fs name (Directory l kids)). }
  destruct Hdone as (sane & Hsane & Hdone); [|done|].
  { rewrite sorted_by_perm. unfold with_explorers.
    apply list_elem_of_fmap. by exists (name, Directory l kids). }
  exists sane. split; [done|]. rewrite Htop in Hdone.
  destruct (group_match group_levels (child rootdir name)); [|done].
  destruct Hdone as (sub & Hsub & Hex). destruct l; [|done].
  split; [done|]. by exists sub.
Qed.

Lemma explore_grouping_witness :
  (∃ sane, sanitize (lit "projects") = Ok sane ∧
     if group_match projects_levels (child data_root (lit "projects"))
     then true = true ∧
          ∃ sub, (sane, BDir sub) ∈ data_build ∧
            explore projects_kids (child data_root (lit "projects"))
              (child build_root sane) (group_levels_sub projects_levels) ∅ = (sub, None)
     else ∃ f, (f, Blob (walk data_root ∅ (child data_root (lit "projects"))
                           (Dir projects_kids) []).1) ∈ data_build ∧
               (root build_root = true → f = sane ++ lit ".tar.bz2")) ∧
  (group_match projects_levels (child data_root (lit "projects")) = true ↔
     ∃ group budget,
       projects_levels !! group = Some budget ∧
       under group (child data_root (lit "projects"))) ∧
  (∀ group budget,
     group_levels_sub projects_levels !! group = Some budget ↔
     (0 < budget)%Z ∧ projects_levels !! group = Some (budget + 1)%Z).
Proof.
  apply (explore_grouping data_fs data_root build_root projects_levels ∅
           data_build (lit "projects") true projects_kids).
  - vm_compute. reflexivity.
  - apply (bool_decide_unpack _). vm_compute. exact I.
  - unfold data_fs, projects_kids. apply list_elem_of_here.
  - apply not_elem_of_empty.
Defined.

(** * Further properties of the script *)

(** ** The sanitizer: errors, fixed points, composition *)

Lemma encode_head_percent final c :
  escaped final c = true → ∃ t, _encode c = 37 :: t.
Proof.
  intros He. rewrite encode_eq.
  assert (2 <= length (in_hex c))%nat as Hlen.
  { apply escaped_spec in He as [[H|H]|[_ H]].
    - rewrite in_hex_length_forbidden by tauto. lia.
    - apply in_hex_length_big in H. lia.
    - rewrite in_hex_length_forbidden by tauto. lia. }
  destruct (length (in_hex c) / 2)%nat as [|k] eqn:Hk.
  - apply Nat.div_small_iff in Hk; lia.
  - simpl. eauto.
Qed.

Lemma san_fixed_inv s :
  san s = s →
  Forall (fun c => must_escape c = false) s ∧ last s ≠ Some 46 ∧ last s ≠ Some 32.
Proof.
  induction s as [|c r IH]; [done|].
  cbn [san]. unfold esc. destruct (escaped (is_nil r) c) eqn:He.
  - destruct (encode_head_percent _ _ He) as [t ->]. intros [= <- _].
    destruct (is_nil r); vm_compute in He; discriminate He.
  - intros [= Hr]. destruct (IH Hr) as (Hall & H1 & H2).
    unfold escaped in He. apply orb_false_iff in He as [Hm Hf].
    split; [by constructor|].
    destruct r as [|c' r']; [|done].
    cbn [is_nil andb] in Hf. apply orb_false_iff in Hf as [Hd%N.eqb_neq Hs%N.eqb_neq].
    cbn. split; congruence.
Qed.

(** X1: [sanitize] raises on the empty name only, and then an [IndexError]
    (from [final_chars[-1]]). *)
Theorem sanitize_raises_iff (name : str) (e : exn) :
  sanitize name = Raise e ↔ name = [] ∧ e = IndexError.
Proof.
  split.
  - destruct name as [|c r]; [by intros [= <-]|].
    by rewrite sanitize_san.
  - by intros [-> ->].
Qed.

(** X2: a name comes out of [sanitize] unchanged exactly when it is not
    empty, none of its characters is forbidden or above 0xFFFF, and it does
    not end in a dot or a space. *)
Theorem sanitize_unchanged_iff (name : str) :
  sanitize name = Ok name ↔
  name ≠ [] ∧ Forall (fun c => must_escape c = false) name ∧
  last name ≠ Some 46 ∧ last name ≠ Some 32.
Proof.
  split.
  - intros [Hne Heq]%sanitize_ok. split; [done|]. by apply san_fixed_inv.
  - intros (Hne & Hall & H1 & H2).
    destruct (exists_last Hne) as (s & c & ->). rewrite last_snoc in H1, H2.
    apply sanitize_fixed; [done | by intros -> ..].
Qed.

(** X3: below 16 the escape of [_encode] has no percent sign at all: one hex
    digit gives [1 // 2 = 0] signs, and the result is the bare digit. *)
Theorem encode_single_digit (c : char) :
  c < 16 → _encode c = [upper_digit c].
Proof.
  intros Hc. rewrite encode_eq, in_hex_eq. cbn [hex_rev].
  rewrite N.div_small, N.mod_small by done. cbn.
  by rewrite upper_hex_digit.
Qed.

Lemma encode_single_digit_witness : _encode 10 = [upper_digit 10].
Proof. apply (encode_single_digit 10). reflexivity. Defined.

(** X4: only the end of a name is treated specially: the sanitized name of
    [s1 ++ s2], for [s2] not empty, is the per-character pass of [s1]
    followed by the sanitized name of [s2]. *)
Theorem sanitize_app (s1 s2 : str) :
  s2 ≠ [] →
  sanitize (s1 ++ s2) = t ← sanitize s2; Ok (concat (escape_pass s1) ++ t).
Proof.
  intros Hne. destruct (exists_last Hne) as (s & c & ->).
  rewrite app_assoc, !sanitize_snoc. cbn [mbind result_bind].
  by rewrite escape_pass_app, concat_app, app_assoc.
Qed.

Lemma sanitize_app_witness :
  sanitize (lit "a. " ++ lit "b.")
  = t ← sanitize (lit "b."); Ok (concat (escape_pass (lit "a. ")) ++ t).
Proof. apply (sanitize_app (lit "a. ") (lit "b.")). discriminate. Defined.

(** ** Blob names: what [_get_name] returns *)

Lemma candidate_name_no_slash basename k :
  Forall (fun c => c ≠ 47) basename → Forall (fun c => c ≠ 47) (candidate_name basename k).
Proof.
  intros Hb. unfold candidate_name. destruct (k =? 0).
  - apply Forall_app. split; [done|]. repeat constructor; discriminate.
  - apply Forall_app. split; [done|].
    apply Forall_app. split; [repeat constructor; discriminate|].
    apply Forall_app. split; [apply str_of_int_digits|].
    repeat constructor; discriminate.
Qed.

Lemma candidate_name_length basename k : (8 <= length (candidate_name basename k))%nat.
Proof.
  unfold candidate_name. destruct (k =? 0); rewrite !length_app;
    change (length (lit ".tar.bz2")) with 8%nat; lia.
Qed.

Lemma candidate_rel1 basename k :
  Forall (fun c => c ≠ 47) basename →
  candidate basename k = rel1 (candidate_name basename k).
Proof.
  intros Hb.
  assert (Path_of_str (candidate_name basename k) = rel1 (candidate_name basename k)) as H.
  { pose proof (candidate_name_length basename k) as Hl.
    apply Path_of_str_name; [by apply candidate_name_no_slash| |].
    - intros Hn. rewrite Hn in Hl. simpl in Hl. lia.
    - intros Hn. rewrite Hn in Hl. simpl in Hl. lia. }
  unfold candidate, candidate_name in *. by destruct (k =? 0).
Qed.

Lemma get_name_loop_free fuel basename children fpath num q :
  _get_name_loop fuel basename children fpath num = Some q → q ∉ children.
Proof.
  revert fpath num. induction fuel as [|fuel IH]; intros fpath num; [done|].
  cbn [_get_name_loop].
  destruct (decide (fpath ∈ children)) as [Hin|Hin].
  - rewrite bool_decide_eq_true_2 by done. apply IH.
  - rewrite bool_decide_eq_false_2 by done. by intros [= <-].
Qed.

Lemma get_name_loop_candidate fuel basename children num q :
  _get_name_loop fuel basename children (candidate basename num) (num + 1) = Some q →
  ∃ k, q = candidate basename k.
Proof.
  revert num. induction fuel as [|fuel IH]; intros num; [done|].
  cbn [_get_name_loop].
  destruct (bool_decide (candidate basename num ∈ children)).
  - replace (Path_of_str (basename ++ lit "-" ++ str_of_int (num + 1) ++ lit ".tar.bz2"))
      with (candidate basename (num + 1)); [apply IH|].
    unfold candidate. destruct (N.eqb_spec (num + 1) 0); [lia|done].
  - intros [= <-]. eauto.
Qed.

(** What [_get_name] returns for a base name without slash: a child of the
    directory, named by one of the candidates. *)
Lemma get_name_child basename directory names p :
  Forall (fun c => c ≠ 47) basename →
  _get_name basename directory names = Some p →
  ∃ k, p = child directory (candidate_name basename k).
Proof.
  intros Hb. unfold _get_name.
  destruct (_get_name_loop _ _ _ _ _) as [q|] eqn:Hq; [|done].
  change (Path_of_str (basename ++ lit ".tar.bz2")) with (candidate basename 0) in Hq.
  change 1 with (0 + 1) in Hq.
  apply get_name_loop_candidate in Hq as [k ->].
  cbn. intros [= <-]. exists k. by rewrite candidate_rel1.
Qed.

(** X5: for a base name without slash, [_get_name] always returns, the
    [while] loop ending whatever the directory holds, and what it returns is
    a child of the directory named [basename.tar.bz2] or
    [basename-k.tar.bz2]. *)
Theorem get_name_returns_candidate (basename : str) (directory : Path)
    (names : list str) :
  Forall (fun c => c ≠ 47) basename →
  ∃ k, _get_name basename directory names
       = Some (child directory (candidate_name basename k)).
Proof.
  intros Hb. destruct (get_name_total basename directory names) as [p Hp].
  destruct (get_name_child _ _ _ _ Hb Hp) as [k ->]. eauto.
Qed.

Lemma get_name_returns_candidate_witness :
  ∃ k, _get_name (lit "x") cwd [lit "x.tar.bz2"]
       = Some (child cwd (candidate_name (lit "x") k)).
Proof.
  apply (get_name_returns_candidate (lit "x") cwd [lit "x.tar.bz2"]).
  repeat constructor; discriminate.
Defined.

(** X6: called on the current directory, [_get_name] does what its docstring
    says: the path it returns is not among the paths of the directory. *)
Theorem get_name_free_in_cwd (basename : str) (names : list str) (p : Path) :
  _get_name basename cwd names = Some p → p ∉ iterdir cwd names.
Proof.
  unfold _get_name.
  destruct (_get_name_loop _ _ _ _ _) as [q|] eqn:Hq; [|done].
  pose proof (get_name_loop_free _ _ _ _ _ _ Hq) as Hfree.
  change (Path_of_str (basename ++ lit ".tar.bz2")) with (candidate basename 0) in Hq.
  change 1 with (0 + 1) in Hq.
  apply get_name_loop_candidate in Hq as [k ->].
  cbn. intros [= <-].
  replace (cwd </> candidate basename k) with (candidate basename k); [done|].
  unfold joinpath. destruct (root (candidate basename k)) eqn:Hr; [done|].
  assert (dslash (candidate basename k) = false) as Hd.
  { unfold candidate in *. destruct (k =? 0); by apply Path_of_str_anchor. }
  destruct (candidate basename k) as [r d ps]. cbn in *. by subst.
Qed.

Lemma get_name_free_in_cwd_witness :
  mkPath false [lit "x-2.tar.bz2"] ∉ iterdir cwd [lit "x.tar.bz2"; lit "x-1.tar.bz2"].
Proof.
  apply (get_name_free_in_cwd (lit "x") [lit "x.tar.bz2"; lit "x-1.tar.bz2"]).
  vm_compute. reflexivity.
Defined.

(** ** The archive builder: what is in a blob *)

Lemma extend_nil d : extend d [] = d.
Proof. destruct d. unfold extend. cbn. by rewrite app_nil_r. Qed.

Lemma extend_child d p ps : extend (child d p) ps = extend d (p :: ps).
Proof. unfold extend, child. cbn. by rewrite <- app_assoc. Qed.

Lemma child_extend d p : child d p = extend d [p].
Proof. reflexivity. Qed.

Lemma under_child_r r d name : under r d → under r (child d name).
Proof. intros [Hr Hp]. split; [done|]. cbn. by apply prefix_app_r. Qed.

Lemma relative_to_under p other :
  under other p → ∃ rel, relative_to p other = Ok rel.
Proof.
  intros [[Hr Hd] [k Hk]]. unfold relative_to.
  rewrite bool_decide_eq_true_2 by (by split). rewrite Hk, strip_prefix_app. eauto.
Qed.

Lemma add_files_sound rootdir ign dirpath es tar e :
  e ∈ (add_files rootdir ign dirpath es tar).1 →
  e ∈ tar ∨
  ∃ fname data rel,
    (fname, File true data) ∈ es ∧
    relative_to (child dirpath fname) rootdir = Ok rel ∧
    e = mkEntry (Path_str rel) (child dirpath fname) data.
Proof.
  revert tar. induction es as [|[fname [rd data|l kids]] r IH]; intros tar He.
  - by left.
  - assert (e ∈ (add_files rootdir ign dirpath r tar).1 →
            e ∈ tar ∨ ∃ fname' data' rel,
              (fname', File true data') ∈ (fname, File rd data) :: r ∧
              relative_to (child dirpath fname') rootdir = Ok rel ∧
              e = mkEntry (Path_str rel) (child dirpath fname') data') as Hskip.
    { intros [H|(f & d & rel & Hin & H)]%IH; [by left|].
      right. exists f, d, rel. split; [by right|done]. }
    cbn [add_files] in He.
    destruct (bool_decide (child dirpath fname ∈ ign)); [by apply Hskip|].
    destruct rd; cbn [negb] in He; [|by apply Hskip].
    destruct (relative_to (child dirpath fname) rootdir) as [rel|] eqn:Hrel;
      [|by left].
    apply IH in He as [He|(f & d & rel' & Hin & H)].
    + apply elem_of_app in He as [He|He]; [by left|].
      apply list_elem_of_singleton in He as ->. right.
      exists fname, data, rel. split; [left|done].
    + right. exists f, d, rel'. split; [by right|done].
  - cbn [add_files] in He. apply IH in He as [H|(f & d & rel & Hin & H)]; [by left|].
    right. exists f, d, rel. split; [by right|done].
Qed.

Lemma walk_sound_in rootdir ign n :
  ∀ dirpath tar e,
    e ∈ (walk rootdir ign dirpath n tar).1 → e ∈ tar ∨ archived rootdir dirpath n e.
Proof.
  induction n as [rd dt|es|es IH] using node_ind'; intros dirpath tar e He.
  - by left.
  - by left.
  - rewrite walk_Dir in He.
    destruct (bool_decide (dirpath ∈ ign)); [by left|].
    assert (∀ x, x ∈ (add_files rootdir ign dirpath es tar).1 →
                 x ∈ tar ∨ archived rootdir dirpath (Dir es) x) as Hfiles.
    { intros x [Hx|(fname & data & rel & Hin & Hrel & ->)]%add_files_sound;
        [by left|]. right.
      exists [fname], data, rel. split; [done|]. split; [|done].
      econstructor; [done|constructor]. }
    destruct (add_files rootdir ign dirpath es tar) as [tar' [ex|]];
      [by apply Hfiles|].
    cbn [fst] in Hfiles.
    assert (∀ d sub x, (d, sub) ∈ es → archived rootdir (child dirpath d) sub x →
                       archived rootdir dirpath (Dir es) x) as Hup.
    { intros d sub x Hin (ps & data & rel & Hne & Hat & Hs & Hc & Hrel).
      exists (d :: ps), data, rel. split; [done|]. split; [by econstructor|].
      by rewrite <- extend_child. }
    assert (∀ l tar1,
              (∀ c, c ∈ l → c ∈ es) →
              (∀ x, x ∈ tar1 → x ∈ tar ∨ archived rootdir dirpath (Dir es) x) →
              e ∈ (walk_subdirs rootdir ign dirpath l tar1).1 →
              e ∈ tar ∨ archived rootdir dirpath (Dir es) e) as Hloop.
    { induction l as [|[d sub] r IHr]; intros tar1 Hsub Htar He1.
      - by apply Htar.
      - cbn [walk_subdirs] in He1.
        assert (∀ c, c ∈ r → c ∈ es) as Hsub' by (intros; apply Hsub; by right).
        destruct sub as [rd dt|l0 kids]; [by eapply IHr|].
        assert ((d, Directory l0 kids) ∈ es) as Hin by (apply Hsub; left).
        rewrite Forall_forall in IH. pose proof (IH _ Hin) as Hkid. cbn [snd] in Hkid.
        assert (∀ x, x ∈ (walk rootdir ign (child dirpath d) (Directory l0 kids) tar1).1 →
                     x ∈ tar ∨ archived rootdir dirpath (Dir es) x) as Hstep.
        { intros x [Hx|Hx]%Hkid; [by apply Htar|]. right. by eapply Hup. }
        destruct (walk rootdir ign (child dirpath d) (Directory l0 kids) tar1)
          as [tar2 [ex|]].
        + by apply Hstep.
        + by eapply IHr. }
    by apply (Hloop es tar').
Qed.

(** X7: every entry of the blob of [build_tree] is a readable file found
    below the walked directory: it carries the content of that file, its
    source is the path of the file, and its name is that path relative to
    the root. *)
Theorem walk_sound (rootdir : Path) (ign : gset Path) (dirpath : Path) (n : node)
    (e : entry) :
  e ∈ (walk rootdir ign dirpath n []).1 → archived rootdir dirpath n e.
Proof.
  intros [He|He]%walk_sound_in; [|done]. by apply elem_of_nil in He.
Qed.

Lemma walk_sound_witness :
  archived data_root (child data_root (lit "other"))
    (Dir [ (lit "z.txt", File true [3]) ]) entry_z.
Proof.
  apply (walk_sound data_root ∅ (child data_root (lit "other"))
           (Dir [ (lit "z.txt", File true [3]) ]) entry_z).
  vm_compute. left.
Defined.

Lemma add_files_ok rootdir ign dirpath es tar :
  under rootdir dirpath →
  (add_files rootdir ign dirpath es tar).2 = None ∧
  (∀ x, x ∈ tar → x ∈ (add_files rootdir ign dirpath es tar).1) ∧
  (∀ fname data,
     (fname, File true data) ∈ es → child dirpath fname ∉ ign →
     ∃ e, e ∈ (add_files rootdir ign dirpath es tar).1 ∧
          source e = child dirpath fname ∧ content e = data).
Proof.
  intros Hu. revert tar.
  induction es as [|[fname [rd data|l kids]] r IH]; intros tar.
  - split; [done|]. split; [done|]. intros f d Hin. by apply elem_of_nil in Hin.
  - cbn [add_files].
    destruct (decide (child dirpath fname ∈ ign)) as [Hi|Hi].
    { rewrite bool_decide_eq_true_2 by done.
      destruct (IH tar) as (Hn & Hg & Hc). split; [done|]. split; [done|].
      intros f d [[= -> _ ->]|Hin]%elem_of_cons Hf; [done|]. by apply Hc. }
    rewrite bool_decide_eq_false_2 by done.
    destruct rd; cbn [negb].
    + destruct (relative_to_under (child dirpath fname) rootdir) as [rel ->];
        [by apply under_child_r|].
      destruct (IH (tar ++ [mkEntry (Path_str rel) (child dirpath fname) data]))
        as (Hn & Hg & Hc).
      split; [done|]. split.
      * intros x Hx. apply Hg, elem_of_app. by left.
      * intros f d [[= -> ->]|Hin]%elem_of_cons Hf; [|by apply Hc].
        exists (mkEntry (Path_str rel) (child dirpath fname) data). split; [|done].
        apply Hg, elem_of_app. right. by apply list_elem_of_singleton.
    + destruct (IH tar) as (Hn & Hg & Hc). split; [done|]. split; [done|].
      intros f d [[=]|Hin]%elem_of_cons Hf. by apply Hc.
  - cbn [add_files]. destruct (IH tar) as (Hn & Hg & Hc).
    split; [done|]. split; [done|].
    intros f d [[=]|Hin]%elem_of_cons Hf. by apply Hc.
Qed.

Lemma at_path_file rd dt ps n : at_path (File rd dt) ps n → ps = [] ∧ n = File rd dt.
Proof. by inversion 1. Qed.

Lemma walk_ok rootdir ign n :
  ∀ dirpath tar,
    under rootdir dirpath →
    (walk rootdir ign dirpath n tar).2 = None ∧
    (∀ x, x ∈ tar → x ∈ (walk rootdir ign dirpath n tar).1) ∧
    (∀ ps data,
       ps ≠ [] → at_path n ps (File true data) →
       (∀ qs, qs `prefix_of` ps → extend dirpath qs ∉ ign) →
       ∃ e, e ∈ (walk rootdir ign dirpath n tar).1 ∧
            source e = extend dirpath ps ∧ content e = data).
Proof.
  induction n as [rd dt|es|es IH] using node_ind'; intros dirpath tar Hu.
  - split; [done|]. split; [done|].
    intros ps data Hne [-> _]%at_path_file. done.
  - split; [done|]. split; [done|].
    intros ps data Hne Hat. by inversion Hat; subst.
  - rewrite walk_Dir.
    destruct (decide (dirpath ∈ ign)) as [Hi|Hi].
    { rewrite bool_decide_eq_true_2 by done. split; [done|]. split; [done|].
      intros ps data _ _ Hclear. destruct (Hclear []); [apply prefix_nil|].
      by rewrite extend_nil. }
    rewrite bool_decide_eq_false_2 by done.
    destruct (add_files_ok rootdir ign dirpath es tar Hu) as (Hn & Hg & Hc).
    destruct (add_files rootdir ign dirpath es tar) as [tar0 err0].
    cbn [fst snd] in *. subst err0.
    rewrite Forall_forall in IH.
    assert (∀ l tar1,
              (∀ c, c ∈ l → c ∈ es) →
              (walk_subdirs rootdir ign dirpath l tar1).2 = None ∧
              (∀ x, x ∈ tar1 → x ∈ (walk_subdirs rootdir ign dirpath l tar1).1) ∧
              (∀ d sub ps data,
                 (d, sub) ∈ l → ps ≠ [] → at_path sub ps (File true data) →
                 (∀ qs, qs `prefix_of` ps → extend (child dirpath d) qs ∉ ign) →
                 ∃ e, e ∈ (walk_subdirs rootdir ign dirpath l tar1).1 ∧
                      source e = extend (child dirpath d) ps ∧ content e = data))
      as Hloop.
    { induction l as [|[d sub] r IHr]; intros tar1 Hsub.
      - split; [done|]. split; [done|].
        intros d sub ps data Hin. by apply elem_of_nil in Hin.
      - cbn [walk_subdirs].
        assert (∀ c, c ∈ r → c ∈ es) as Hsub' by (intros; apply Hsub; by right).
        destruct sub as [rd dt|l0 kids0].
        { destruct (IHr tar1 Hsub') as (Hn1 & Hg1 & Hc1).
          split; [done|]. split; [done|].
          intros d' sub ps data [[= -> ->]|Hin]%elem_of_cons Hne Hat.
          - by apply at_path_file in Hat as [? _].
          - by apply (Hc1 d' sub). }
        assert ((d, Directory l0 kids0) ∈ es) as Hin0 by (apply Hsub; left).
        destruct (IH _ Hin0 (child dirpath d) tar1 (under_child_r _ _ _ Hu))
          as (Hn0 & Hg0 & Hc0). cbn [snd] in *.
        assert (∀ ps data, ps ≠ [] → at_path (Directory l0 kids0) ps (File true data) →
                  (∀ qs, qs `prefix_of` ps → extend (child dirpath d) qs ∉ ign) →
                  ∃ e, e ∈ (walk rootdir ign (child dirpath d) (Directory l0 kids0) tar1).1 ∧
                       source e = extend (child dirpath d) ps ∧ content e = data)
          as Hc0' by exact Hc0.
        clear Hc0.
        destruct (walk rootdir ign (child dirpath d) (Directory l0 kids0) tar1)
          as [tar2 err2].
        cbn [fst snd] in *. subst err2.
        destruct (IHr tar2 Hsub') as (Hn1 & Hg1 & Hc1).
        split; [done|]. split; [by auto|].
        intros d' sub ps data [[= -> ->]|Hin]%elem_of_cons Hne Hat Hclear.
        + destruct (Hc0' ps data Hne Hat Hclear) as (e & He & Hs). eauto.
        + by apply (Hc1 d' sub). }
    destruct (Hloop es tar0) as (Hn1 & Hg1 & Hc1); [done|].
    split; [done|]. split; [by auto|].
    intros ps data Hne Hat Hclear. inversion Hat as [|es' p x ps' n' Hin Hat']; subst.
    destruct ps' as [|q ps''].
    + inversion Hat'; subst.
      destruct (Hc p data Hin) as (e & He & Hs).
      { rewrite child_extend. by apply Hclear. }
      exists e. split; [by apply Hg1|]. by rewrite <- child_extend.
    + destruct (Hc1 p x (q :: ps'') data Hin ltac:(done) Hat') as (e & He & Hs).
      { intros qs Hqs. rewrite extend_child. apply Hclear. by apply prefix_cons. }
      exists e. split; [done|]. by rewrite <- extend_child.
Qed.

(** X8: the walk of [build_tree] below the root never raises and loses
    nothing: every readable file that lies below the walked directory
    through directories that can be listed is in the blob with its content,
    provided neither the file, nor the walked directory, nor a directory in
    between is in the ignore set. *)
Theorem walk_complete (rootdir : Path) (ign : gset Path) (dirpath : Path) (n : node)
    (ps : list str) (data : bytes) :
  under rootdir dirpath →
  ps ≠ [] → at_path n ps (File true data) →
  (∀ qs, qs `prefix_of` ps → extend dirpath qs ∉ ign) →
  (walk rootdir ign dirpath n []).2 = None ∧
  ∃ e, e ∈ (walk rootdir ign dirpath n []).1 ∧
       source e = extend dirpath ps ∧ content e = data.
Proof.
  intros Hu Hne Hat Hclear.
  destruct (walk_ok rootdir ign n dirpath [] Hu) as (Hn & _ & Hc).
  split; [done|]. by apply Hc.
Qed.

Lemma walk_complete_witness :
  (walk data_root ∅ (child data_root (lit "projects")) (Dir projects_kids) []).2 = None ∧
  ∃ e, e ∈ (walk data_root ∅ (child data_root (lit "projects")) (Dir projects_kids) []).1 ∧
       source e = extend (child data_root (lit "projects")) [lit "a"; lit "x.txt"] ∧
       content e = [1].
Proof.
  apply (walk_complete data_root ∅ (child data_root (lit "projects"))
           (Dir projects_kids) [lit "a"; lit "x.txt"] [1]).
  - split; [done|]. exists [lit "projects"]. reflexivity.
  - discriminate.
  - unfold projects_kids. econstructor; [right; left|].
    econstructor; [left|constructor].
  - intros qs _. apply not_elem_of_empty.
Defined.

Lemma under_refl p : under p p.
Proof. split; done. Qed.

(** X9: in an absolute build directory, [build_tree] on a child directory
    either finds the blob name taken and raises [FileExistsError], leaving
    the build directory as it was, or adds exactly one blob, named after the
    sanitized directory name and holding the walk of the directory; nothing
    in the walked tree makes it raise. *)
Theorem build_tree_outcome (fs : tree) (rootdir builddir : Path) (name sane : str)
    (ign : gset Path) (bl : listing) :
  root builddir = true → sanitize name = Ok sane →
  build_tree fs rootdir builddir (rel1 name) ign bl =
  if bool_decide (sane ++ lit ".tar.bz2" ∈ names bl) then (bl, Some FileExistsError)
  else (bl ++ [(sane ++ lit ".tar.bz2",
                Blob (walk rootdir ign (child rootdir name) (subtree fs (rel1 name)) []).1)],
        None).
Proof.
  intros Hr Hsane. unfold build_tree. change (Path_str (rel1 name)) with name.
  rewrite Hsane, get_name_absolute by eauto using sanitize_no_slash.
  rewrite create_child. destruct (bool_decide _); [done|].
  rewrite joinpath_name.
  destruct (walk_ok rootdir ign (subtree fs (rel1 name)) (child rootdir name) [])
    as (Hn & _); [apply under_child_r, under_refl|].
  destruct (walk rootdir ign (child rootdir name) _ []) as [tar err].
  cbn in Hn. by subst.
Qed.

Lemma build_tree_outcome_witness :
  build_tree data_fs data_root build_root (rel1 (lit "other")) ∅ [] =
  if bool_decide (lit "other" ++ lit ".tar.bz2" ∈ names [])
  then ([], Some FileExistsError)
  else ([] ++ [(lit "other" ++ lit ".tar.bz2",
                Blob (walk data_root ∅ (child data_root (lit "other"))
                        (subtree data_fs (rel1 (lit "other"))) []).1)],
        None).
Proof.
  apply (build_tree_outcome data_fs data_root build_root (lit "other") (lit "other") ∅ []).
  - reflexivity.
  - vm_compute. reflexivity.
Defined.

Lemma pack_add_omap fs rootdir ns tar :
  pack_add fs rootdir (map rel1 ns) tar = tar ++ omap (loose_entry fs rootdir) ns.
Proof.
  revert tar. induction ns as [|n r IH]; intros tar; cbn [map pack_add omap list_omap].
  - by rewrite app_nil_r.
  - unfold loose_entry at 1. cbn [rel1 parts lookup_rel].
    destruct (lookup_name n fs) as [[[|] data|l kids]|]; rewrite IH; [|done..].
    by rewrite <- app_assoc.
Qed.

(** X10: in an absolute build directory, [pack_files] does nothing for an
    empty list; otherwise it raises [FileExistsError] when
    [_packed_files.tar.bz2] is taken, and else adds that one blob, holding
    the readable files of the list in the order of the list, each under its
    own name. The blob is written even when no file of the list is
    readable. *)
Theorem pack_files_outcome (fs : tree) (rootdir builddir : Path) (ns : list str)
    (bl : listing) :
  root builddir = true →
  pack_files fs rootdir builddir (map rel1 ns) bl =
  match ns with
  | [] => (bl, None)
  | _ =>
      if bool_decide (lit "_packed_files.tar.bz2" ∈ names bl)
      then (bl, Some FileExistsError)
      else (bl ++ [(lit "_packed_files.tar.bz2",
                    Blob (omap (loose_entry fs rootdir) ns))], None)
  end.
Proof.
  intros Hr. destruct ns as [|n r]; [done|].
  unfold pack_files. cbn [map].
  rewrite get_name_absolute; [|done|repeat constructor; discriminate].
  change (lit "_packed_files" ++ lit ".tar.bz2") with (lit "_packed_files.tar.bz2").
  rewrite create_child. destruct (bool_decide _); [done|].
  change (rel1 n :: map rel1 r) with (map rel1 (n :: r)).
  by rewrite pack_add_omap.
Qed.

Lemma pack_files_outcome_witness :
  pack_files data_fs data_root build_root (map rel1 [lit "notes.txt"]) [] =
  if bool_decide (lit "_packed_files.tar.bz2" ∈ names [])
  then ([], Some FileExistsError)
  else ([] ++ [(lit "_packed_files.tar.bz2",
                Blob (omap (loose_entry data_fs data_root) [lit "notes.txt"]))], None).
Proof. apply (pack_files_outcome data_fs data_root build_root [lit "notes.txt"] []). reflexivity. Defined.

(** ** The partitioner: the build area it leaves *)

Lemma build_tree_step fs rootdir builddir name ign bl :
  wf_listing bl →
  wf_listing (build_tree fs rootdir builddir (rel1 name) ign bl).1 ∧
  creation_exn (build_tree fs rootdir builddir (rel1 name) ign bl).2.
Proof.
  intros Hwf. unfold build_tree, creation_exn. change (Path_str (rel1 name)) with name.
  destruct (sanitize name) as [sane|e] eqn:Hsane.
  2:{ apply sanitize_raises_iff in Hsane as [_ ->]. cbn. tauto. }
  destruct (get_name_total sane builddir (names bl)) as [p Hp]. rewrite Hp.
  destruct (get_name_child _ _ _ _ (sanitize_no_slash _ _ Hsane) Hp) as [k ->].
  rewrite create_child.
  destruct (decide (candidate_name sane k ∈ names bl)) as [Hin|Hin].
  { rewrite bool_decide_eq_true_2 by done. cbn. tauto. }
  rewrite bool_decide_eq_false_2 by done. rewrite joinpath_name.
  destruct (walk_ok rootdir ign (subtree fs (rel1 name)) (child rootdir name) [])
    as (Hn & _); [apply under_child_r, under_refl|].
  destruct (walk rootdir ign (child rootdir name) _ []) as [tar err].
  cbn in *. subst err. split; [|tauto].
  constructor; [done..|]. exists sane, k. split; [right; eauto|done].
Qed.

Lemma pack_files_step fs rootdir builddir all_files bl :
  wf_listing bl →
  wf_listing (pack_files fs rootdir builddir all_files bl).1 ∧
  creation_exn (pack_files fs rootdir builddir all_files bl).2.
Proof.
  intros Hwf. unfold pack_files, creation_exn.
  destruct all_files as [|a r]; [cbn; tauto|].
  assert (Forall (fun c => c ≠ 47) (lit "_packed_files")) as Hb
    by (repeat constructor; discriminate).
  destruct (get_name_total (lit "_packed_files") builddir (names bl)) as [p Hp].
  rewrite Hp. destruct (get_name_child _ _ _ _ Hb Hp) as [k ->].
  rewrite create_child.
  destruct (decide (candidate_name (lit "_packed_files") k ∈ names bl)) as [Hin|Hin].
  { rewrite bool_decide_eq_true_2 by done. cbn. tauto. }
  rewrite bool_decide_eq_false_2 by done. cbn. split; [|tauto].
  constructor; [done..|]. exists (lit "_packed_files"), k. split; [by left|done].
Qed.

Lemma explore_loop_wf fs rootdir builddir gl ign children :
  Forall (fun c : str * node * explorer =>
            ∀ l kids, c.1.2 = Directory l kids →
            ∀ r b g, wf_listing (c.2 r b g ign).1 ∧ creation_exn (c.2 r b g ign).2)
    children →
  ∀ all_files bl,
    wf_listing bl →
    wf_listing (explore_loop fs rootdir builddir gl ign children all_files bl).1 ∧
    creation_exn (explore_loop fs rootdir builddir gl ign children all_files bl).2.
Proof.
  induction 1 as [|[[name n] ex] rest Hex _ IH]; intros all_files bl Hbl.
  - cbn [explore_loop]. by apply pack_files_step.
  - cbn [explore_loop fst snd] in *.
    destruct (bool_decide (child rootdir name ∈ ign)); [by apply IH|].
    rewrite relative_to_child.
    destruct n as [rd dt|l kids]; [by apply IH|].
    destruct (group_match gl (child rootdir name)).
    + change (Path_str (rel1 name)) with name.
      destruct (sanitize name) as [sane|e] eqn:Hsane.
      2:{ apply sanitize_raises_iff in Hsane as [_ ->]. cbn.
          unfold creation_exn. tauto. }
      rewrite (sanitize_path_name _ _ Hsane), joinpath_name, create_child.
      destruct (decide (sane ∈ names bl)) as [Hin|Hin].
      { rewrite bool_decide_eq_true_2 by done. cbn. unfold creation_exn. tauto. }
      rewrite bool_decide_eq_false_2 by done.
      destruct (Hex l kids eq_refl (child rootdir name) (child builddir sane)
                  (group_levels_sub gl)) as [Hsub Herr].
      destruct (ex (child rootdir name) (child builddir sane) (group_levels_sub gl) ign)
        as [sub err]. cbn [fst snd] in *.
      assert (wf_listing (bl ++ [(sane, BDir sub)])) as Hbl'.
      { constructor; [done..| |done]. by exists name. }
      destruct err as [e|]; [done|]. by apply IH.
    + destruct (build_tree_step fs rootdir builddir name ign bl Hbl) as [Hwf Herr].
      destruct (build_tree fs rootdir builddir (rel1 name) ign bl) as [bl' [e|]];
        [done|]. by apply IH.
Qed.

Lemma explore_wf fs :
  ∀ rootdir builddir gl ign,
    wf_listing (explore fs rootdir builddir gl ign).1 ∧
    creation_exn (explore fs rootdir builddir gl ign).2.
Proof.
  unfold explore.
  assert (∀ n l kids, n = Directory l kids →
            ∀ r b g ign, wf_listing (explore_node n r b g ign).1 ∧
                         creation_exn (explore_node n r b g ign).2) as H;
    [|intros; by eapply H].
  induction n as [rd dt|es|es IH] using node_ind'; intros l kids Hn r b g ign; [done| |].
  { rewrite explore_node_unlistable. split; [constructor|]. unfold creation_exn. tauto. }
  rewrite explore_node_Dir. apply explore_loop_wf; [|constructor].
  rewrite sorted_by_perm. unfold with_explorers. apply Forall_fmap.
  eapply Forall_impl; [exact IH|].
  intros [name sub] Hsub l' kids' Hk r' b' g'. cbn in *. by eapply Hsub.
Qed.

Lemma names_snoc bl n b : names (bl ++ [(n, b)]) = names bl ++ [n].
Proof. unfold names. by rewrite map_app. Qed.

Lemma all_levels_snoc P bl n b :
  all_levels P bl → P (bl ++ [(n, b)]) →
  (∀ sub, b = BDir sub → all_levels P sub) →
  all_levels P (bl ++ [(n, b)]).
Proof.
  intros Hbl HP Hb. constructor; [done|].
  intros d sub [Hin|Hin]%elem_of_app.
  - inversion Hbl as [? _ Hsub]. by eapply Hsub.
  - apply list_elem_of_singleton in Hin as [= -> <-]. by apply Hb.
Qed.

Lemma wf_listing_NoDup bl : wf_listing bl → NoDup (names bl).
Proof.
  induction 1; [constructor|..]; rewrite names_snoc;
    (apply NoDup_app; split; [done|split; [|apply NoDup_singleton]]);
    intros x Hx ->%list_elem_of_singleton; done.
Qed.

(** X12: [explore] never creates a name twice: in the build directory it
    leaves, and in every directory below it, the names are pairwise
    distinct, whether the run ended with an exception or not. *)
Theorem explore_names_distinct (fs : tree) (rootdir builddir : Path)
    (gl : gmap Path Z) (ign : gset Path) :
  all_levels (fun bl => NoDup (names bl)) (explore fs rootdir builddir gl ign).1.
Proof.
  destruct (explore_wf fs rootdir builddir gl ign) as [Hwf _].
  induction Hwf as [|bl f es Hwf IH Hf Hname|bl d sub Hwf IH Hd Hname Hsub IHsub].
  - constructor; [constructor|]. intros d sub Hin. by apply elem_of_nil in Hin.
  - apply all_levels_snoc; [done| |done].
    apply wf_listing_NoDup. by constructor.
  - apply all_levels_snoc; [done| |by intros ? [= <-]].
    apply wf_listing_NoDup. by constructor.
Qed.

Lemma not_escaped_safe c :
  must_escape c = false → (c ∉ DROPBOX_FORBIDDEN) ∧ c <= 65535.
Proof.
  unfold must_escape. intros [H1 H2]%orb_false_iff.
  apply bool_decide_eq_false in H1. apply N.ltb_ge in H2. done.
Qed.

Lemma dropbox_safe_intro f :
  f ≠ [] → Forall (fun c => must_escape c = false) f →
  last f ≠ Some 46 → last f ≠ Some 32 → dropbox_safe f.
Proof.
  intros Hne Hall H1 H2. split; [done|]. split; [|done].
  eapply Forall_impl; [exact Hall|]. apply not_escaped_safe.
Qed.

Lemma dir_name_safe d : dir_name d → dropbox_safe d.
Proof.
  intros [name [Hne ->]%sanitize_ok].
  destruct (exists_last Hne) as (s & c & ->).
  destruct (san_last s c) as (x & Hx & H1 & H2).
  apply dropbox_safe_intro; [by apply san_nonempty | apply san_chars | ..];
    rewrite Hx; congruence.
Qed.

Lemma digit_not_escaped c : 48 <= c <= 57 → must_escape c = false.
Proof. intros Hc. apply not_true_is_false. rewrite must_escape_spec. lia. Qed.

Lemma str_of_int_not_escaped n : Forall (fun c => must_escape c = false) (str_of_int n).
Proof.
  unfold str_of_int. apply Forall_rev.
  generalize (S (N.to_nat (N.log2 n))). intros f. revert n.
  induction f as [|f IH]; intros n; cbn [dec_rev]; [constructor|].
  constructor.
  - apply digit_not_escaped. pose proof (N.mod_lt n 10 ltac:(lia)) as Hm.
    revert Hm. generalize (n mod 10). intros; lia.
  - destruct (n / 10 =? 0); [constructor | apply IH].
Qed.

Lemma blob_name_safe f : blob_name f → dropbox_safe f.
Proof.
  intros (basename & k & Hb & ->).
  assert (Forall (fun c => must_escape c = false) basename) as Hbase.
  { destruct Hb as [->|[name [_ ->]%sanitize_ok]]; [|apply san_chars].
    apply Forall_forall. intros c Hc. apply list_elem_of_In in Hc.
    vm_compute in Hc. intuition (subst; reflexivity). }
  assert (Forall (fun c => must_escape c = false) (lit ".tar.bz2")) as Hext
    by (repeat constructor).
  pose proof (candidate_name_length basename k) as Hlen.
  apply dropbox_safe_intro.
  - intros Hn. rewrite Hn in Hlen. simpl in Hlen. lia.
  - unfold candidate_name. destruct (k =? 0).
    + apply Forall_app. split; done.
    + apply Forall_app. split; [done|].
      apply Forall_app. split; [repeat constructor|].
      apply Forall_app. split; [apply str_of_int_not_escaped|done].
  - unfold candidate_name. destruct (k =? 0); rewrite ?app_assoc;
      rewrite last_app_nonempty; discriminate.
  - unfold candidate_name. destruct (k =? 0); rewrite ?app_assoc;
      rewrite last_app_nonempty; discriminate.
Qed.

Lemma wf_listing_safe bl : wf_listing bl → Forall dropbox_safe (names bl).
Proof.
  induction 1 as [|bl f es _ IH _ Hname|bl d sub _ IH _ Hname _ _].
  - by apply Forall_nil.
  - rewrite names_snoc. apply Forall_app. split; [done|].
    apply Forall_singleton. by apply blob_name_safe.
  - rewrite names_snoc. apply Forall_app. split; [done|].
    apply Forall_singleton. by apply dir_name_safe.
Qed.

(** X13: every name that [explore] creates in the build area, at any depth,
    is accepted by the storage backend: it is not empty, holds no forbidden
    character and no character above 0xFFFF, and does not end in a dot or a
    space. *)
Theorem explore_names_safe (fs : tree) (rootdir builddir : Path)
    (gl : gmap Path Z) (ign : gset Path) :
  all_levels (fun bl => Forall dropbox_safe (names bl))
    (explore fs rootdir builddir gl ign).1.
Proof.
  destruct (explore_wf fs rootdir builddir gl ign) as [Hwf _].
  induction Hwf as [|bl f es Hwf IH Hf Hname|bl d sub Hwf IH Hd Hname Hsub IHsub].
  - constructor; [constructor|]. intros d sub Hin. by apply elem_of_nil in Hin.
  - apply all_levels_snoc; [done| |done].
    apply wf_listing_safe. by constructor.
  - apply all_levels_snoc; [done| |by intros ? [= <-]].
    apply wf_listing_safe. by constructor.
Qed.

(** ** The partitioner: nothing is lost *)

Lemma entries_of_member bl f b e :
  (f, b) ∈ bl → e ∈ bnode_entries b → e ∈ listing_entries bl.
Proof.
  induction bl as [|[n x] bl IH]; intros Hin He; [by apply elem_of_nil in Hin|].
  rewrite listing_entries_cons. apply elem_of_app.
  apply elem_of_cons in Hin as [[= <- <-]|Hin]; [by left|]. right. by apply IH.
Qed.

Lemma pack_files_ok fs rootdir builddir ns bl bl' :
  ns ≠ [] →
  pack_files fs rootdir builddir (map rel1 ns) bl = (bl', None) →
  ∃ f, bl' = bl ++ [(f, Blob (omap (loose_entry fs rootdir) ns))].
Proof.
  intros Hne. unfold pack_files. destruct ns as [|n r]; [done|]. cbn [map].
  change (rel1 n :: map rel1 r) with (map rel1 (n :: r)). rewrite pack_add_omap.
  destruct (_get_name _ builddir (names bl)) as [p|]; [|done].
  destruct (create builddir bl p) as [f|]; [|done].
  intros [= <-]. by exists f.
Qed.

(** What a successful run of the loop has done with the loose files: those
    seen before ([ns]) and those still among the children. *)
Lemma explore_loop_files fs rootdir builddir gl ign children :
  ∀ ns bl bl',
    explore_loop fs rootdir builddir gl ign children (map rel1 ns) bl = (bl', None) →
    ∀ n e,
      (n ∈ ns ∨
       ∃ rd dt ex, (n, File rd dt, ex) ∈ children ∧ child rootdir n ∉ ign) →
      loose_entry fs rootdir n = Some e →
      ∃ f es, (f, Blob es) ∈ bl' ∧ e ∈ es.
Proof.
  induction children as [|[[name0 n0] ex0] rest IH]; intros ns bl bl' Hrun n e Hn He.
  - cbn [explore_loop] in Hrun.
    destruct Hn as [Hn|(rd & dt & ex & Hin & _)]; [|by apply elem_of_nil in Hin].
    destruct (pack_files_ok fs rootdir builddir ns bl bl') as [f ->]; [|done|].
    { intros ->. by apply elem_of_nil in Hn. }
    exists f, (omap (loose_entry fs rootdir) ns). split.
    + apply elem_of_app. right. by apply list_elem_of_singleton.
    + apply list_elem_of_omap. eauto.
  - cbn [explore_loop] in Hrun.
    destruct (decide (child rootdir name0 ∈ ign)) as [Hi|Hi].
    { rewrite bool_decide_eq_true_2 in Hrun by done.
      apply (IH _ _ _ Hrun n e); [|done].
      destruct Hn as [Hn|(rd & dt & ex & [[= -> _ _]|Hin]%elem_of_cons & Hc)];
        [by left|done|right; eauto]. }
    rewrite bool_decide_eq_false_2, relative_to_child in Hrun by done.
    assert (n ∈ ns ∨ (∃ rd dt ex, (n, File rd dt, ex) ∈ rest ∧ child rootdir n ∉ ign)
            ∨ (∃ rd dt, n0 = File rd dt ∧ n = name0)) as Hn'.
    { destruct Hn as [Hn|(rd & dt & ex & [[= -> <- _]|Hin]%elem_of_cons & Hc)];
        [by left| right; right; eauto | right; left; eauto]. }
    clear Hn.
    destruct n0 as [rd dt|l0 kids0].
    { replace (map rel1 ns ++ [rel1 name0]) with (map rel1 (ns ++ [name0])) in Hrun
        by by rewrite map_app.
      apply (IH _ _ _ Hrun n e); [|done].
      destruct Hn' as [Hn|[Hn|(rd' & dt' & _ & ->)]].
      - left. apply elem_of_app. by left.
      - by right.
      - left. apply elem_of_app. right. by apply list_elem_of_singleton. }
    assert (n ∈ ns ∨ ∃ rd dt ex, (n, File rd dt, ex) ∈ rest ∧ child rootdir n ∉ ign)
      as Hn by (destruct Hn' as [?|[?|(? & ? & [=] & _)]]; tauto).
    destruct (group_match gl (child rootdir name0)).
    + change (Path_str (rel1 name0)) with name0 in Hrun.
      destruct (sanitize name0) as [sane|]; [|done].
      destruct (create builddir bl _) as [d|]; [|done].
      destruct (ex0 _ _ _ _) as [sub [err|]]; [done|].
      by apply (IH _ _ _ Hrun n e).
    + destruct (build_tree fs rootdir builddir (rel1 name0) ign bl) as [bl1 [err|]];
        [done|].
      by apply (IH _ _ _ Hrun n e).
Qed.

Lemma explore_complete_node n :
  ∀ es, n = Dir es →
  ∀ rootdir builddir gl ign bl ps data,
    distinct_tree n →
    explore es rootdir builddir gl ign = (bl, None) →
    ps ≠ [] → at_path n ps (File true data) →
    (∀ qs, qs ≠ [] → qs `prefix_of` ps → extend rootdir qs ∉ ign) →
    ∃ e, e ∈ listing_entries bl ∧ source e = extend rootdir ps ∧ content e = data.
Proof.
  induction n as [rd dt|fs|fs IH] using node_ind'; [done|done|].
  intros es [= <-] rootdir builddir gl ign bl ps data Hd Hrun Hne Hat Hclear.
  inversion Hd as [|? ? Hnd Hkids]; subst.
  inversion Hat as [|? p x ps' ? Hin Hat']; subst.
  assert (child rootdir p ∉ ign) as Hp.
  { rewrite child_extend. apply Hclear; [done|]. by apply prefix_cons, prefix_nil. }
  unfold explore in Hrun. rewrite explore_node_Dir in Hrun.
  destruct ps' as [|q ps''].
  - inversion Hat'; subst.
    destruct (explore_loop_files _ _ _ _ _ _ [] _ _ Hrun p
                (mkEntry p (child rootdir p) data)) as (f & es & Hf & He).
    + right. exists true, data, (explore_node (File true data)). split; [|done].
      rewrite sorted_by_perm. unfold with_explorers.
      apply list_elem_of_fmap. by exists (p, File true data).
    + unfold loose_entry. by rewrite (lookup_name_NoDup fs p (File true data)).
    + exists (mkEntry p (child rootdir p) data). split; [|done].
      by apply (entries_of_member bl f (Blob es)).
  - destruct x as [rd dt|l kids]; [by apply at_path_file in Hat' as [? _]|].
    apply explore_loop_ok in Hrun as [_ Hdone].
    destruct (Hdone p l kids (explore_node (Directory l kids)))
      as (sane & Hsane & Hcase); [|done|].
    { rewrite sorted_by_perm. unfold with_explorers.
      apply list_elem_of_fmap. by exists (p, Directory l kids). }
    destruct (group_match gl (child rootdir p)).
    + destruct Hcase as (sub & Hsub & Hrun').
      destruct l; [|done].
      rewrite Forall_forall in IH.
      destruct (IH _ Hin kids eq_refl (child rootdir p) (child builddir sane)
                  (group_levels_sub gl) ign sub (q :: ps'') data)
        as (e & He & Hs & Hc); [by eapply Hkids|done|done|done| |].
      { intros qs Hq Hpre. rewrite extend_child. apply Hclear; [done|].
        by apply prefix_cons. }
      exists e. split; [|by rewrite <- extend_child].
      by apply (entries_of_member bl sane (BDir sub)).
    + destruct Hcase as (f & Hf & _).
      assert (subtree fs (rel1 p) = Directory l kids) as Htop.
      { unfold subtree. cbn [rel1 parts lookup_rel].
        by rewrite (lookup_name_NoDup fs p (Directory l kids)). }
      rewrite Htop in Hf.
      destruct (walk_ok rootdir ign (Directory l kids) (child rootdir p) [])
        as (_ & _ & Hc); [apply under_child_r, under_refl|].
      destruct (Hc (q :: ps'') data) as (e & He & Hs & Hcont); [done|done| |].
      { intros qs Hpre. rewrite extend_child. apply Hclear; [done|].
        by apply prefix_cons. }
      exists e. split; [|by rewrite <- extend_child].
      eapply entries_of_member; [exact Hf | exact He].
Qed.

(** X14: a run of [explore] that ends without exception loses nothing: every
    readable file that lies in the source tree through directories that can
    be listed is an entry of some blob, with its content, provided neither
    the file nor a directory above it, up to the children of the root, is in
    the ignore set. *)
Theorem explore_complete (fs : tree) (rootdir builddir : Path) (gl : gmap Path Z)
    (ign : gset Path) (bl : listing) (ps : list str) (data : bytes) :
  distinct_tree (Dir fs) →
  explore fs rootdir builddir gl ign = (bl, None) →
  ps ≠ [] → at_path (Dir fs) ps (File true data) →
  (∀ qs, qs ≠ [] → qs `prefix_of` ps → extend rootdir qs ∉ ign) →
  ∃ e, e ∈ listing_entries bl ∧ source e = extend rootdir ps ∧ content e = data.
Proof. intros. by eapply explore_complete_node. Qed.

Ltac solve_distinct :=
  lazymatch goal with
  | |- distinct_tree (File _ _) => constructor
  | |- distinct_tree (Dir _) =>
      constructor;
      [ apply (bool_decide_unpack _); vm_compute; exact I
      | let n := fresh "n" in
        let x := fresh "x" in
        let H := fresh "H" in
        intros n x H; apply list_elem_of_In in H; simpl in H;
        repeat (destruct H as [H|H]; [injection H as <- <-; solve_distinct|]);
        destruct H ]
  end.

Lemma data_fs_distinct : distinct_tree (Dir data_fs).
Proof. unfold data_fs. solve_distinct. Qed.

Lemma explore_complete_witness :
  ∃ e, e ∈ listing_entries data_build ∧
       source e = extend data_root [lit "projects"; lit "a"; lit "x.txt"] ∧
       content e = [1].
Proof.
  apply (explore_complete data_fs data_root build_root projects_levels ∅ data_build
           [lit "projects"; lit "a"; lit "x.txt"] [1]).
  - apply data_fs_distinct.
  - vm_compute. reflexivity.
  - discriminate.
  - unfold data_fs. econstructor; [left|].
    econstructor; [right; left|]. econstructor; [left|constructor].
  - intros qs _ _. apply not_elem_of_empty.
Defined.

(** ** The partitioner: how deep it groups *)

Lemma listing_depth_cons n b bl :
  listing_depth ((n, b) :: bl) = (bnode_depth b `max` listing_depth bl)%nat.
Proof. reflexivity. Qed.

Lemma listing_depth_snoc bl n b :
  listing_depth (bl ++ [(n, b)]) = (listing_depth bl `max` bnode_depth b)%nat.
Proof.
  induction bl as [|[m x] bl IH].
  - cbn [app]. rewrite listing_depth_cons. change (listing_depth []) with 0%nat. lia.
  - cbn [app]. rewrite !listing_depth_cons, IH. lia.
Qed.

Lemma bnode_depth_BDir bl : bnode_depth (BDir bl) = S (listing_depth bl).
Proof. reflexivity. Qed.

Lemma bnode_depth_Blob es : bnode_depth (Blob es) = 0%nat.
Proof. reflexivity. Qed.

Lemma explore_loop_depth fs rootdir builddir gl ign n children :
  (∀ k v, gl !! k = Some v → (1 <= n)%nat ∧ (v <= Z.of_nat n)%Z) →
  Forall (fun c : str * node * explorer =>
            ∀ l kids, c.1.2 = Directory l kids →
            ∀ r b m, n = S m → (listing_depth (c.2 r b (group_levels_sub gl) ign).1 <= m)%nat)
    children →
  ∀ all_files bl,
    (listing_depth bl <= n)%nat →
    (listing_depth
       (explore_loop fs rootdir builddir gl ign children all_files bl).1 <= n)%nat.
Proof.
  intros Hgl. induction 1 as [|[[name c] ex] rest Hex _ IH]; intros all_files bl Hbl.
  - cbn [explore_loop].
    destruct (pack_files_shape fs rootdir builddir all_files bl) as [->|[f ->]];
      [done|].
    rewrite listing_depth_snoc, bnode_depth_Blob. lia.
  - cbn [explore_loop fst snd] in *.
    destruct (bool_decide (child rootdir name ∈ ign)); [by apply IH|].
    rewrite relative_to_child.
    destruct c as [rd dt|l kids]; [by apply IH|].
    destruct (group_match gl (child rootdir name)) eqn:Hm.
    + destruct (sanitize (Path_str (rel1 name))) as [sane|]; [|done].
      destruct (create builddir bl _) as [d|]; [|done].
      apply group_match_spec in Hm as (k & v & Hk & _).
      destruct (Hgl k v Hk) as [Hn _]. destruct n as [|m]; [lia|].
      specialize (Hex l kids eq_refl (child rootdir name)
                    (builddir </> Path_of_str sane) m eq_refl).
      destruct (ex _ _ _ _) as [sub err]. cbn [fst] in Hex.
      assert (listing_depth (bl ++ [(d, BDir sub)]) <= S m)%nat as Hbl'.
      { rewrite listing_depth_snoc, bnode_depth_BDir. lia. }
      destruct err; [done|]. by apply IH.
    + assert (listing_depth (build_tree fs rootdir builddir (rel1 name) ign bl).1 <= n)%nat
        as Hbl'.
      { destruct (build_tree_shape fs rootdir builddir (rel1 name) ign bl)
          as [->|(f & top & ->)]; [done|].
        rewrite listing_depth_snoc, bnode_depth_Blob. lia. }
      destruct (build_tree fs rootdir builddir (rel1 name) ign bl) as [bl' [e|]];
        [done|]. by apply IH.
Qed.

Lemma group_levels_sub_bound gl m :
  (∀ k v, gl !! k = Some v → (1 <= S m)%nat ∧ (v <= Z.of_nat (S m))%Z) →
  ∀ k v, group_levels_sub gl !! k = Some v → (1 <= m)%nat ∧ (v <= Z.of_nat m)%Z.
Proof.
  intros Hgl k v [Hpos Hk]%group_levels_sub_spec.
  destruct (Hgl _ _ Hk) as [_ Hv]. lia.
Qed.

Lemma explore_node_depth c :
  ∀ l kids, c = Directory l kids →
  ∀ n gl rootdir builddir ign,
    (∀ k v, gl !! k = Some v → (1 <= n)%nat ∧ (v <= Z.of_nat n)%Z) →
    (listing_depth (explore_node c rootdir builddir gl ign).1 <= n)%nat.
Proof.
  induction c as [rd dt|es|es IH] using node_ind'; [done| |].
  { intros l kids _ n gl rootdir builddir ign Hgl. rewrite explore_node_unlistable.
    cbn [fst]. change (listing_depth []) with 0%nat. lia. }
  intros l kids _ n gl rootdir builddir ign Hgl.
  rewrite explore_node_Dir.
  apply explore_loop_depth; [done| |change (listing_depth []) with 0%nat; lia].
  rewrite sorted_by_perm. unfold with_explorers. apply Forall_fmap.
  eapply Forall_impl; [exact IH|].
  intros [name sub] Hsub l' kids' Hk r b m ->. cbn in *.
  eapply Hsub; [done|]. by apply group_levels_sub_bound.
Qed.

(** X15: the budgets bound the depth of the build area: when every budget of
    [group_levels] is at most [n] (and [n] is at least 1 if there is any
    key), the directories that [explore] creates nest at most [n] deep; with
    no key at all, the build directory holds blobs only. *)
Theorem explore_depth (fs : tree) (rootdir builddir : Path) (gl : gmap Path Z)
    (ign : gset Path) (n : nat) :
  (∀ k v, gl !! k = Some v → (1 <= n)%nat ∧ (v <= Z.of_nat n)%Z) →
  (listing_depth (explore fs rootdir builddir gl ign).1 <= n)%nat.
Proof. intros Hgl. by eapply explore_node_depth. Qed.

Lemma explore_depth_witness :
  (listing_depth (explore data_fs data_root build_root projects_levels ∅).1 <= 1)%nat.
Proof.
  apply (explore_depth data_fs data_root build_root projects_levels ∅ 1).
  intros k v Hk. unfold projects_levels in Hk.
  apply lookup_singleton_Some in Hk as [_ <-]. split; [apply le_n | discriminate].
Defined.

(** ** [main]: what a validated configuration guarantees *)

Section Config.
Variable int_of_str : str → result Z.
Variable machine : node.

Lemma load_ignore_raises rootdir l acc e :
  load_ignore machine rootdir l acc = Raise e → ∃ msg, e = ValueError msg.
Proof.
  revert acc. induction l as [|s l IH]; intros acc; [done|].
  cbn [load_ignore].
  destruct (root (Path_of_str s)); [intros [= <-]; eauto|].
  destruct (path_exists machine _); cbn [negb]; [apply IH|intros [= <-]; eauto].
Qed.

Lemma load_group_levels_raises rootdir items acc e :
  load_group_levels int_of_str machine rootdir items acc = Raise e →
  ∃ msg, e = ValueError msg.
Proof.
  revert acc. induction items as [|[s value] items IH]; intros acc; [done|].
  cbn [load_group_levels].
  destruct (path_exists machine _); cbn [negb]; [|intros [= <-]; eauto].
  destruct (path_is_dir machine _); cbn [negb]; [|intros [= <-]; eauto].
  destruct (1 <? length (Path_parts (Path_of_str s)))%nat; [intros [= <-]; eauto|].
  destruct (int int_of_str value); [apply IH|intros [= <-]; eauto].
Qed.

Lemma check_nesting_raises rootdir ign dirs e :
  check_nesting rootdir ign dirs = Raise e → ∃ msg, e = ValueError msg.
Proof.
  induction dirs as [|[d name] dirs IH]; [done|]. cbn [check_nesting].
  destruct (_ && _); [intros [= <-]; eauto|apply IH].
Qed.

Lemma validate_raises cfg e :
  validate int_of_str machine cfg = Raise e → ∃ msg, e = ValueError msg.
Proof.
  unfold validate.
  destruct (root (Path_of_str (cfg_rootdir cfg))); cbn [negb]; [|intros [= <-]; eauto].
  destruct (root (Path_of_str (cfg_builddir cfg))); cbn [negb]; [|intros [= <-]; eauto].
  destruct (root (Path_of_str (cfg_syncdir cfg))); cbn [negb]; [|intros [= <-]; eauto].
  destruct (load_ignore _ _ _ _) as [ign|e1] eqn:H1; cbn [mbind result_bind].
  2:{ intros [= <-]. by eapply load_ignore_raises. }
  destruct (load_group_levels _ _ _ _ _) as [gl|e2] eqn:H2.
  2:{ intros [= <-]. by eapply load_group_levels_raises. }
  destruct (check_nesting _ _ _) as [[]|e3] eqn:H3; [done|].
  intros [= <-]. by eapply check_nesting_raises.
Qed.

Lemma validate_inv cfg v :
  validate int_of_str machine cfg = Ok v →
  root (v_rootdir v) = true ∧ root (v_builddir v) = true ∧ root (v_syncdir v) = true ∧
  load_ignore machine (v_rootdir v) (cfg_ignore_list cfg) ∅ = Ok (v_to_ignore v) ∧
  load_group_levels int_of_str machine (v_rootdir v) (cfg_group_levels cfg) ∅
    = Ok (v_group_levels v) ∧
  check_nesting (v_rootdir v) (v_to_ignore v)
    [(v_builddir v, "build"%string); (v_syncdir v, "sync"%string)] = Ok ().
Proof.
  unfold validate.
  destruct (root (Path_of_str (cfg_rootdir cfg))) eqn:H1; [|done].
  destruct (root (Path_of_str (cfg_builddir cfg))) eqn:H2; [|done].
  destruct (root (Path_of_str (cfg_syncdir cfg))) eqn:H3; [|done].
  cbn [negb].
  destruct (load_ignore _ _ _ _) as [ign|] eqn:Hign; [|done].
  cbn [mbind result_bind].
  destruct (load_group_levels _ _ _ _ _) as [gl|] eqn:Hgl; [|done].
  destruct (check_nesting _ _ _) as [[]|] eqn:Hnest; [|done].
  intros [= <-]. done.
Qed.

Lemma load_group_levels_sound rootdir items acc gl :
  load_group_levels int_of_str machine rootdir items acc = Ok gl →
  ∀ k b, gl !! k = Some b →
    acc !! k = Some b ∨
    (path_is_dir machine k = true ∧
     ∃ s, s ∈ items.*1 ∧ k = rootdir </> Path_of_str s ∧
          (length (Path_parts (Path_of_str s)) <= 1)%nat).
Proof.
  revert acc. induction items as [|[s value] items IH]; intros acc Hload k b Hk.
  - injection Hload as <-. by left.
  - cbn [load_group_levels] in Hload.
    destruct (path_exists machine _); cbn [negb] in Hload; [|done].
    destruct (path_is_dir machine _) eqn:Hdir; cbn [negb] in Hload; [|done].
    destruct (Nat.ltb_spec 1 (length (Path_parts (Path_of_str s)))) as [Hlen|Hlen];
      [done|].
    destruct (int int_of_str value) as [z|]; [|done].
    destruct (IH _ Hload k b Hk) as [Hacc|(Hd & s' & Hs' & Hks)].
    + apply lookup_insert_Some in Hacc as [[<- <-]|[_ Hacc]]; [|by left].
      right. split; [done|]. exists s. split; [left|done].
    + right. split; [done|]. exists s'. split; [by right|done].
Qed.

Lemma single_part_cases rootdir p :
  (length (Path_parts p) <= 1)%nat →
  rootdir </> p = rootdir ∨
  (∃ d, rootdir </> p = MkPath true d []) ∨
  ∃ name, rootdir </> p = child rootdir name.
Proof.
  destruct p as [[] d ps]; unfold Path_parts, joinpath; cbn [root dslash parts length].
  - intros Hl. destruct ps; [|simpl in Hl; lia]. right. left. by exists d.
  - intros Hl. destruct ps as [|name [|]]; [| |simpl in Hl; lia].
    + left. rewrite app_nil_r. by destruct rootdir.
    + right. right. by exists name.
Qed.
End Config.

(** X16: a configuration that [main] rejects costs nothing: whatever is
    wrong (a relative directory, a bad ignore entry, a bad group level, a
    build or sync directory exposed under the root), the exception is a
    [ValueError] and [main] stops before any change to the file system. *)
Theorem rejected_config_untouched (int_of_str : str → result Z)
    (tar_bz2 : list entry → bytes) (scandir : tree → tree)
    (run_rsync : Path → Path → option exn) (machine : node) (cfg : config) (e : exn) :
  validate int_of_str machine cfg = Raise e →
  (∃ msg, e = ValueError msg) ∧
  main int_of_str tar_bz2 scandir run_rsync machine cfg = mkRun [] [] (Some e).
Proof.
  intros Hv. split; [by eapply validate_raises|].
  unfold main. by rewrite Hv.
Qed.

Lemma rejected_config_untouched_witness :
  (∃ msg, ValueError "Bad config! rootdir must be absolute" = ValueError msg) ∧
  main no_int raw_tar creation_order rsync_ok machine0
    (mkConfig (lit "data") (lit "/build") (lit "/sync") [] [])
  = mkRun [] [] (Some (ValueError "Bad config! rootdir must be absolute")).
Proof.
  apply (rejected_config_untouched no_int raw_tar creation_order rsync_ok machine0
           (mkConfig (lit "data") (lit "/build") (lit "/sync") [] [])).
  vm_compute. reflexivity.
Defined.

(** The group level entry [..] is accepted: its key is the directory above
    the root. *)
Lemma parent_as_group_key :
  validate no_int machine0 (config0 [] [ (lit "..", YInt 1) ])
    = Ok (mkValidated data_root build_root sync_root ∅
            {[ child data_root (lit "..") := 1%Z ]}) ∧
  fs_lookup machine0 (child data_root (lit "..")) = Some machine0.
Proof. split; vm_compute; reflexivity. Qed.

(** X18: every key of the validated group levels is an existing directory,
    and is the root itself (entry [.]), or a root directory, [/] or [//]
    (an absolute entry without component), or the root joined with one
    component. The component need not name a child of the root: with the
    entry [..] the key is the directory above the root. *)
Theorem validated_group_keys (int_of_str : str → result Z) (machine : node)
    (cfg : config) (v : validated) (k : Path) (b : Z) :
  validate int_of_str machine cfg = Ok v →
  v_group_levels v !! k = Some b →
  path_is_dir machine k = true ∧
  (k = v_rootdir v ∨ (∃ d, k = MkPath true d []) ∨ ∃ name, k = child (v_rootdir v) name).
Proof.
  intros (_ & _ & _ & _ & Hgl & _)%validate_inv Hk.
  destruct (load_group_levels_sound _ _ _ _ _ _ Hgl k b Hk)
    as [Hin|(Hd & s & _ & -> & Hl)]; [by rewrite lookup_empty in Hin|].
  split; [done|]. by apply single_part_cases.
Qed.

Lemma validated_group_keys_witness :
  path_is_dir machine1 (child data_root (lit "projects")) = true ∧
  (child data_root (lit "projects") = v_rootdir validated1 ∨
   (∃ d, child data_root (lit "projects") = MkPath true d []) ∨
   ∃ name, child data_root (lit "projects") = child (v_rootdir validated1) name).
Proof.
  apply (validated_group_keys no_int machine1 config1 validated1
           (child data_root (lit "projects")) 1%Z).
  - vm_compute. reflexivity.
  - vm_compute. reflexivity.
Defined.

(** ** [main]: the file system after the build *)

Lemma lookup_abs_plain stack cur ps :
  lit ".." ∉ ps → lookup_abs stack cur ps = lookup_rel ps cur.
Proof.
  revert stack cur. induction ps as [|p r IH]; intros stack cur Hps; [done|].
  apply not_elem_of_cons in Hps as [Hp Hr].
  cbn [lookup_abs lookup_rel]. destruct cur as [rd dt|l es]; [done|].
  rewrite decide_False by done.
  destruct (lookup_name p es); [by apply IH|done].
Qed.

Lemma fs_lookup_plain machine p :
  lit ".." ∉ parts p → fs_lookup machine p = lookup_rel (parts p) machine.
Proof. apply lookup_abs_plain. Qed.

Lemma lookup_name_replace p x es :
  is_Some (lookup_name p es) → lookup_name p (replace_name p x es) = Some x.
Proof.
  induction es as [|[n y] es IH]; cbn [lookup_name replace_name].
  - by intros [? [=]].
  - destruct (decide (n = p)) as [->|Hn]; intros Hs; cbn [lookup_name].
    + by rewrite decide_True.
    + rewrite decide_False by done. by apply IH.
Qed.

Lemma lookup_name_replace_ne p q x es :
  q ≠ p → lookup_name q (replace_name p x es) = lookup_name q es.
Proof.
  intros Hq. induction es as [|[n y] es IH]; [done|]. cbn [lookup_name replace_name].
  destruct (decide (n = p)) as [->|Hn]; cbn [lookup_name].
  - by rewrite !decide_False by done.
  - destruct (decide (n = q)); [done|apply IH].
Qed.

Lemma lookup_name_remove_ne p q es :
  q ≠ p → lookup_name q (remove_name p es) = lookup_name q es.
Proof.
  intros Hq. induction es as [|[n y] es IH]; [done|]. cbn [lookup_name remove_name].
  destruct (decide (n = p)) as [->|Hn]; cbn [lookup_name].
  - by rewrite decide_False by done.
  - destruct (decide (n = q)); [done|apply IH].
Qed.

Lemma lookup_name_snoc p q x es :
  lookup_name q (es ++ [(p, x)]) =
  match lookup_name q es with
  | Some y => Some y
  | None => if decide (p = q) then Some x else None
  end.
Proof.
  induction es as [|[n y] es IH]; cbn [app lookup_name]; [done|].
  destruct (decide (n = q)); [done|apply IH].
Qed.

Lemma lookup_empty_dirs ps : lookup_rel ps (empty_dirs ps) = Some (Dir []).
Proof.
  induction ps as [|p r IH]; [done|]. cbn [empty_dirs lookup_rel lookup_name].
  by rewrite decide_True.
Qed.

(** After [os.makedirs] the path leads to an empty directory. *)
Lemma makedirs_rel_made ps n n' :
  makedirs_rel ps n = Ok n' → lookup_rel ps n' = Some (Dir []).
Proof.
  revert n n'. induction ps as [|p r IH]; intros n n'; [done|].
  cbn [makedirs_rel]. destruct n as [rd dt|l es]; [done|].
  destruct (lookup_name p es) as [x|] eqn:Hp.
  - destruct (makedirs_rel r x) as [x'|] eqn:Hx; [|done]. cbn. intros [= <-].
    cbn [lookup_rel]. rewrite lookup_name_replace by (by rewrite Hp). by eapply IH.
  - intros [= <-]. cbn [lookup_rel]. rewrite lookup_name_snoc, Hp, decide_True by done.
    apply lookup_empty_dirs.
Qed.

Lemma lookup_write_rel ps new n :
  is_Some (lookup_rel ps n) → lookup_rel ps (write_rel ps new n) = Some new.
Proof.
  revert n. induction ps as [|p r IH]; intros n; [done|].
  cbn [lookup_rel write_rel]. destruct n as [rd dt|l es]; [by intros [? [=]]|].
  destruct (lookup_name p es) as [x|] eqn:Hp; [|by intros [? [=]]].
  intros Hx. cbn [lookup_rel]. rewrite lookup_name_replace by (by rewrite Hp).
  by apply IH.
Qed.

Section Build.
Variable tar_bz2 : list entry → bytes.
Variable scandir : tree → tree.

Lemma realise_BDir bl :
  realise tar_bz2 scandir (BDir bl) = Dir (scandir (realise_all tar_bz2 scandir bl)).
Proof.
  cbn [realise]. do 2 f_equal. unfold realise_all.
  induction bl as [|[name x] bl IH]; [done|]. cbn [map fst snd]. by rewrite IH.
Qed.

Lemma prepare_made machine builddir calls made :
  prepare machine builddir = (calls, Ok made) →
  lookup_rel (parts builddir) made = Some (Dir []).
Proof.
  unfold prepare. destruct (fs_lookup machine builddir) as [[rd dt|l es]|].
  - by intros [= _ ?].
  - destruct (listable_all (Directory l es)); cbn [negb]; [|by intros [= _ ?]].
    destruct (parts builddir) as [|p r] eqn:Hps; [by intros [= _ ?]|].
    intros [= _ H].
    exact (makedirs_rel_made (p :: r) (rmtree_rel (p :: r) machine) made H).
  - intros [= _ H]. by apply makedirs_rel_made in H.
Qed.

(** What a build that ends without exception leaves: [explore] has run on
    the root as it was once the build directory was made, and the build
    directory holds what [explore] created. *)
Lemma build_inv machine v calls built bl :
  build tar_bz2 scandir machine v = (calls, Ok (built, bl)) →
  (lit ".." ∉ parts (v_builddir v)) ∧
  ∃ calls0 made fs,
    prepare machine (v_builddir v) = (calls0, Ok made) ∧
    fs_lookup made (v_rootdir v) = Some (Dir fs) ∧
    explore fs (v_rootdir v) (v_builddir v) (v_group_levels v) (v_to_ignore v)
      = (bl, None) ∧
    built = write_rel (parts (v_builddir v)) (realise tar_bz2 scandir (BDir bl)) made ∧
    calls = calls0 ++ [Built (v_builddir v) bl].
Proof.
  unfold build. destruct (decide (lit ".." ∈ parts (v_builddir v))) as [Hd|Hd].
  { by rewrite bool_decide_eq_true_2. }
  rewrite bool_decide_eq_false_2 by done.
  destruct (prepare machine (v_builddir v)) as [calls0 [made|e]] eqn:Hprep; [|done].
  destruct (exposed made _ _ _); [done|].
  destruct (fs_lookup made (v_rootdir v)) as [[rd dt|[] fs]|] eqn:Hfs; [done| |done..].
  destruct (explore fs _ _ _ _) as [bl' [e|]] eqn:Hrun; [done|].
  intros [= <- <- <-]. split; [done|]. exists calls0, made, fs. done.
Qed.

Lemma build_made machine v calls built bl :
  build tar_bz2 scandir machine v = (calls, Ok (built, bl)) →
  fs_lookup built (v_builddir v) = Some (realise tar_bz2 scandir (BDir bl)).
Proof.
  intros (Hd & calls0 & made & fs & Hprep & _ & _ & -> & _)%build_inv.
  rewrite fs_lookup_plain by done. apply lookup_write_rel.
  by rewrite (prepare_made _ _ _ _ Hprep).
Qed.
End Build.

(** ** [main]: the report *)

Lemma mapM_result_app {A B} (f : A → result B) (l1 l2 : list A) :
  mapM f (l1 ++ l2) = x ← mapM f l1; y ← mapM f l2; Ok (x ++ y).
Proof.
  induction l1 as [|a l1 IH]; cbn.
  - by destruct (mapM f l2).
  - destruct (f a); [|done]. cbn. rewrite IH.
    destruct (mapM f l1); [|done]. cbn. by destruct (mapM f l2).
Qed.

Lemma mapM_result_Forall2 {A B} (f : A → result B) (l : list A) (k : list B) :
  mapM f l = Ok k → Forall2 (fun x y => f x = Ok y) l k.
Proof.
  revert k. induction l as [|a l IH]; intros k; cbn.
  - intros [= <-]. constructor.
  - destruct (f a) as [y|] eqn:Hy; [|done]. cbn.
    destruct (mapM f l) as [ys|]; [|done]. cbn.
    intros [= <-]. constructor; [done|]. by apply IH.
Qed.

Lemma mapM_result_ok {A B} (f : A → result B) (l : list A) :
  (∀ x, x ∈ l → ∃ y, f x = Ok y) → ∃ k, mapM f l = Ok k.
Proof.
  induction l as [|a l IH]; intros Hf; [by exists []|]. cbn.
  destruct (Hf a) as [y ->]; [left|]. cbn.
  destruct IH as [k ->]; [intros x Hx; apply Hf; by right|]. cbn. eauto.
Qed.

Lemma mapM_result_raise {A B} (f : A → result B) (l : list A) (e : exn) :
  mapM f l = Raise e → ∃ x, x ∈ l ∧ f x = Raise e.
Proof.
  induction l as [|a l IH]; [done|]. cbn.
  destruct (f a) as [y|e'] eqn:Hy; cbn.
  - destruct (mapM f l) as [ys|e'] eqn:Hl; [done|]. cbn. intros [= ->].
    destruct IH as (x & Hx & Hfx); [done|]. exists x. split; [by right|done].
  - intros [= ->]. exists a. split; [left|done].
Qed.

Lemma mapM_result_fails {A B} (f : A → result B) (l : list A) (x : A) (e : exn) :
  x ∈ l → f x = Raise e → ∃ e', mapM f l = Raise e'.
Proof.
  induction l as [|a l IH]; intros Hx Hfx; [by apply elem_of_nil in Hx|]. cbn.
  destruct (f a) as [y|e'] eqn:Hy; cbn; [|eauto].
  apply elem_of_cons in Hx as [->|Hx]; [congruence|].
  destruct (IH Hx Hfx) as [e' ->]. cbn. eauto.
Qed.

Lemma bnode_ind' (P : bnode → Prop) :
  (∀ es, P (Blob es)) →
  (∀ bl, Forall (fun c => P c.2) bl → P (BDir bl)) →
  ∀ b, P b.
Proof.
  intros HB HD. fix IH 1. intros [es|bl]; [apply HB|]. apply HD.
  induction bl as [|[n x] bl IHbl]; constructor; [apply IH|apply IHbl].
Qed.

Lemma bnode_blobs_BDir here bl :
  bnode_blobs here (BDir bl) = blobs_here here bl ++ blobs_below here bl.
Proof.
  cbn [bnode_blobs]. f_equal.
  - induction bl as [|[f [es|sub]] r IH]; cbn [blobs_here]; [done|by rewrite IH|done].
  - induction bl as [|[d [es|sub]] r IH]; cbn [blobs_below]; [done|done|by rewrite IH].
Qed.

Lemma node_files_Dir here es :
  node_files here (Dir es) = files_here here es ++ files_below here es.
Proof.
  cbn [node_files]. f_equal.
  - induction es as [|[f [rd dt|l sub]] r IH]; cbn [files_here]; [done|by rewrite IH|done].
  - induction es as [|[d [rd dt|l sub]] r IH]; cbn [files_below]; [done|done|by rewrite IH].
Qed.

Lemma relative_to_extend d here : relative_to (extend d here) d = Ok (mkPath false here).
Proof.
  unfold relative_to, extend. cbn [root dslash parts].
  by rewrite bool_decide_eq_true_2, strip_prefix_app.
Qed.

Lemma child_of_extend d here f : child (extend d here) f = extend d (here ++ [f]).
Proof. unfold child, extend. cbn. by rewrite app_assoc. Qed.

Lemma joinpath_relative d here : d </> mkPath false here = extend d here.
Proof. reflexivity. Qed.

Section Report.
Variable machine : node.
Variable builddir syncdir : Path.

Lemma stat_files_mapM here es :
  stat_files machine builddir (extend builddir here) (extend syncdir here) es
  = mapM (stat_line machine syncdir) (files_here here es).
Proof.
  induction es as [|[f [rd dt|l sub]] r IH]; cbn [stat_files files_here]; [done| |done].
  rewrite !child_of_extend, relative_to_extend, IH.
  set (rest := mapM (stat_line machine syncdir) (files_here here r)).
  change (mapM (stat_line machine syncdir) ((here ++ [f], rd, dt) :: files_here here r))
    with (y ← stat_line machine syncdir (here ++ [f], rd, dt); k ← rest; Ok (y :: k)).
  unfold stat_line. cbn [fst snd].
  destruct (file_status _ _ _); cbn; [|done].
  by destruct rest.
Qed.

Lemma stat_walk_Dir dirpath es :
  stat_walk machine builddir syncdir dirpath (Dir es) =
  rel ← relative_to dirpath builddir;
  here ← stat_files machine builddir dirpath (syncdir </> rel) es;
  below ← stat_subdirs machine builddir syncdir dirpath es;
  Ok (here ++ below).
Proof.
  cbn [stat_walk]. destruct (relative_to dirpath builddir); [|done]. cbn.
  destruct (stat_files _ _ _ _ _); [|done]. cbn.
  f_equal. induction es as [|[d [rd dt|l sub]] r IH]; cbn [stat_subdirs]; [done|done|].
  by rewrite IH.
Qed.

(** The report has one line for each file below the build directory, in
    the order of [os.walk]. *)
Lemma stat_walk_mapM n :
  ∀ here,
    stat_walk machine builddir syncdir (extend builddir here) n
    = mapM (stat_line machine syncdir) (node_files here n).
Proof.
  induction n as [rd dt|es|es IH] using node_ind'; intros here; [done|done|].
  rewrite stat_walk_Dir, node_files_Dir, mapM_result_app.
  rewrite relative_to_extend. cbn [mbind result_bind].
  rewrite joinpath_relative, stat_files_mapM.
  destruct (mapM _ (files_here here es)) as [lines|]; [|done]. cbn.
  assert (stat_subdirs machine builddir syncdir (extend builddir here) es
          = mapM (stat_line machine syncdir) (files_below here es)) as ->; [|done].
  induction IH as [|[d [rd dt|l sub]] r Hd _ IHr]; cbn [stat_subdirs files_below];
    [done|done|].
  cbn [snd] in Hd. rewrite child_of_extend, Hd, IHr, mapM_result_app. done.
Qed.

Lemma stats_mapM n :
  fs_lookup machine builddir = Some n →
  stats machine builddir syncdir = mapM (stat_line machine syncdir) (node_files [] n).
Proof.
  intros Hn. unfold stats. rewrite Hn.
  pose proof (stat_walk_mapM n []) as H. by rewrite extend_nil in H.
Qed.
End Report.

Lemma files_here_perm here t t' :
  t ≡ₚ t' → files_here here t ≡ₚ files_here here t'.
Proof.
  induction 1 as [|[f [rd dt|l sub]] t t' _ IH|[f [rd dt|l sub]] [g [rd' dt'|l' sub']] t|];
    cbn [files_here]; try done.
  - by constructor.
  - apply perm_swap.
  - etrans; done.
Qed.

Lemma files_below_perm here t t' :
  t ≡ₚ t' → files_below here t ≡ₚ files_below here t'.
Proof.
  induction 1 as [|[f [rd dt|l sub]] t t' _ IH|[f [rd dt|l sub]] [g [rd' dt'|l' sub']] t|];
    cbn [files_below]; try done.
  - by apply Permutation_app_head.
  - rewrite !app_assoc. apply Permutation_app_tail, Permutation_app_comm.
  - etrans; done.
Qed.

Section Found.
Variable tar_bz2 : list entry → bytes.
Variable scandir : tree → tree.
Hypothesis scandir_lists : lists_all scandir.

Lemma files_here_realise here bl :
  files_here here (realise_all tar_bz2 scandir bl)
  = map (on_disk tar_bz2) (blobs_here here bl).
Proof.
  induction bl as [|[f [es|sub]] bl IH]; [done| |].
  - cbn [realise_all map fst snd realise files_here blobs_here]. f_equal. apply IH.
  - unfold realise_all. cbn [map fst snd]. rewrite realise_BDir.
    cbn [files_here blobs_here]. apply IH.
Qed.

Lemma files_below_realise here bl :
  Forall (fun c => ∀ here, node_files here (realise tar_bz2 scandir c.2)
                          ≡ₚ map (on_disk tar_bz2) (bnode_blobs here c.2)) bl →
  files_below here (realise_all tar_bz2 scandir bl)
  ≡ₚ map (on_disk tar_bz2) (blobs_below here bl).
Proof.
  induction 1 as [|[d [es|sub]] bl Hd _ IH]; [done| |].
  - cbn [realise_all map fst snd realise files_below blobs_below]. apply IH.
  - unfold realise_all. cbn [map fst snd]. cbn [snd] in Hd.
    specialize (Hd (here ++ [d])). rewrite realise_BDir in Hd |- *.
    cbn [files_below blobs_below]. rewrite map_app.
    by apply Permutation_app.
Qed.

(** The files of the build area are the blobs that [explore] created. *)
Lemma node_files_realise b :
  ∀ here, node_files here (realise tar_bz2 scandir b)
          ≡ₚ map (on_disk tar_bz2) (bnode_blobs here b).
Proof.
  induction b as [es|bl IH] using bnode_ind'; intros here; [done|].
  rewrite realise_BDir, node_files_Dir, bnode_blobs_BDir, map_app.
  apply Permutation_app.
  - rewrite <- files_here_realise. apply files_here_perm, scandir_lists.
  - rewrite <- files_below_realise by done. apply files_below_perm, scandir_lists.
Qed.

Lemma found_blobs bl :
  ∃ found, found ≡ₚ listing_blobs bl ∧
           node_files [] (realise tar_bz2 scandir (BDir bl)) = map (on_disk tar_bz2) found.
Proof.
  destruct (Permutation_map_inv _ _ (node_files_realise (BDir bl) []))
    as (found & Heq & Hperm).
  exists found. split; [by symmetry|done].
Qed.
End Found.

Lemma file_status_cases data sync :
  match sync with
  | None => file_status true data sync = Ok new
  | Some (File true d) =>
      file_status true data sync = Ok (if decide (data = d) then equal else changed)
  | Some (File false _) => file_status true data sync = Raise PermissionError
  | Some (Directory _ _) => file_status true data sync = Raise IsADirectoryError
  end.
Proof.
  destruct sync as [[[] d|l es]|]; [|done..].
  cbn [file_status blob_status]. rewrite compare_content_correct.
  destruct (decide (data = d)).
  - by rewrite bool_decide_eq_true_2.
  - by rewrite bool_decide_eq_false_2.
Qed.

Lemma main_report int_of_str tar_bz2 scandir run_rsync machine cfg v calls built bl :
  validate int_of_str machine cfg = Ok v →
  build tar_bz2 scandir machine v = (calls, Ok (built, bl)) →
  match stats built (v_builddir v) (v_syncdir v) with
  | Raise e => main int_of_str tar_bz2 scandir run_rsync machine cfg = mkRun calls [] (Some e)
  | Ok lines => all_stats (main int_of_str tar_bz2 scandir run_rsync machine cfg) = lines
  end.
Proof.
  intros Hv Hb. unfold main. rewrite Hv, Hb.
  destruct (stats built _ _); [|done].
  destruct (top_names built _); [|done].
  by destruct (rsync_all _ _ _).
Qed.



Lemma newest_first_lists_all : lists_all newest_first.
Proof. intros t. unfold newest_first. symmetry. apply Permutation_rev. Qed.


(** ** [main]: what the build leaves alone *)

Lemma apart_cons p ps qs : apart (p :: ps) (p :: qs) → apart ps qs.
Proof. intros [H1 H2]. split; intros H; [apply H1|apply H2]; by apply prefix_cons. Qed.

Lemma apart_nil_l qs : ¬ apart [] qs.
Proof. intros [H _]. apply H, prefix_nil. Qed.

Lemma apart_nil_r ps : ¬ apart ps [].
Proof. intros [_ H]. apply H, prefix_nil. Qed.

Lemma lookup_empty_dirs_prefix ps qs x :
  lookup_rel qs (empty_dirs ps) = Some x → qs `prefix_of` ps.
Proof.
  revert qs. induction ps as [|p r IH]; intros [|q qs];
    [intros _; apply prefix_nil|done|intros _; apply prefix_nil|].
  cbn [empty_dirs lookup_rel lookup_name].
  destruct (decide (p = q)) as [->|]; [|done].
  intros H. by apply prefix_cons, IH.
Qed.

Lemma rmtree_rel_frame ps qs n :
  apart ps qs → lookup_rel qs (rmtree_rel ps n) = lookup_rel qs n.
Proof.
  revert qs n. induction ps as [|p r IH]; intros qs n Hap; [done|].
  destruct qs as [|q qs]; [by apply apart_nil_r in Hap|].
  cbn [rmtree_rel]. destruct n as [rd dt|l es]; [done|].
  destruct (decide (q = p)) as [->|Hq].
  - apply apart_cons in Hap.
    destruct r as [|r0 r]; [by apply apart_nil_l in Hap|].
    destruct (lookup_name p es) as [x|] eqn:Hp; [|done].
    cbn [lookup_rel]. rewrite lookup_name_replace, Hp by (by rewrite Hp). by apply IH.
  - destruct r as [|r0 r].
    + cbn [lookup_rel]. by rewrite lookup_name_remove_ne.
    + destruct (lookup_name p es) as [x|] eqn:Hp; [|done].
      cbn [lookup_rel]. by rewrite lookup_name_replace_ne.
Qed.

Lemma makedirs_rel_frame ps qs n n' :
  apart ps qs → makedirs_rel ps n = Ok n' → lookup_rel qs n' = lookup_rel qs n.
Proof.
  revert qs n n'. induction ps as [|p r IH]; intros qs n n' Hap; [done|].
  destruct qs as [|q qs]; [by apply apart_nil_r in Hap|].
  cbn [makedirs_rel]. destruct n as [rd dt|l es]; [done|].
  destruct (lookup_name p es) as [x|] eqn:Hp.
  - destruct (makedirs_rel r x) as [x'|] eqn:Hx; [|done]. cbn. intros [= <-].
    cbn [lookup_rel]. destruct (decide (q = p)) as [->|Hq].
    + rewrite lookup_name_replace, Hp by (by rewrite Hp).
      eapply IH; [by eapply apart_cons|done].
    + by rewrite lookup_name_replace_ne.
  - intros [= <-]. cbn [lookup_rel]. rewrite lookup_name_snoc.
    destruct (decide (q = p)) as [->|Hq].
    + rewrite Hp, decide_True by done.
      destruct (lookup_rel qs (empty_dirs r)) as [y|] eqn:Hy; [|done].
      apply lookup_empty_dirs_prefix in Hy. apply apart_cons in Hap. by destruct Hap.
    + destruct (lookup_name q es); [done|]. by rewrite decide_False.
Qed.

Lemma write_rel_frame ps qs new n :
  apart ps qs → lookup_rel qs (write_rel ps new n) = lookup_rel qs n.
Proof.
  revert qs n. induction ps as [|p r IH]; intros qs n Hap;
    [by apply apart_nil_l in Hap|].
  destruct qs as [|q qs]; [by apply apart_nil_r in Hap|].
  cbn [write_rel]. destruct n as [rd dt|l es]; [done|].
  destruct (lookup_name p es) as [x|] eqn:Hp; [|done].
  cbn [lookup_rel]. destruct (decide (q = p)) as [->|Hq].
  - rewrite lookup_name_replace, Hp by (by rewrite Hp). by eapply IH, apart_cons.
  - by rewrite lookup_name_replace_ne.
Qed.

Lemma prepare_frame machine builddir calls made qs :
  apart (parts builddir) qs →
  prepare machine builddir = (calls, Ok made) →
  lookup_rel qs made = lookup_rel qs machine.
Proof.
  intros Hap. unfold prepare. destruct (fs_lookup machine builddir) as [[rd dt|l es]|].
  - by intros [= _ ?].
  - destruct (listable_all (Directory l es)); cbn [negb]; [|by intros [= _ ?]].
    destruct (parts builddir) as [|p r] eqn:Hps; [by intros [= _ ?]|].
    intros [= _ H].
    rewrite (makedirs_rel_frame (p :: r) qs (rmtree_rel (p :: r) machine) made Hap H).
    by apply rmtree_rel_frame.
  - intros [= _ H]. by eapply makedirs_rel_frame.
Qed.

(** A build changes nothing at a place that is apart from the build
    directory. *)
Lemma build_frame tar_bz2 scandir machine v calls built bl qs :
  build tar_bz2 scandir machine v = (calls, Ok (built, bl)) →
  apart (parts (v_builddir v)) qs →
  lookup_rel qs built = lookup_rel qs machine.
Proof.
  intros (_ & calls0 & made & fs & Hprep & _ & _ & -> & _)%build_inv Hap.
  rewrite write_rel_frame by done. by eapply prepare_frame.
Qed.

Lemma apart_app ps qs k : apart ps qs → apart ps (qs ++ k).
Proof.
  intros [H1 H2]. split.
  - intros [j Hj]. destruct (prefix_weak_total ps qs (qs ++ k)) as [H|H];
      [by exists j|by apply prefix_app_r|done..].
  - intros [j Hj]. apply H2. exists (k ++ j). by rewrite app_assoc.
Qed.

Lemma mapM_result_all {A B C} (f : B → result C) (h : A → B) (g : A → C) (l : list A) :
  (∀ x, x ∈ l → f (h x) = Ok (g x)) → mapM f (map h l) = Ok (map g l).
Proof.
  induction l as [|a l IH]; intros Hf; [done|]. cbn.
  rewrite (Hf a) by left. cbn. rewrite IH; [done|].
  intros x Hx. apply Hf. by right.
Qed.

(** When the status of every blob is known, so is the report, up to the
    order in which the file system lists the build area. *)
Lemma report_all int_of_str tar_bz2 scandir run_rsync machine cfg v calls built bl
    (st : list str * list entry → status) :
  lists_all scandir →
  validate int_of_str machine cfg = Ok v →
  build tar_bz2 scandir machine v = (calls, Ok (built, bl)) →
  (∀ blob, blob ∈ listing_blobs bl →
     file_status true (tar_bz2 blob.2) (mirror_of built (v_syncdir v) blob) = Ok (st blob)) →
  all_stats (main int_of_str tar_bz2 scandir run_rsync machine cfg)
  ≡ₚ map (fun blob => (mkPath false blob.1, length (tar_bz2 blob.2), st blob))
       (listing_blobs bl).
Proof.
  intros Hscan Hv Hb Hst.
  pose proof (build_made _ _ _ _ _ _ _ Hb) as Hlook.
  pose proof (stats_mapM built (v_builddir v) (v_syncdir v) _ Hlook) as Hstats.
  destruct (found_blobs tar_bz2 scandir Hscan bl) as (found & Hperm & Hfound).
  rewrite Hfound in Hstats.
  pose proof (main_report int_of_str tar_bz2 scandir run_rsync _ _ _ _ _ _ Hv Hb) as Hmain.
  rewrite Hstats in Hmain.
  rewrite (mapM_result_all _ _
             (fun blob => (mkPath false blob.1, length (tar_bz2 blob.2), st blob)))
    in Hmain.
  - rewrite Hmain. by apply Permutation_map.
  - intros blob Hin. rewrite Hperm in Hin. unfold stat_line, on_disk. cbn [fst snd].
    fold (mirror_of built (v_syncdir v) blob). by rewrite (Hst blob Hin).
Qed.

(** ** [main]: the mirror before the run *)

Lemma blobs_here_inv here bl blob :
  blob ∈ blobs_here here bl → ∃ f es, blob = (here ++ [f], es) ∧ (f, Blob es) ∈ bl.
Proof.
  induction bl as [|[f [es|sub]] bl IH]; cbn [blobs_here].
  - by intros ?%elem_of_nil.
  - intros [->|Hin]%elem_of_cons.
    + exists f, es. split; [done|left].
    + destruct (IH Hin) as (f' & es' & -> & Hin'). exists f', es'. split; [done|by right].
  - intros Hin. destruct (IH Hin) as (f' & es' & -> & Hin').
    exists f', es'. split; [done|by right].
Qed.

Lemma blobs_below_inv here bl blob :
  blob ∈ blobs_below here bl →
  ∃ d sub, (d, BDir sub) ∈ bl ∧ blob ∈ bnode_blobs (here ++ [d]) (BDir sub).
Proof.
  induction bl as [|[d [es|sub]] bl IH]; cbn [blobs_below].
  - by intros ?%elem_of_nil.
  - intros Hin. destruct (IH Hin) as (d' & sub' & Hin' & Hb).
    exists d', sub'. split; [by right|done].
  - intros [Hin|Hin]%elem_of_app.
    + exists d, sub. split; [left|done].
    + destruct (IH Hin) as (d' & sub' & Hin' & Hb).
      exists d', sub'. split; [by right|done].
Qed.

Lemma wf_listing_levels_safe bl :
  wf_listing bl → all_levels (fun bl => Forall dropbox_safe (names bl)) bl.
Proof.
  induction 1 as [|bl f es Hwf IH Hf Hname|bl d sub Hwf IH Hd Hname Hsub IHsub].
  - constructor; [constructor|]. intros d sub Hin. by apply elem_of_nil in Hin.
  - apply all_levels_snoc; [done| |done].
    apply wf_listing_safe. by constructor.
  - apply all_levels_snoc; [done| |by intros ? [= <-]].
    apply wf_listing_safe. by constructor.
Qed.

(** The path of a blob is made of names of the build area. *)
Lemma bnode_blobs_names (P : str → Prop) b :
  ∀ here blob,
    (∀ bl, b = BDir bl → all_levels (fun bl => Forall P (names bl)) bl) →
    Forall P here → blob ∈ bnode_blobs here b → Forall P blob.1.
Proof.
  induction b as [es|bl IH] using bnode_ind'; intros here blob Hall Hhere;
    [by intros ?%elem_of_nil|].
  specialize (Hall bl eq_refl). inversion Hall as [? Hnames Hsub]; subst.
  rewrite Forall_forall in Hnames.
  rewrite bnode_blobs_BDir. intros [Hin|Hin]%elem_of_app.
  - apply blobs_here_inv in Hin as (f & es & -> & Hin). cbn [fst].
    apply Forall_app. split; [done|]. apply Forall_singleton, Hnames.
    apply list_elem_of_fmap. by exists (f, Blob es).
  - apply blobs_below_inv in Hin as (d & sub & Hin & Hb).
    rewrite Forall_forall in IH. eapply (IH (d, BDir sub) Hin); [| |exact Hb].
    + intros sub' [= <-]. by eapply Hsub.
    + apply Forall_app. split; [done|]. apply Forall_singleton, Hnames.
      apply list_elem_of_fmap. by exists (d, BDir sub).
Qed.

Lemma dropbox_safe_not_dotdot f : dropbox_safe f → f ≠ lit "..".
Proof. intros (_ & _ & Hdot & _) ->. by apply Hdot. Qed.

Lemma explore_blobs_plain fs rootdir builddir gl ign bl blob :
  explore fs rootdir builddir gl ign = (bl, None) →
  blob ∈ listing_blobs bl → lit ".." ∉ blob.1.
Proof.
  intros Hrun Hin.
  destruct (explore_wf fs rootdir builddir gl ign) as [Hsafe%wf_listing_levels_safe _].
  rewrite Hrun in Hsafe. cbn [fst] in Hsafe.
  assert (Forall dropbox_safe blob.1) as Hall.
  { eapply (bnode_blobs_names dropbox_safe (BDir bl) []); [|constructor|exact Hin].
    by intros ? [= <-]. }
  rewrite Forall_forall in Hall. intros Hd.
  by apply (dropbox_safe_not_dotdot _ (Hall _ Hd)).
Qed.

(** The mirror as the report finds it is the mirror as it was before the
    run, when the sync directory is written without [..] and is apart from
    the build directory. *)
Lemma mirror_untouched tar_bz2 scandir machine v calls built bl blob :
  build tar_bz2 scandir machine v = (calls, Ok (built, bl)) →
  lit ".." ∉ parts (v_syncdir v) →
  apart (parts (v_builddir v)) (parts (v_syncdir v)) →
  blob ∈ listing_blobs bl →
  mirror_of built (v_syncdir v) blob = mirror_of machine (v_syncdir v) blob.
Proof.
  intros Hb Hplain Hap Hin.
  pose proof Hb as (_ & _ & _ & fs & _ & _ & Hrun & _ & _)%build_inv.
  pose proof (explore_blobs_plain _ _ _ _ _ _ _ Hrun Hin) as Hblob.
  unfold mirror_of. rewrite !fs_lookup_plain.
  - cbn [extend parts]. eapply build_frame; [exact Hb|]. by apply apart_app.
  - cbn [extend parts]. by intros [?|?]%elem_of_app.
  - cbn [extend parts]. by intros [?|?]%elem_of_app.
Qed.

Lemma lookup_abs_app_None stack cur ps qs :
  lookup_abs stack cur ps = None → lookup_abs stack cur (ps ++ qs) = None.
Proof.
  revert stack cur. induction ps as [|p ps IH]; intros stack cur; [done|].
  cbn [app lookup_abs]. destruct cur as [rd dt|l es]; [done|].
  destruct (decide (p = lit "..")).
  - destruct stack; apply IH.
  - destruct (lookup_name p es); [apply IH|done].
Qed.

Lemma creation_order_lists_all : lists_all creation_order.
Proof. by intros t. Qed.




